(** * EdgeLoopToSketch: a shallow embedding of the macro and its properties

    The development follows [Macros/EdgeLoopToSketch/EdgeLoopToSketch.py].
    Python floats are IEEE-754 binary64 numbers and are embedded as Rocq's
    primitive floats, so every numeric test of the macro ([> tolerance],
    [> 0.999], [< 0.01]) is evaluated exactly as the interpreter evaluates it.
    Exceptions are explicit results, and the mutable host objects (console,
    sketch, document) are threaded through a state-and-exception monad in
    which the mutations made before a [raise] survive it, as in Python. *)

From Stdlib Require Import ZArith List String Ascii Bool Lia DecimalString.
From Stdlib Require DecimalPos DecimalZ.
From Stdlib Require Import Permutation.
From Stdlib Require Import PrimFloat SpecFloat FloatOps FloatAxioms.
From Stdlib Require Uint63.
Import ListNotations.

Set Warnings "-inexact-float".
Set Implicit Arguments.

Local Open Scope string_scope.
Local Open Scope list_scope.
Local Open Scope float_scope.

(** ** Exceptions and results *)

(** Every [raise] of the macro is [raise Exception(msg)]; the host raises
    exceptions of its own, which the macro only ever formats with [{e}]. *)
Inductive exn : Type := Exception (msg : string).

Definition str (e : exn) : string := let (msg) := e in msg.

Inductive result (A : Type) : Type :=
| Returns (a : A)
| Raises (e : exn).

Arguments Returns {A} a.
Arguments Raises {A} e.

(** The line feed that ends every console message. *)
Definition nl : string := String (ascii_of_nat 10) EmptyString.

(** [str(n)] for a Python int. *)
Definition str_int (n : Z) : string := NilZero.string_of_int (Z.to_int n).

(** ** The state-and-exception monad *)

Module Eff.

Definition M (S A : Type) : Type := S -> result A * S.

Definition ret {S A} (a : A) : M S A := fun s => (Returns a, s).

Definition bind {S A B} (m : M S A) (k : A -> M S B) : M S B :=
  fun s => match m s with
           | (Returns a, s') => k a s'
           | (Raises e, s') => (Raises e, s')
           end.

Definition raise {S A} (e : exn) : M S A := fun s => (Raises e, s).

(** [try: m except Exception as e: h e] *)
Definition try_except {S A} (m : M S A) (h : exn -> M S A) : M S A :=
  fun s => match m s with
           | (Returns a, s') => (Returns a, s')
           | (Raises e, s') => h e s'
           end.

Definition get {S} : M S S := fun s => (Returns s, s).
Definition modify {S} (f : S -> S) : M S unit := fun s => (Returns tt, f s).

(** A pure computation that may raise. *)
Definition lift {S A} (r : result A) : M S A := fun s => (r, s).

(** [for x in xs: body x] *)
Fixpoint for_each {S A} (xs : list A) (body : A -> M S unit) : M S unit :=
  match xs with
  | [] => ret tt
  | x :: xs' => bind (body x) (fun _ => for_each xs' body)
  end.

(** [for x in xs: acc = body acc x], for a loop that fills a local variable *)
Fixpoint fold_for {S A B} (xs : list A) (acc : B) (body : B -> A -> M S B) : M S B :=
  match xs with
  | [] => ret acc
  | x :: xs' => bind (body acc x) (fun acc' => fold_for xs' acc' body)
  end.

End Eff.

Import Eff.

Declare Scope eff_scope.
Delimit Scope eff_scope with eff.
Notation "x <- m ;; k" := (bind m (fun x => k))
  (at level 100, m at next level, right associativity) : eff_scope.
Notation "m ;; k" := (bind m (fun _ => k))
  (at level 100, right associativity) : eff_scope.
Local Open Scope eff_scope.

(** ** FreeCAD.Vector *)

(** The host's [Base::Vector3d]: three doubles and the usual operations,
    each evaluated in binary64 in the order the host evaluates it. *)
Module Vector.

Local Open Scope float_scope.

Record t : Type := mk { x : float; y : float; z : float }.

Definition sub (a b : t) : t := mk (x a - x b) (y a - y b) (z a - z b).
Definition add (a b : t) : t := mk (x a + x b) (y a + y b) (z a + z b).
Definition multiply (a : t) (s : float) : t := mk (x a * s) (y a * s) (z a * s).

Definition cross (a b : t) : t :=
  mk (y a * z b - z a * y b) (z a * x b - x a * z b) (x a * y b - y a * x b).

Definition dot (a b : t) : float := x a * x b + y a * y b + z a * z b.

Definition Length (a : t) : float := sqrt (x a * x a + y a * y a + z a * z a).

(** [v.normalize()]: divides by the length unless it is 0 or 1. The host
    refuses the null vector; the macro normalises cross products longer than
    the tolerance, normals longer than 1e-6 and the axes of circles. *)
Definition normalize (a : t) : t :=
  let len := Length a in
  if (len =? 0) || (len =? 1) then a
  else mk (x a / len) (y a / len) (z a / len).

Definition distanceToPoint (a b : t) : float := Length (sub a b).

(** [a.isEqual(b, tol)] *)
Definition isEqual (a b : t) (tol : float) : bool := distanceToPoint a b <=? tol.

End Vector.

Abbreviation Vector := Vector.t.

(** [a > b] on floats *)
Definition gt (a b : float) : bool := (b <? a)%float.

(** ** Edges of the source shape *)

(** [edge.Curve], by its Python type. [OtherCurve] carries [type(...).__name__]
    of any curve class that is none of [Line], [Circle], [BSplineCurve]. *)
Inductive Curve : Type :=
| Line
| Circle (Center Axis : Vector) (Radius : float)
| BSplineCurve (poles : list Vector) (mults : list Z) (knots : list float)
               (periodic : bool) (degree : Z)
| OtherCurve (type_name : string).

Definition curve_type (c : Curve) : string :=
  match c with
  | Line => "Line"
  | Circle _ _ _ => "Circle"
  | BSplineCurve _ _ _ _ _ => "BSplineCurve"
  | OtherCurve n => n
  end.

(** What the macro reads of an edge: [Vertexes] holds each vertex's [Point]. *)
Record Edge : Type := mkEdge {
  Curve_ : Curve;
  Vertexes : list Vector;
  Length : float;
  ParameterRange : float * float;
  valueAt : float -> Vector
}.

(** ** The plane fitter (edge_loop_to_sketch, lines 42-128) *)

Definition tolerance : float := 1e-6%float.

(** The two nested [for] loops that look for three non-collinear points:
    [pts] is [points[1:]], the outer loop takes [points[i]] and the inner one
    scans [points[i+1:]] for the first cross product longer than the
    tolerance. *)
Fixpoint find_plane_normal (plane_point : Vector) (pts : list Vector) : option Vector :=
  match pts with
  | [] => None
  | pi :: rest =>
      let v1 := Vector.sub pi plane_point in
      match find (fun pj => gt (Vector.Length (Vector.cross v1 (Vector.sub pj plane_point)))
                               tolerance) rest with
      | Some pj => Some (Vector.normalize (Vector.cross v1 (Vector.sub pj plane_point)))
      | None => find_plane_normal plane_point rest
      end
  end.

(** [abs((pt - plane_point).dot(plane_normal))] *)
Definition plane_distance (plane_point plane_normal pt : Vector) : float :=
  abs (Vector.dot (Vector.sub pt plane_point) plane_normal).

(** The verification loops: the first point farther than the tolerance raises. *)
Definition off_plane (plane_point plane_normal pt : Vector) : bool :=
  gt (plane_distance plane_point plane_normal pt) tolerance.

Definition msg_spline_few_poles : string :=
  "B-spline does not have enough control points to define a plane.".
Definition msg_spline_collinear : string :=
  "B-spline control points are collinear and cannot define a plane.".
Definition msg_spline_non_planar : string :=
  "B-spline is non-planar (3D curve). Select additional edges to define the plane.".
Definition msg_single_unsupported (curve_type : string) : string :=
  "Single edge of type '" ++ curve_type ++ "' cannot define a plane. Select at least 2 edges.".
Definition msg_few_unique_points : string :=
  "Selected edges do not provide enough unique points to define a plane.".
Definition msg_edges_collinear : string :=
  "Selected edges are collinear and cannot define a plane.".
Definition msg_edges_not_coplanar : string :=
  "Selected edges are not coplanar.".

(** Lines 47-90: the single edge that defines its own plane. The result is
    [(plane_point, plane_normal)]. *)
Definition single_edge_plane (edge : Edge) : result (Vector * Vector) :=
  match Curve_ edge with
  | Circle Center Axis _ => Returns (Center, Vector.normalize Axis)
  | BSplineCurve poles _ _ _ _ =>
      if (List.length poles <? 3)%nat then Raises (Exception msg_spline_few_poles)
      else
        match poles with
        | [] => Raises (Exception msg_spline_few_poles)
        | plane_point :: rest =>
            match find_plane_normal plane_point rest with
            | None => Raises (Exception msg_spline_collinear)
            | Some plane_normal =>
                if existsb (off_plane plane_point plane_normal) poles
                then Raises (Exception msg_spline_non_planar)
                else Returns (plane_point, plane_normal)
            end
        end
  | c => Raises (Exception (msg_single_unsupported (curve_type c)))
  end.

(** Lines 97-102: every vertex goes to [all_points]; it goes to
    [unique_points] unless it [isEqual]s a point already there. *)
Definition all_points_of (selected_edges : list Edge) : list Vector :=
  flat_map Vertexes selected_edges.

Definition add_unique (unique_points : list Vector) (pt : Vector) : list Vector :=
  if existsb (fun existing => Vector.isEqual pt existing tolerance) unique_points
  then unique_points
  else unique_points ++ [pt].

Definition unique_points_of (all_points : list Vector) : list Vector :=
  fold_left add_unique all_points [].

(** Lines 93-128: two edges or more. *)
Definition multi_edge_plane (selected_edges : list Edge) : result (Vector * Vector) :=
  let all_points := all_points_of selected_edges in
  let unique_points := unique_points_of all_points in
  if (List.length unique_points <? 3)%nat then Raises (Exception msg_few_unique_points)
  else
    match unique_points with
    | [] => Raises (Exception msg_few_unique_points)
    | plane_point :: rest =>
        match find_plane_normal plane_point rest with
        | None => Raises (Exception msg_edges_collinear)
        | Some plane_normal =>
            if existsb (off_plane plane_point plane_normal) all_points
            then Raises (Exception msg_edges_not_coplanar)
            else Returns (plane_point, plane_normal)
        end
    end.

(** ** Placements (create_sketch_placement, lines 176-186) *)

(** The three ways the macro builds a [FreeCAD.Rotation]. *)
Inductive Rotation : Type :=
| Rotation_identity                                 (* FreeCAD.Rotation() *)
| Rotation_axis_angle (axis : Vector) (degrees : float)  (* Rotation(axis, angle) *)
| Rotation_from_to (from to : Vector).              (* Rotation(from, to) *)

Record Placement : Type := mkPlacement { Base : Vector; Rotation_ : Rotation }.

Definition z_axis : Vector := Vector.mk 0%float 0%float 1%float.

Definition create_sketch_placement (normal center : Vector) : Placement :=
  let normal := if gt (Vector.Length normal) 1e-6%float then Vector.normalize normal
                else Vector.mk 0%float 0%float 1%float in
  let rotation :=
    if gt (abs (Vector.dot normal z_axis)) 0.999%float
    then (if gt (Vector.z normal) 0%float then Rotation_identity
          else Rotation_axis_angle (Vector.mk 1%float 0%float 0%float) 180%float)
    else Rotation_from_to z_axis normal in
  mkPlacement center rotation.

(** ** Python lists *)

(** [l[i]] for an index that fits a machine word: a negative index counts
    from the end, an index out of range raises [IndexError]. (An index beyond
    the machine word raises [IndexError] too, with another message.) *)
Definition index {A} (l : list A) (i : Z) : result A :=
  let n := Z.of_nat (List.length l) in
  let j := if (i <? 0)%Z then (n + i)%Z else i in
  if (j <? 0)%Z then Raises (Exception "list index out of range")
  else match nth_error l (Z.to_nat j) with
       | Some a => Returns a
       | None => Raises (Exception "list index out of range")
       end.

(** ** Sketch geometry and constraints *)

(** The [Part] geometry classes the macro instantiates. A circular arc holds
    what the host derived from the three points it was built through. *)
Module Part.

Inductive Geometry : Type :=
| LineSegment (StartPoint EndPoint : Vector)
| Circle (Center Axis : Vector) (Radius : float)
| ArcOfCircle (Center : Vector) (Radius : float) (StartPoint EndPoint : Vector)
| BSplineCurve (poles : list Vector) (mults : list Z) (knots : list float)
               (periodic : bool) (degree : Z).

End Part.

(** [Sketcher.Constraint(...)], by the argument lists the macro uses. *)
Inductive Constraint : Type :=
| Coincident (First FirstPos Second SecondPos : Z)
| Radius (First : Z) (Value : float)
| Block (First : Z)
| Distance (First : Z) (Value : float).

(** A sketch: its geometry list, each item with its construction flag, and its
    constraint list, each constraint with its driving flag. The solver of the
    host, which may move a geometry when a constraint is added, is no part of
    the macro: a geometry is read back as it was stored. *)
Record Sketch : Type := mkSketch {
  Geometry : list (Part.Geometry * bool);
  Constraints : list (Constraint * bool)
}.

Inductive ConsoleEntry : Type :=
| PrintMessage (text : string)
| PrintWarning (text : string)
| PrintError (text : string).

(** ** The host *)

(** The calls into the host that can raise while a sketch is filled. *)
Inductive SketchCall : Type :=
| Part_LineSegment (p1 p2 : Vector)
| Part_Circle (center normal : Vector) (radius : float)
| Part_ArcOfCircle (p1 p2 p3 : Vector)
| buildFromPolesMultsKnots (poles : list Vector) (mults : list Z) (knots : list float)
                           (periodic : bool) (degree : Z)
| sketch_addGeometry (geo : Part.Geometry) (construction : bool)
| sketch_addConstraint (c : Constraint)
| sketch_getPoint (geo_idx pos : Z)
| sketch_setDriving (constraint_idx : Z) (driving : bool).

(** What the macro takes from the host without computing it itself. A call
    raises when [sketch_raises] says so for the sketch as it stands. *)
Class Host : Type := {
  (** does this call raise, and what? *)
  sketch_raises : Sketch -> SketchCall -> option exn;
  (** the arc [Part.ArcOfCircle(p1, p2, p3)]: centre, radius, start, end *)
  arc_through : Vector -> Vector -> Vector -> Vector * float * Vector * Vector;
  (** [sketch.getPoint(geo_idx, pos)] for the geometry stored at [geo_idx] *)
  point_of : Part.Geometry -> Z -> Vector;
  (** the builtin [round(x, ndigits)] *)
  round : float -> Z -> float
}.

(** ** Filling the sketch *)

Section Sketcher.

Context {host : Host}.

(** The state of the functions that work on one sketch: the sketch and the
    console. *)
Definition SketchM (A : Type) : Type := M (Sketch * list ConsoleEntry) A.

Definition print (entry : ConsoleEntry) : SketchM unit :=
  modify (fun s => (fst s, snd s ++ [entry])).

Definition host_call (c : SketchCall) : SketchM unit :=
  fun s => match sketch_raises (fst s) c with
           | Some e => (Raises e, s)
           | None => (Returns tt, s)
           end.

(** [sketch.Geometry[geo_idx]] *)
Definition Geometry_at (geo_idx : Z) : SketchM Part.Geometry :=
  s <- get;;
  g <- lift (index (Geometry (fst s)) geo_idx);;
  ret (fst g).

(** [sketch.addGeometry(geo, construction)]: appends and returns the index. *)
Definition addGeometry (geo : Part.Geometry) (construction : bool) : SketchM Z :=
  host_call (sketch_addGeometry geo construction);;
  s <- get;;
  modify (fun s => (mkSketch (Geometry (fst s) ++ [(geo, construction)])
                             (Constraints (fst s)), snd s));;
  ret (Z.of_nat (List.length (Geometry (fst s)))).

(** [sketch.addConstraint(c)]: appends a driving constraint and returns its
    index. *)
Definition addConstraint (c : Constraint) : SketchM Z :=
  host_call (sketch_addConstraint c);;
  s <- get;;
  modify (fun s => (mkSketch (Geometry (fst s))
                             (Constraints (fst s) ++ [(c, true)]), snd s));;
  ret (Z.of_nat (List.length (Constraints (fst s)))).

Fixpoint set_nth {A} (l : list A) (n : nat) (f : A -> A) : list A :=
  match l, n with
  | [], _ => []
  | a :: l', O => f a :: l'
  | a :: l', S n' => a :: set_nth l' n' f
  end.

(** [sketch.setDriving(constraint_idx, driving)] *)
Definition setDriving (constraint_idx : Z) (driving : bool) : SketchM unit :=
  host_call (sketch_setDriving constraint_idx driving);;
  s <- get;;
  _ <- lift (index (Constraints (fst s)) constraint_idx);;
  modify (fun s => (mkSketch (Geometry (fst s))
                             (set_nth (Constraints (fst s)) (Z.to_nat constraint_idx)
                                      (fun c => (fst c, driving))), snd s)).

(** [sketch.getPoint(geo_idx, pos)] *)
Definition getPoint (geo_idx pos : Z) : SketchM Vector :=
  host_call (sketch_getPoint geo_idx pos);;
  geo <- Geometry_at geo_idx;;
  ret (point_of geo pos).

(** *** Re-projection (lines 274-336) *)

Definition add_line_to_sketch (edge : Edge) (multVec : Vector -> Vector) : SketchM Z :=
  p_start <- lift (index (Vertexes edge) 0);;
  let v_start := multVec p_start in
  p_end <- lift (index (Vertexes edge) (-1));;
  let v_end := multVec p_end in
  host_call (Part_LineSegment v_start v_end);;
  geo_index <- addGeometry (Part.LineSegment v_start v_end) false;;
  ret geo_index.

(** [circle] is [edge.Curve], a [Circle]. *)
Definition add_circle_to_sketch (edge : Edge) (circle_Center : Vector) (circle_Radius : float)
    (multVec : Vector -> Vector) : SketchM Z :=
  let center_local := multVec circle_Center in
  let arc_length := Length edge in
  let full_circle_length := (2 * 3.141592653589793 * circle_Radius)%float in
  if (abs (arc_length - full_circle_length) <? 0.01)%float then
    host_call (Part_Circle center_local (Vector.mk 0 0 1) circle_Radius);;
    geo_index <- addGeometry (Part.Circle center_local (Vector.mk 0 0 1) circle_Radius) false;;
    ret geo_index
  else
    p_start <- lift (index (Vertexes edge) 0);;
    let v_start := multVec p_start in
    p_end <- lift (index (Vertexes edge) (-1));;
    let v_end := multVec p_end in
    let param_range := ParameterRange edge in
    let mid_param := ((fst param_range + snd param_range) / 2)%float in
    let mid_point_global := valueAt edge mid_param in
    let v_mid := multVec mid_point_global in
    host_call (Part_ArcOfCircle v_start v_mid v_end);;
    geo_index <- addGeometry
      (let '(c, r, s, e) := arc_through v_start v_mid v_end in Part.ArcOfCircle c r s e)
      false;;
    ret geo_index.

(** [bspline] is [edge.Curve], a [BSplineCurve]. *)
Definition add_bspline_to_sketch (poles : list Vector) (mults : list Z) (knots : list float)
    (periodic : bool) (degree : Z) (multVec : Vector -> Vector) : SketchM Z :=
  let poles_local := map multVec poles in
  host_call (buildFromPolesMultsKnots poles_local mults knots periodic degree);;
  geo_index <- addGeometry (Part.BSplineCurve poles_local mults knots periodic degree) false;;
  ret geo_index.

(** *** Vertex coincidence (lines 445-494) *)

(** The keys of [vertex_map]: tuples of three rounded floats, compared as
    Python compares them, with [==] on each component. *)
Definition Key : Type := float * float * float.

Definition key_eqb (a b : Key) : bool :=
  let '(ax, ay, az) := a in
  let '(bx, b_y, bz) := b in
  ((ax =? bx) && (ay =? b_y) && (az =? bz))%float.

Definition key_of (v : Vector) : Key :=
  (round (Vector.x v) 6, round (Vector.y v) 6, round (Vector.z v) 6).

(** A dict keeps its keys in insertion order, which is the order [.items()]
    yields them in. *)
Definition VertexMap : Type := list (Key * list (Z * Z)).

(** [vertex_map.setdefault(key, []).append(v)] *)
Fixpoint setdefault_append (vertex_map : VertexMap) (key : Key) (v : Z * Z) : VertexMap :=
  match vertex_map with
  | [] => [(key, [v])]
  | (k, vs) :: rest =>
      if key_eqb k key then (k, vs ++ [v]) :: rest
      else (k, vs) :: setdefault_append rest key v
  end.

(** [hasattr(geo, 'StartPoint') and hasattr(geo, 'EndPoint')] *)
Definition has_StartPoint_EndPoint (geo : Part.Geometry) : bool :=
  match geo with
  | Part.Circle _ _ _ => false
  | _ => true
  end.

Definition msg_no_points (geo_idx : Z) (e : exn) : string :=
  "Could not get points for geometry[" ++ str_int geo_idx ++ "]: " ++ str e ++ nl.

Definition msg_no_constrain (base other : Z * Z) (e : exn) : string :=
  "Failed to constrain geo[" ++ str_int (fst base) ++ "] vertex " ++ str_int (snd base)
  ++ " to geo[" ++ str_int (fst other) ++ "] vertex " ++ str_int (snd other) ++ ": "
  ++ str e ++ nl.

(** The body of the first loop (lines 453-477). *)
Definition map_vertices (vertex_map : VertexMap) (entry : Z * Edge) : SketchM VertexMap :=
  let '(geo_idx, original_edge) := entry in
  geo <- Geometry_at geo_idx;;
  match geo with
  | Part.Circle _ _ _ => ret vertex_map
  | _ =>
      if has_StartPoint_EndPoint geo then
        try_except
          (vertex1 <- getPoint geo_idx 1;;
           vertex2 <- getPoint geo_idx 2;;
           let v1_key := key_of vertex1 in
           let v2_key := key_of vertex2 in
           ret (setdefault_append (setdefault_append vertex_map v1_key (geo_idx, 1%Z))
                                  v2_key (geo_idx, 2%Z)))
          (fun e => print (PrintWarning (msg_no_points geo_idx e));; ret vertex_map)
      else ret vertex_map
  end.

(** The body of the second loop (lines 482-492). *)
Definition constrain_group (item : Key * list (Z * Z)) : SketchM unit :=
  let '(coord_key, vertex_list) := item in
  match vertex_list with
  | base :: other :: _ =>
      try_except
        (_ <- addConstraint (Coincident (fst base) (snd base) (fst other) (snd other));;
         ret tt)
        (fun e => print (PrintWarning (msg_no_constrain base other e)))
  | _ => ret tt
  end.

Definition add_vertex_coincident_constraints (geo_indices : list (Z * Edge)) : SketchM unit :=
  vertex_map <- fold_for geo_indices [] map_vertices;;
  for_each vertex_map constrain_group.

(** *** Center anchoring (lines 357-417) *)

Definition origin : Vector := Vector.mk 0 0 0.

(** Lines 372-391 and, word for word, lines 394-413: what is done with the
    centre of an arc or of a circle. *)
Definition anchor_center (construction_line_indices : list Z) (geo_idx : Z) (center : Vector)
    : SketchM (list Z) :=
  let distance_to_origin := Vector.Length center in
  if gt distance_to_origin tolerance then
    host_call (Part_LineSegment center origin);;
    line_idx <- addGeometry (Part.LineSegment center origin) true;;
    _ <- addConstraint (Coincident line_idx 1 geo_idx 3);;
    _ <- addConstraint (Coincident line_idx 2 (-1) 1);;
    ret (construction_line_indices ++ [line_idx])
  else
    _ <- addConstraint (Coincident geo_idx 3 (-1) 1);;
    ret construction_line_indices.

Definition center_line (construction_line_indices : list Z) (entry : Z * Edge)
    : SketchM (list Z) :=
  let '(geo_idx, original_edge) := entry in
  geo <- Geometry_at geo_idx;;
  match geo with
  | Part.ArcOfCircle center _ _ _ => anchor_center construction_line_indices geo_idx center
  | Part.Circle center _ _ => anchor_center construction_line_indices geo_idx center
  | _ => ret construction_line_indices
  end.

Definition block_line (line_idx : Z) : SketchM unit :=
  _ <- addConstraint (Block line_idx);; ret tt.

Definition add_center_construction_lines (geo_indices : list (Z * Edge)) : SketchM unit :=
  construction_line_indices <- fold_for geo_indices [] center_line;;
  for_each construction_line_indices block_line.

(** *** Radius locking (lines 422-442) *)

Definition radius_constraint (entry : Z * Edge) : SketchM unit :=
  let '(geo_idx, original_edge) := entry in
  geo <- Geometry_at geo_idx;;
  match geo with
  | Part.ArcOfCircle _ radius _ _ => _ <- addConstraint (Radius geo_idx radius);; ret tt
  | Part.Circle _ _ radius => _ <- addConstraint (Radius geo_idx radius);; ret tt
  | _ => ret tt
  end.

Definition add_radius_constraints (geo_indices : list (Z * Edge)) : SketchM unit :=
  for_each geo_indices radius_constraint.

(** *** Reference distancing (lines 497-520) *)

Definition distance_constraint (entry : Z * Edge) : SketchM unit :=
  let '(geo_idx, original_edge) := entry in
  geo <- Geometry_at geo_idx;;
  match geo with
  | Part.LineSegment _ _ =>
      p1 <- getPoint geo_idx 1;;
      p2 <- getPoint geo_idx 2;;
      let distance := Vector.distanceToPoint p1 p2 in
      constraint_idx <- addConstraint (Distance geo_idx distance);;
      setDriving constraint_idx false
  | _ => ret tt
  end.

Definition add_line_distance_constraints (geo_indices : list (Z * Edge)) : SketchM unit :=
  for_each geo_indices distance_constraint.

(** *** The four passes in their order (lines 339-354) *)

Definition build_constraint_data (geo_indices : list (Z * Edge)) : SketchM unit :=
  add_vertex_coincident_constraints geo_indices;;
  add_center_construction_lines geo_indices;;
  add_radius_constraints geo_indices;;
  add_line_distance_constraints geo_indices.

(** *** add_geometry_to_sketch (lines 246-271) *)

Definition msg_unsupported (curve_type : string) : string :=
  "Unsupported curve type: " ++ curve_type ++ ", converting to line." ++ nl.

Definition msg_failed_edge (e : exn) : string := "Failed to add edge: " ++ str e ++ nl.

(** The body of the loop over the edges. *)
Definition add_edge (multVec : Vector -> Vector) (geo_indices : list (Z * Edge)) (edge : Edge)
    : SketchM (list (Z * Edge)) :=
  try_except
    (geo_index <-
       match Curve_ edge with
       | Line => add_line_to_sketch edge multVec
       | Circle center _ radius => add_circle_to_sketch edge center radius multVec
       | BSplineCurve poles mults knots periodic degree =>
           add_bspline_to_sketch poles mults knots periodic degree multVec
       | OtherCurve curve_type =>
           print (PrintWarning (msg_unsupported curve_type));;
           add_line_to_sketch edge multVec
       end;;
     ret (geo_indices ++ [(geo_index, edge)]))
    (fun e => print (PrintWarning (msg_failed_edge e));; ret geo_indices).

Definition add_geometry_to_sketch (edges : list Edge) (multVec : Vector -> Vector)
    : SketchM unit :=
  geo_indices <- fold_for edges [] (add_edge multVec);;
  build_constraint_data geo_indices.

End Sketcher.

(** ** The document and the desktop *)

Definition Placement_default : Placement := mkPlacement (Vector.mk 0 0 0) Rotation_identity.

(** A [Sketcher::SketchObject] with the properties the macro writes. *)
Record SketchObject : Type := mkSketchObject {
  Placement_ : Placement;
  AttachmentSupport : list (string * string);
  MapMode : string;
  AttachmentOffset : Placement;
  Content : Sketch
}.

Inductive DocumentObject : Type :=
| Body (Group : list string)           (* PartDesign::Body *)
| SketchObj (o : SketchObject)         (* Sketcher::SketchObject *)
| Feature (TypeId : string).           (* anything else *)

(** One entry of [FreeCADGui.Selection.getSelectionEx()]. *)
Record SelectionObject : Type := mkSelectionObject {
  Object_Name : string;
  Shape_Edges : list Edge;
  SubElementNames : list string
}.

(** What the macro can see and change: the objects of the active document by
    name, in creation order; the state a pending transaction rolls back to;
    the console; the error dialogs shown so far; the selection. *)
Record World : Type := mkWorld {
  ActiveDocument : bool;
  Objects : list (string * DocumentObject);
  Transaction : option (list (string * DocumentObject));
  Console : list ConsoleEntry;
  Dialogs : list string;
  Selection : list SelectionObject
}.

(** The calls into the document and the desktop that can raise. *)
Inductive DesktopCall : Type :=
| doc_addObject (type name : string)
| dropObject (body sketch : string)
| doc_recompute
| getGlobalPlacement (sketch : string)
| QInputDialog_getItem (options : list string)
| Selection_clearSelection
| Selection_addSelection (sketch : string)
| viewAxonometric
| fitAll.

Class Desktop : Type := {
  desktop_raises : World -> DesktopCall -> option exn;
  (** the name [doc.addObject(type, name)] gives the new object *)
  unique_name : list string -> string -> string;
  (** the user's answer [(item, ok)] to the destination dialog *)
  getItem : list string -> string * bool;
  (** [body.Origin.OriginFeatures[0]], by name *)
  origin_feature : string -> string;
  (** [sketch.getGlobalPlacement().inverse().multVec], for the sketch of that name *)
  global_inverse : list (string * DocumentObject) -> string -> Vector -> Vector
}.

Section Macro.

Context {host : Host} {desktop : Desktop}.

Definition WorldM (A : Type) : Type := M World A.

Definition desktop_call (c : DesktopCall) : WorldM unit :=
  fun w => match desktop_raises w c with
           | Some e => (Raises e, w)
           | None => (Returns tt, w)
           end.

Definition set_Objects (f : list (string * DocumentObject) -> list (string * DocumentObject))
    (w : World) : World :=
  mkWorld (ActiveDocument w) (f (Objects w)) (Transaction w) (Console w) (Dialogs w)
          (Selection w).

Definition Console_print (entry : ConsoleEntry) : WorldM unit :=
  modify (fun w => mkWorld (ActiveDocument w) (Objects w) (Transaction w)
                           (Console w ++ [entry]) (Dialogs w) (Selection w)).

(** [QMessageBox.critical(None, title, text)] *)
Definition QMessageBox_critical (text : string) : WorldM unit :=
  modify (fun w => mkWorld (ActiveDocument w) (Objects w) (Transaction w) (Console w)
                           (Dialogs w ++ [text]) (Selection w)).

(** The document's transactions: aborting puts back the objects the document
    had when the transaction was opened, committing keeps the present ones. *)
Definition openTransaction : WorldM unit :=
  modify (fun w => mkWorld (ActiveDocument w) (Objects w) (Some (Objects w)) (Console w)
                           (Dialogs w) (Selection w)).

Definition abortTransaction : WorldM unit :=
  modify (fun w => match Transaction w with
                   | Some before => mkWorld (ActiveDocument w) before None (Console w)
                                            (Dialogs w) (Selection w)
                   | None => w
                   end).

Definition commitTransaction : WorldM unit :=
  modify (fun w => mkWorld (ActiveDocument w) (Objects w) None (Console w) (Dialogs w)
                           (Selection w)).

(** [doc.addObject(type, name)]: the new object comes last and gets a name of
    its own; the result is that name, which stands for the object. *)
Definition addObject (type name : string) (o : DocumentObject) : WorldM string :=
  desktop_call (doc_addObject type name);;
  w <- get;;
  let fresh := unique_name (map fst (Objects w)) name in
  modify (set_Objects (fun objs => objs ++ [(fresh, o)]));;
  ret fresh.

(** [doc.getObject(name)] *)
Definition getObject (name : string) : WorldM (option DocumentObject) :=
  w <- get;;
  ret (option_map snd (find (fun o => String.eqb (fst o) name) (Objects w))).

(** Writing to the object called [name]. *)
Fixpoint update_object (objs : list (string * DocumentObject)) (name : string)
    (f : DocumentObject -> DocumentObject) : list (string * DocumentObject) :=
  match objs with
  | [] => []
  | (n, o) :: rest =>
      if String.eqb n name then (n, f o) :: rest else (n, o) :: update_object rest name f
  end.

Definition set_sketch (name : string) (f : SketchObject -> SketchObject) : WorldM unit :=
  modify (set_Objects (fun objs =>
    update_object objs name (fun o => match o with SketchObj s => SketchObj (f s) | _ => o end))).

(** Running a function that fills a sketch on the sketch called [name] and on
    the console. *)
Definition on_sketch {A} (name : string) (m : SketchM A) : WorldM A :=
  fun w =>
    match find (fun o => String.eqb (fst o) name) (Objects w) with
    | Some (_, SketchObj s) =>
        let '(r, (content, console)) := m (Content s, Console w) in
        (r, mkWorld (ActiveDocument w)
                    (update_object (Objects w) name
                       (fun _ => SketchObj (mkSketchObject (Placement_ s) (AttachmentSupport s)
                                              (MapMode s) (AttachmentOffset s) content)))
                    (Transaction w) console (Dialogs w) (Selection w))
    | _ => (Raises (Exception "This object is not a sketch"), w)
    end.

Definition empty_sketch : SketchObject :=
  mkSketchObject Placement_default [] "Deactivated" Placement_default (mkSketch [] []).

(** *** show_destination_dialog (lines 189-210) *)

Inductive Choice : Type :=
| standalone
| new_body
| existing_body (body_name : string).

Definition is_Body (o : string * DocumentObject) : bool :=
  match snd o with Body _ => true | _ => false end.

Definition show_destination_dialog : WorldM (option Choice) :=
  w <- get;;
  let body_names := map fst (filter is_Body (Objects w)) in
  let options := ["<Standalone (Part Workbench)>"; "<Create New Body (PartDesign)>"]
                 ++ body_names in
  desktop_call (QInputDialog_getItem options);;
  let '(item, ok) := getItem options in
  if negb ok || String.eqb item "" then ret None
  else if String.eqb item "<Standalone (Part Workbench)>" then ret (Some standalone)
  else if String.eqb item "<Create New Body (PartDesign)>" then ret (Some new_body)
  else ret (Some (existing_body item)).

(** *** create_standalone_sketch (lines 213-221) *)

Definition create_standalone_sketch (placement : Placement) (edges : list Edge) : WorldM string :=
  sketch <- addObject "Sketcher::SketchObject" "Sketch" (SketchObj empty_sketch);;
  set_sketch sketch (fun s => mkSketchObject placement (AttachmentSupport s) (MapMode s)
                                             (AttachmentOffset s) (Content s));;
  desktop_call (getGlobalPlacement sketch);;
  w <- get;;
  let inverse_placement := global_inverse (Objects w) sketch in
  on_sketch sketch (add_geometry_to_sketch edges inverse_placement);;
  ret sketch.

(** *** create_body_sketch (lines 224-243) *)

Definition recompute : WorldM unit := desktop_call doc_recompute.

Definition create_body_sketch (body : string) (placement : Placement) (edges : list Edge)
    : WorldM string :=
  sketch <- addObject "Sketcher::SketchObject" "Sketch" (SketchObj empty_sketch);;
  desktop_call (dropObject body sketch);;
  modify (set_Objects (fun objs =>
    update_object objs body
      (fun o => match o with Body group => Body (group ++ [sketch]) | _ => o end)));;
  set_sketch sketch (fun s => mkSketchObject (Placement_ s) [(origin_feature body, "")]
                                             (MapMode s) (AttachmentOffset s) (Content s));;
  set_sketch sketch (fun s => mkSketchObject (Placement_ s) (AttachmentSupport s)
                                             "ObjectXY" (AttachmentOffset s) (Content s));;
  set_sketch sketch (fun s => mkSketchObject (Placement_ s) (AttachmentSupport s) (MapMode s)
                                             (mkPlacement (Base placement) (Rotation_ placement))
                                             (Content s));;
  set_sketch sketch (fun s => mkSketchObject Placement_default (AttachmentSupport s)
                                             (MapMode s) (AttachmentOffset s) (Content s));;
  recompute;;
  desktop_call (getGlobalPlacement sketch);;
  w <- get;;
  let inverse_placement := global_inverse (Objects w) sketch in
  on_sketch sketch (add_geometry_to_sketch edges inverse_placement);;
  ret sketch.

(** *** edge_loop_to_sketch (lines 7-173) *)

(** [int(s)] on the strings [str] gives for an integer: decimal digits, with
    or without a minus sign, on which it is the inverse of [str]. The builtin
    reads more (a plus sign, blanks around the number, underscores between
    digits), which no sub-element name has; on such a string this function
    raises [ValueError], as it does on what is no number at all. *)
Definition int (s : string) : result Z :=
  match NilZero.int_of_string s with
  | Some n => Returns (Z.of_int n)
  | None => Raises (Exception ("invalid literal for int() with base 10: '" ++ s ++ "'"))
  end.

(** Lines 30-33: the inner loop over the sub-element names. *)
Fixpoint collect_sub_elements (obj : SelectionObject) (sub_names : list string)
    (selected_edges : list Edge) : result (list Edge) :=
  match sub_names with
  | [] => Returns selected_edges
  | sub_name :: rest =>
      if String.prefix "Edge" sub_name then
        match int (String.substring 4 (String.length sub_name - 4) sub_name) with
        | Raises e => Raises e
        | Returns n =>
            let edge_idx := (n - 1)%Z in
            match index (Shape_Edges obj) edge_idx with
            | Raises e => Raises e
            | Returns edge => collect_sub_elements obj rest (selected_edges ++ [edge])
            end
        end
      else collect_sub_elements obj rest selected_edges
  end.

(** Lines 26-33: [None] stands for the [return] taken when an entry belongs
    to another object. *)
Fixpoint collect_edges (obj : SelectionObject) (selection : list SelectionObject)
    (selected_edges : list Edge) : result (option (list Edge)) :=
  match selection with
  | [] => Returns (Some selected_edges)
  | sel_ex :: rest =>
      if negb (String.eqb (Object_Name sel_ex) (Object_Name obj)) then Returns None
      else match collect_sub_elements obj (SubElementNames sel_ex) selected_edges with
           | Raises e => Raises e
           | Returns selected_edges' => collect_edges obj rest selected_edges'
           end
  end.

(** [float(n)] for a length. *)
Definition float_of_nat (n : nat) : float := of_uint63 (Uint63.of_Z (Z.of_nat n)).

(** Line 136: [sum(all_points, FreeCAD.Vector()).multiply(1.0 / len(all_points))] *)
Definition centroid (all_points : list Vector) : Vector :=
  Vector.multiply (fold_left Vector.add all_points (Vector.mk 0 0 0))
                  (1 / float_of_nat (List.length all_points)).

(** Lines 42-136: the plane and the centre of the sketch. With one edge the
    console message is printed by the branch that found the plane; no edge at
    all is excluded before the transaction is opened, and would leave
    [all_points] unbound at line 136. *)
Definition plane_and_center (selected_edges : list Edge) : WorldM (Vector * Vector) :=
  match selected_edges with
  | [] => raise (Exception "name 'all_points' is not defined")
  | [edge] =>
      plane <- lift (single_edge_plane edge);;
      Console_print (PrintMessage
        (match Curve_ edge with
         | Circle _ _ _ => "Using plane from circle geometry." ++ nl
         | _ => "Using plane from planar B-spline geometry." ++ nl
         end));;
      let '(plane_point, plane_normal) := plane in
      ret (plane_normal, plane_point)
  | _ =>
      plane <- lift (multi_edge_plane selected_edges);;
      let '(plane_point, plane_normal) := plane in
      ret (plane_normal, centroid (all_points_of selected_edges))
  end.

Definition msg_body_not_found (body_name : string) : string :=
  "Body " ++ body_name ++ " not found.".

Definition msg_created (n : nat) : string :=
  "Sketch created successfully with " ++ str_int (Z.of_nat n) ++ " edges." ++ nl.

(** Lines 147-157 *)
Definition create_sketch (choice : Choice) (placement : Placement) (selected_edges : list Edge)
    : WorldM string :=
  match choice with
  | standalone => create_standalone_sketch placement selected_edges
  | new_body =>
      body <- addObject "PartDesign::Body" "Body" (Body []);;
      create_body_sketch body placement selected_edges
  | existing_body body_name =>
      body <- getObject body_name;;
      match body with
      | None => raise (Exception (msg_body_not_found body_name))
      | Some _ => create_body_sketch body_name placement selected_edges
      end
  end.

(** Lines 42-168: the body of the [try]. *)
Definition try_body (selected_edges : list Edge) : WorldM unit :=
  nc <- plane_and_center selected_edges;;
  let '(plane_normal, center) := nc in
  let placement := create_sketch_placement plane_normal center in
  choice <- show_destination_dialog;;
  match choice with
  | None =>
      abortTransaction;;
      Console_print (PrintMessage ("Sketch creation cancelled." ++ nl))
  | Some choice =>
      sketch <- create_sketch choice placement selected_edges;;
      recompute;;
      desktop_call Selection_clearSelection;;
      modify (fun w => mkWorld (ActiveDocument w) (Objects w) (Transaction w) (Console w)
                               (Dialogs w) []);;
      desktop_call (Selection_addSelection sketch);;
      modify (fun w => mkWorld (ActiveDocument w) (Objects w) (Transaction w) (Console w)
                               (Dialogs w) (Selection w ++ [mkSelectionObject sketch [] []]));;
      desktop_call viewAxonometric;;
      desktop_call fitAll;;
      commitTransaction;;
      Console_print (PrintMessage (msg_created (List.length selected_edges)))
  end.

(** Lines 170-173: the [except] clause. *)
Definition except_clause (e : exn) : WorldM unit :=
  abortTransaction;;
  Console_print (PrintError ("Sketch creation failed: " ++ str e ++ nl));;
  QMessageBox_critical ("Sketch creation failed:" ++ nl ++ str e).

Definition edge_loop_to_sketch : WorldM unit :=
  w <- get;;
  if negb (ActiveDocument w) then
    Console_print (PrintError ("Error: No active document." ++ nl))
  else
    let selection := Selection w in
    match selection with
    | [] => Console_print (PrintError ("Error: No edges selected." ++ nl))
    | sel0 :: _ =>
        collected <- lift (collect_edges sel0 selection []);;
        match collected with
        | None => Console_print (PrintError ("Error: All edges must be from the same object." ++ nl))
        | Some [] => Console_print (PrintError ("Error: No valid edges selected." ++ nl))
        | Some selected_edges =>
            openTransaction;;
            try_except (try_body selected_edges) except_clause
        end
    end.

End Macro.

(** ** A host to run the macro on *)

(** Small hosts used to evaluate the macro on concrete selections. Nothing
    raises in [quiet_host] and [quiet_desktop]; points are read off the stored
    geometry and [round] rounds the sixth decimal to even. *)
Module Example.

Local Open Scope float_scope.

Definition V (a b c : float) : Vector := Vector.mk a b c.

(** Rounds [x * 1e6] to the nearest integer (ties to even) and scales back:
    [round(x, 6)] for the coordinates of the examples, which are integers.
    The builtin rounds the decimal expansion of [x] itself and can differ in
    the last place where [x * 1e6] is inexact. *)
Definition round6 (x : float) : float :=
  ((x * 1000000 + 6755399441055744) - 6755399441055744) / 1000000.

(** The circle through three points of the plane [z = 0]. *)
Definition circumcircle (a b c : Vector) : Vector * float * Vector * Vector :=
  let ax := Vector.x a in let ay := Vector.y a in
  let bx := Vector.x b in let b_y := Vector.y b in
  let cx := Vector.x c in let cy := Vector.y c in
  let d := 2 * (ax * (b_y - cy) + bx * (cy - ay) + cx * (ay - b_y)) in
  let a2 := ax * ax + ay * ay in
  let b2 := bx * bx + b_y * b_y in
  let c2 := cx * cx + cy * cy in
  let ux := (a2 * (b_y - cy) + b2 * (cy - ay) + c2 * (ay - b_y)) / d in
  let uy := (a2 * (cx - bx) + b2 * (ax - cx) + c2 * (bx - ax)) / d in
  let center := V ux uy 0 in
  (center, Vector.distanceToPoint center a, a, c).

Definition stored_point (geo : Part.Geometry) (pos : Z) : Vector :=
  match geo, pos with
  | Part.LineSegment s _, 1%Z => s
  | Part.LineSegment _ e, _ => e
  | Part.Circle c _ _, _ => c
  | Part.ArcOfCircle _ _ s _, 1%Z => s
  | Part.ArcOfCircle _ _ _ e, 2%Z => e
  | Part.ArcOfCircle c _ _ _, _ => c
  | Part.BSplineCurve poles _ _ _ _, 1%Z => hd (V 0 0 0) poles
  | Part.BSplineCurve poles _ _ _ _, _ => last poles (V 0 0 0)
  end.

Definition quiet_host : Host := {|
  sketch_raises := fun _ _ => None;
  arc_through := circumcircle;
  point_of := stored_point;
  round := fun x ndigits => if (ndigits =? 6)%Z then round6 x else x
|}.

(** A host that refuses the constraints [refused] picks and is quiet
    otherwise. *)
Definition refusing_host (refused : Constraint -> bool) : Host := {|
  sketch_raises := fun _ c =>
    match c with
    | sketch_addConstraint c => if refused c then Some (Exception "Invalid constraint")
                                else None
    | _ => None
    end;
  arc_through := circumcircle;
  point_of := stored_point;
  round := fun x ndigits => if (ndigits =? 6)%Z then round6 x else x
|}.

Definition radius_refusing_host : Host :=
  refusing_host (fun c => match c with Radius _ _ => true | _ => false end).

Definition block_refusing_host : Host :=
  refusing_host (fun c => match c with Block _ => true | _ => false end).

Definition distance_refusing_host : Host :=
  refusing_host (fun c => match c with Distance _ _ => true | _ => false end).

Definition coincident_refusing_host : Host :=
  refusing_host (fun c => match c with Coincident _ _ _ _ => true | _ => false end).

(** Sketches of this desktop are translated, and turned at most by the half
    turn about X; the user picks the entry [answer] of the dialog. *)
Definition unrotate (r : Rotation) (v : Vector) : Vector :=
  match r with
  | Rotation_axis_angle _ _ => V (Vector.x v) (- Vector.y v) (- Vector.z v)
  | _ => v
  end.

Definition translate_back (objs : list (string * DocumentObject)) (name : string) (v : Vector)
    : Vector :=
  match find (fun o => String.eqb (fst o) name) objs with
  | Some (_, SketchObj s) =>
      let p := match AttachmentSupport s with [] => Placement_ s | _ => AttachmentOffset s end in
      unrotate (Rotation_ p) (Vector.sub v (Base p))
  | _ => v
  end.

Definition numbered (names : list string) (name : string) : string :=
  if existsb (String.eqb name) names
  then (name ++ str_int (Z.of_nat (List.length names)))%string
  else name.

Definition quiet_desktop (answer : string * bool) : Desktop := {|
  desktop_raises := fun _ _ => None;
  unique_name := numbered;
  getItem := fun _ => answer;
  origin_feature := fun body => (body ++ ".Origin.XY_Plane")%string;
  global_inverse := translate_back
|}.

Definition pick_standalone : string * bool := ("<Standalone (Part Workbench)>"%string, true).
Definition pick_nothing : string * bool := (""%string, false).

(** Scenario A of the specification: one full circle of radius 5 about
    (0, 0, 10) with axis +Z. *)
Definition circle_edge : Edge :=
  mkEdge (Circle (V 0 0 10) (V 0 0 1) 5) [V 5 0 10] 31.41592653589793
         (0, 6.283185307179586) (fun _ => V 5 0 10).

(** A straight edge between two points. *)
Definition line_edge (a b : Vector) : Edge :=
  mkEdge Line [a; b] (Vector.distanceToPoint a b) (0, Vector.distanceToPoint a b) (fun _ => a).

Definition world_with (edges : list Edge) (names : list string) : World :=
  mkWorld true [] None [] [] [mkSelectionObject "Solid" edges names].

End Example.

(** * The vocabulary of the properties *)

Unset Implicit Arguments.

Import Example.

Section Vocabulary.

Context {host : Host}.

(** ** The plane fitter *)



(** *** De-duplication *)





(** Scenario B of the specification: two perpendicular segments that share
    an end, in the plane [z = 0]. *)
Definition two_edges : list Edge :=
  [line_edge (V 0 0 0) (V 1 0 0); line_edge (V 0 0 0) (V 0 1 0)].

(** *** Distances to the plane *)








(** ** The frame builder *)

(** A normal along +Z, and one opposite to it. *)
Definition parallel_to_z (n : Vector) : bool :=
  ((Vector.x n =? 0) && (Vector.y n =? 0) && (0 <? Vector.z n))%float.

Definition anti_parallel_to_z (n : Vector) : bool :=
  ((Vector.x n =? 0) && (Vector.y n =? 0) && (Vector.z n <? 0))%float.

(** The rotation as the specification words it: the half turn about X for a
    normal opposite to +Z, no rotation for a normal along +Z, and the rotation
    from +Z to the normal otherwise. *)
Definition stated_rotation (normal : Vector) : Rotation :=
  if anti_parallel_to_z normal then Rotation_axis_angle (Vector.mk 1 0 0) 180
  else if parallel_to_z normal then Rotation_identity
  else Rotation_from_to z_axis normal.

(** A normal of length 1 that leans 1/32 towards X: it is neither along +Z
    nor opposite to it, but its Z component exceeds 0.999 and the macro does
    not rotate at all. *)
Definition leaning_normal : Vector := Vector.mk 0.03125 0 0.9995115994824673.

(** The normal the rotation is computed from (line 178). *)
Definition unit_normal (normal : Vector) : Vector :=
  if gt (Vector.Length normal) 1e-6 then Vector.normalize normal else Vector.mk 0 0 1.

(** ** Hosts and indices *)

(** The host raises nothing. *)
Definition quiet : Prop := forall sk c, sketch_raises sk c = None.

(** Every recorded index is that of a geometry the sketch holds. *)
Definition in_range (geometry : list (Part.Geometry * bool)) (geo_indices : list (Z * Edge))
    : Prop :=
  Forall (fun entry => (0 <= fst entry < Z.of_nat (List.length geometry))%Z) geo_indices.

(** ** Radius locking *)

Definition radius_of (geo : Part.Geometry) : option float :=
  match geo with
  | Part.ArcOfCircle _ radius _ _ => Some radius
  | Part.Circle _ _ radius => Some radius
  | _ => None
  end.

(** The constraints the pass adds for one entry, and for all of them. *)
Definition radius_of_entry (geometry : list (Part.Geometry * bool)) (entry : Z * Edge)
    : list (Constraint * bool) :=
  match index geometry (fst entry) with
  | Returns g => match radius_of (fst g) with
                 | Some radius => [(Radius (fst entry) radius, true)]
                 | None => []
                 end
  | Raises _ => []
  end.

Definition radius_plan (geometry : list (Part.Geometry * bool)) (geo_indices : list (Z * Edge))
    : list (Constraint * bool) :=
  flat_map (radius_of_entry geometry) geo_indices.

(** ** Reference distancing *)

Definition distance_of_entry (geometry : list (Part.Geometry * bool)) (entry : Z * Edge)
    : list (Constraint * bool) :=
  match index geometry (fst entry) with
  | Returns g =>
      match fst g with
      | Part.LineSegment _ _ =>
          [(Distance (fst entry)
                     (Vector.distanceToPoint (point_of (fst g) 1) (point_of (fst g) 2)), false)]
      | _ => []
      end
  | Raises _ => []
  end.

Definition distance_plan (geometry : list (Part.Geometry * bool))
    (geo_indices : list (Z * Edge)) : list (Constraint * bool) :=
  flat_map (distance_of_entry geometry) geo_indices.

(** ** Center anchoring *)

Definition center_of (geo : Part.Geometry) : option Vector :=
  match geo with
  | Part.ArcOfCircle center _ _ _ => Some center
  | Part.Circle center _ _ => Some center
  | _ => None
  end.

(** The centre of the entry, when the entry is an arc or a circle. *)
Definition center_of_entry (geometry : list (Part.Geometry * bool)) (entry : Z * Edge)
    : option Vector :=
  match index geometry (fst entry) with
  | Returns g => center_of (fst g)
  | Raises _ => None
  end.

(** The test of lines 376 and 398. *)
Definition far_from_origin (center : Vector) : bool := gt (Vector.Length center) tolerance.

(** The construction lines: one for each arc or circle whose centre is far
    from the origin, from that centre to the origin. *)
Definition line_of_entry (geometry : list (Part.Geometry * bool)) (entry : Z * Edge)
    : list (Part.Geometry * bool) :=
  match center_of_entry geometry entry with
  | Some center => if far_from_origin center then [(Part.LineSegment center origin, true)]
                   else []
  | None => []
  end.

Definition construction_lines (geometry : list (Part.Geometry * bool))
    (geo_indices : list (Z * Edge)) : list (Part.Geometry * bool) :=
  flat_map (line_of_entry geometry) geo_indices.

(** The coincidences: two for a centre far from the origin, which tie the
    ends of its line, the next geometry the sketch gets, to the centre (point
    3 of the entry) and to the origin (point 1 of geometry -1); one for a
    centre at the origin, which ties it to the origin. *)
Fixpoint anchor_constraints (geometry : list (Part.Geometry * bool)) (line_idx : Z)
    (geo_indices : list (Z * Edge)) : list (Constraint * bool) :=
  match geo_indices with
  | [] => []
  | entry :: rest =>
      match center_of_entry geometry entry with
      | Some center =>
          if far_from_origin center
          then (Coincident line_idx 1 (fst entry) 3, true)
               :: (Coincident line_idx 2 (-1) 1, true)
               :: anchor_constraints geometry (line_idx + 1) rest
          else (Coincident (fst entry) 3 (-1) 1, true)
               :: anchor_constraints geometry line_idx rest
      | None => anchor_constraints geometry line_idx rest
      end
  end.

(** The indices of [count] geometries added to a sketch that held [first]. *)
Definition indices_from (first count : nat) : list Z := map Z.of_nat (seq first count).

Definition block_plan (line_indices : list Z) : list (Constraint * bool) :=
  map (fun line_idx => (Block line_idx, true)) line_indices.

(** ** Vertex coincidence *)

(** The exception the two [getPoint] calls of lines 465-466 raise, if any. *)
Definition getPoint_error (sk : Sketch) (geo_idx : Z) : option exn :=
  match sketch_raises sk (sketch_getPoint geo_idx 1) with
  | Some e => Some e
  | None => sketch_raises sk (sketch_getPoint geo_idx 2)
  end.

(** The end points an entry brings to the map, each with its key: those of a
    geometry that has two ends and whose points the host hands out. *)
Definition endpoints_of_entry (sk : Sketch) (entry : Z * Edge) : list (Key * (Z * Z)) :=
  match index (Geometry sk) (fst entry) with
  | Returns g =>
      if has_StartPoint_EndPoint (fst g) then
        match getPoint_error sk (fst entry) with
        | None => [(key_of (point_of (fst g) 1), (fst entry, 1%Z));
                   (key_of (point_of (fst g) 2), (fst entry, 2%Z))]
        | Some _ => []
        end
      else []
  | Raises _ => []
  end.

Definition warning_of_entry (sk : Sketch) (entry : Z * Edge) : list ConsoleEntry :=
  match index (Geometry sk) (fst entry) with
  | Returns g =>
      if has_StartPoint_EndPoint (fst g) then
        match getPoint_error sk (fst entry) with
        | None => []
        | Some e => [PrintWarning (msg_no_points (fst entry) e)]
        end
      else []
  | Raises _ => []
  end.

Definition add_endpoint (vertex_map : VertexMap) (endpoint : Key * (Z * Z)) : VertexMap :=
  setdefault_append vertex_map (fst endpoint) (snd endpoint).

(** The map the first loop builds from a list of end points. *)
Definition grouped (endpoints : list (Key * (Z * Z))) : VertexMap :=
  fold_left add_endpoint endpoints [].

(** The one constraint of a group of two members or more: between its first
    two members. *)
Definition pair_of_group (item : Key * list (Z * Z)) : list (Constraint * bool) :=
  match snd item with
  | base :: other :: _ =>
      [(Coincident (fst base) (snd base) (fst other) (snd other), true)]
  | _ => []
  end.

Definition pair_plan (vertex_map : VertexMap) : list (Constraint * bool) :=
  flat_map pair_of_group vertex_map.

(** [l] is [l'] with some elements left out. *)
Inductive subsequence {A : Type} : list A -> list A -> Prop :=
| subsequence_nil : subsequence [] []
| subsequence_skip (l l' : list A) (a : A) : subsequence l l' -> subsequence l (a :: l')
| subsequence_keep (l l' : list A) (a : A) : subsequence l l' -> subsequence (a :: l) (a :: l').

(** *** Grouping by key *)

(** No key of the map equals [key]. *)
Definition absent (vertex_map : VertexMap) (key : Key) : Prop :=
  Forall (fun item => key_eqb (fst item) key = false) vertex_map.

(** The members of the group of [key] among the end points, in their order. *)
Definition matching (key : Key) (endpoints : list (Key * (Z * Z))) : list (Z * Z) :=
  map snd (filter (fun endpoint => key_eqb key (fst endpoint)) endpoints).

(** No key of the map equals a key that comes after it. *)
Definition distinct_keys (vertex_map : VertexMap) : Prop :=
  ForallOrdPairs (fun a b => key_eqb (fst a) (fst b) = false) vertex_map.

Definition grouping (endpoints : list (Key * (Z * Z))) (vertex_map : VertexMap) : Prop :=
  distinct_keys vertex_map /\
  (forall k vs, In (k, vs) vertex_map -> key_eqb k k = true -> vs = matching k endpoints) /\
  (forall e, In e endpoints -> key_eqb (fst e) (fst e) = true ->
             exists item, In item vertex_map /\ key_eqb (fst item) (fst e) = true).

(** Three segments that leave the same point: the one group of three members
    gets one constraint, between the first two, and the far ends get none. *)
Definition star : Sketch :=
  mkSketch [(Part.LineSegment (V 0 0 0) (V 1 0 0), false);
            (Part.LineSegment (V 0 0 0) (V 0 1 0), false);
            (Part.LineSegment (V 0 0 0) (V (-1) 0 0), false)] [].

Definition star_indices : list (Z * Edge) :=
  [(0%Z, line_edge (V 0 0 0) (V 1 0 0)); (1%Z, line_edge (V 0 0 0) (V 0 1 0));
   (2%Z, line_edge (V 0 0 0) (V (-1) 0 0))].

(** ** Re-projection *)

(** A function that either raises and leaves the sketch as it was, or adds
    one geometry, not a construction one, and returns its index. *)
Definition adds_one (m : SketchM Z) : Prop :=
  forall sk con r sk' con',
    m (sk, con) = (r, (sk', con')) ->
    (exists e, r = Raises e /\ sk' = sk) \/
    (exists geo, r = Returns (Z.of_nat (List.length (Geometry sk))) /\
                 sk' = mkSketch (Geometry sk ++ [(geo, false)]) (Constraints sk)).

(** A sketch with a circle about (3, 4, 0), a circle about the origin and a
    segment. *)
Definition two_circles : Sketch :=
  mkSketch [(Part.Circle (V 3 4 0) (V 0 0 1) 2, false);
            (Part.Circle (V 0 0 0) (V 0 0 1) 1, false);
            (Part.LineSegment (V 0 0 0) (V 1 0 0), false)] [].

Definition two_circles_indices : list (Z * Edge) :=
  [(0%Z, circle_edge); (1%Z, circle_edge); (2%Z, line_edge (V 0 0 0) (V 1 0 0))].

(** ** Which constraints refer to which geometry *)

(** The constraint names the geometry [geo_idx]. *)
Definition mentions (geo_idx : Z) (c : Constraint) : bool :=
  match c with
  | Coincident first _ second _ => (first =? geo_idx)%Z || (second =? geo_idx)%Z
  | Radius first _ => (first =? geo_idx)%Z
  | Block first => (first =? geo_idx)%Z
  | Distance first _ => (first =? geo_idx)%Z
  end.

Definition is_Radius_of (geo_idx : Z) (c : Constraint) : bool :=
  match c with
  | Radius first _ => (first =? geo_idx)%Z
  | _ => false
  end.

Definition is_Distance_of (geo_idx : Z) (c : Constraint) : bool :=
  match c with
  | Distance first _ => (first =? geo_idx)%Z
  | _ => false
  end.

Definition is_Coincident (c : Constraint) : bool :=
  match c with
  | Coincident _ _ _ _ => true
  | _ => false
  end.

(** The arcs and circles whose centre is far from the origin, each with its
    centre. *)
Definition far_entries (geometry : list (Part.Geometry * bool)) (geo_indices : list (Z * Edge))
    : list (Z * Vector) :=
  flat_map (fun entry => match center_of_entry geometry entry with
                         | Some center => if far_from_origin center then [(fst entry, center)]
                                          else []
                         | None => []
                         end) geo_indices.

(** ** From the edges to the constrained sketch *)

(** A circle of radius 2 about (3, 4, 0) and a segment, re-projected as they
    are. *)
Definition off_circle_edge : Edge :=
  mkEdge (Circle (V 3 4 0) (V 0 0 1) 2) [V 5 4 0] 12.566370614359172
         (0, 6.283185307179586) (fun _ => V 5 4 0).

Definition circle_and_line : list Edge := [off_circle_edge; line_edge (V 0 0 0) (V 3 4 0)].

Definition constrained : Sketch :=
  mkSketch [(Part.Circle (V 3 4 0) (V 0 0 1) 2, false);
            (Part.LineSegment (V 0 0 0) (V 3 4 0), false);
            (Part.LineSegment (V 3 4 0) (V 0 0 0), true)]
           [(Coincident 2 1 0 3, true); (Coincident 2 2 (-1) 1, true); (Block 2, true);
            (Radius 0 2, true); (Distance 1 5, false)].

(** ** The transaction *)

(** What a step of the [try] body leaves alone: the pending transaction, the
    dialogs and the active document. *)
Definition frame (w w' : World) : Prop :=
  Transaction w' = Transaction w /\ Dialogs w' = Dialogs w /\
  ActiveDocument w' = ActiveDocument w.

Definition keeps {A} (m : WorldM A) : Prop := forall w r w', m w = (r, w') -> frame w w'.

Definition keeps_when_raising {A} (m : WorldM A) : Prop :=
  forall w e w', m w = (Raises e, w') -> frame w w'.

(** ** A refused constraint *)

Definition msg_refused : list string :=
  [("Sketch creation failed:" ++ nl ++ "Invalid constraint")%string].

(** The macro on a selection and a host, for a user who picks the standalone
    sketch: the objects of the document and the dialogs shown at the end. *)
Definition outcome (host : Host) (edges : list Edge) (names : list string)
    : result unit * list (string * DocumentObject) * list string :=
  let '(r, w) := edge_loop_to_sketch (host := host) (desktop := quiet_desktop pick_standalone)
                                     (world_with edges names) in
  (r, Objects w, Dialogs w).

(** ** The selection *)

(** The sub-element name of the edge numbered [n]. *)
Definition edge_name (n : Z) : string := "Edge" ++ str_int n.

(** The world after a run that did nothing but print [entry]. *)
Definition after_printing (w : World) (entry : ConsoleEntry) : World :=
  mkWorld (ActiveDocument w) (Objects w) (Transaction w) (Console w ++ [entry]) (Dialogs w)
          (Selection w).

(** An entry of the selection that belongs to [obj] and names no edge: faces,
    vertices, or the object as a whole. *)
Definition names_no_edge (obj sel_ex : SelectionObject) : Prop :=
  Object_Name sel_ex = Object_Name obj /\
  Forall (fun sub_name => String.prefix "Edge" sub_name = false) (SubElementNames sel_ex).

(** A selection on a shape with the two edges of scenario B, and the
    selection of the circle of scenario A. *)
Definition solid (sub_names : list string) : SelectionObject :=
  mkSelectionObject "Solid" two_edges sub_names.

Definition solid_of_circle : SelectionObject :=
  mkSelectionObject "Solid" [circle_edge] ["Edge1"].

(** ** Re-projection, edge by edge *)

(** The warning of line 261, for the edges it is printed for. *)
Definition unsupported_warning (edge : Edge) : list ConsoleEntry :=
  match Curve_ edge with
  | OtherCurve curve_type => [PrintWarning (msg_unsupported curve_type)]
  | _ => []
  end.

(** The warnings of line 268. *)
Definition is_failed_edge (entry : ConsoleEntry) : bool :=
  match entry with
  | PrintWarning text => String.prefix "Failed to add edge: " text
  | _ => false
  end.

(** What the sketch gets for an edge. A line, and a curve of an unsupported
    type, give the segment between the re-projected first and last vertex. An
    edge on a circle whose length is within 0.01 of the circumference gives
    the circle about the re-projected centre, with axis +Z and the radius of
    the curve; any other edge on a circle gives the arc through the
    re-projected first vertex, point at the middle of the parameter range and
    last vertex. A B-spline gives the B-spline of the re-projected poles. *)
Definition reprojection (multVec : Vector -> Vector) (edge : Edge) (geo : Part.Geometry)
    : Prop :=
  match Curve_ edge with
  | Circle center _ radius =>
      if abs (Length edge - 2 * 3.141592653589793 * radius) <? 0.01
      then geo = Part.Circle (multVec center) (Vector.mk 0 0 1) radius
      else
        exists p_start p_end,
          hd_error (Vertexes edge) = Some p_start /\
          hd_error (rev (Vertexes edge)) = Some p_end /\
          let mid_param := (fst (ParameterRange edge) + snd (ParameterRange edge)) / 2 in
          let '(c, r, s, e) :=
            arc_through (multVec p_start) (multVec (valueAt edge mid_param)) (multVec p_end) in
          geo = Part.ArcOfCircle c r s e
  | BSplineCurve poles mults knots periodic degree =>
      geo = Part.BSplineCurve (map multVec poles) mults knots periodic degree
  | _ =>
      exists p_start p_end,
        hd_error (Vertexes edge) = Some p_start /\
        hd_error (rev (Vertexes edge)) = Some p_end /\
        geo = Part.LineSegment (multVec p_start) (multVec p_end)
  end.

(** Why an edge can be skipped: it has no vertex, or the host raised. *)
Definition skipped_because (edge : Edge) (sk : Sketch) (e : exn) : Prop :=
  Vertexes edge = [] \/ exists call, sketch_raises sk call = Some e.

(** A function that either raises for one of these reasons and leaves the
    sketch and the console as they were, or adds the re-projection of the
    edge, not as a construction geometry, and returns its index. *)
Definition adds_reprojection (multVec : Vector -> Vector) (edge : Edge) (m : SketchM Z) : Prop :=
  forall sk con,
    (exists e, skipped_because edge sk e /\ m (sk, con) = (Raises e, (sk, con))) \/
    (exists geo, reprojection multVec edge geo /\
       m (sk, con) = (Returns (Z.of_nat (List.length (Geometry sk))),
                      (mkSketch (Geometry sk ++ [(geo, false)]) (Constraints sk), con))).

(** The recorded entries stand, in order, for the geometries [primary]: each
    is the re-projection of its edge and no construction geometry. *)
Definition reprojected (multVec : Vector -> Vector) (added : list (Z * Edge))
    (primary : list (Part.Geometry * bool)) : Prop :=
  Forall2 (fun entry g => reprojection multVec (snd entry) (fst g) /\ snd g = false)
          added primary.

(** ** What filling a sketch never undoes *)

(** The sketch [sk'] holds what [sk] held, at the same places, and the
    console [con'] what [con] held. *)
Definition extends (s s' : Sketch * list ConsoleEntry) : Prop :=
  (exists geometry, Geometry (fst s') = Geometry (fst s) ++ geometry) /\
  (exists constraints, Constraints (fst s') = Constraints (fst s) ++ constraints) /\
  (exists printed, snd s' = snd s ++ printed).

Definition grows {A} (m : SketchM A) : Prop := forall s, extends s (snd (m s)).

(** ** The objects of the document *)


End Vocabulary.

(** * Properties *)

(** ** Comparisons of floats *)

(** [==] on floats is symmetric and transitive (it is not reflexive: a NaN
    differs from itself), and [not (x < y)] is [y <= x] on numbers. *)
Module FloatFacts.

Lemma SFcompare_Eq_sym (a b : spec_float) :
  SFcompare a b = Some Eq -> SFcompare b a = Some Eq.
Proof.
  destruct a as [[]|[]| |[] m1 e1], b as [[]|[]| |[] m2 e2]; simpl; try congruence;
    (destruct (Z.compare e1 e2) eqn:E; try discriminate;
     apply Z.compare_eq in E; subst e2; rewrite Z.compare_refl;
     intros H; injection H as H;
     destruct (Pos.compare_cont Eq m1 m2) eqn:P; try discriminate;
     apply Pos.compare_eq in P; subst; now rewrite Pos.compare_cont_refl).
Qed.

Lemma SFcompare_Eq_trans (a b c : spec_float) :
  SFcompare a b = Some Eq -> SFcompare b c = Some Eq -> SFcompare a c = Some Eq.
Proof.
  destruct a as [[]|[]| |[] m1 e1], b as [[]|[]| |[] m2 e2], c as [[]|[]| |[] m3 e3];
    simpl; try congruence;
    (destruct (Z.compare e1 e2) eqn:E; try discriminate;
     apply Z.compare_eq in E; subst e2;
     destruct (Pos.compare_cont Eq m1 m2) eqn:P; try discriminate;
     apply Pos.compare_eq in P; subst; auto).
Qed.



Lemma eqb_sym (x y : float) : (x =? y)%float = true -> (y =? x)%float = true.
Proof.
  rewrite !eqb_spec. unfold SFeqb.
  destruct (SFcompare (Prim2SF x) (Prim2SF y)) as [[]|] eqn:E; try discriminate.
  now rewrite (SFcompare_Eq_sym _ _ E).
Qed.

Lemma eqb_trans (x y z : float) :
  (x =? y)%float = true -> (y =? z)%float = true -> (x =? z)%float = true.
Proof.
  rewrite !eqb_spec. unfold SFeqb.
  destruct (SFcompare (Prim2SF x) (Prim2SF y)) as [[]|] eqn:E; try discriminate.
  destruct (SFcompare (Prim2SF y) (Prim2SF z)) as [[]|] eqn:F; try discriminate.
  now rewrite (SFcompare_Eq_trans _ _ _ E F).
Qed.


End FloatFacts.

(** ** The plane fitter *)




(** *** De-duplication *)

















(** ** The frame builder *)

Lemma placement_of_leaning_normal :
  Vector.Length leaning_normal = 1%float /\
  Rotation_ (create_sketch_placement leaning_normal origin) = Rotation_identity /\
  stated_rotation leaning_normal = Rotation_from_to z_axis leaning_normal /\
  Rotation_ (create_sketch_placement leaning_normal origin) <> stated_rotation leaning_normal.
Proof.
  vm_compute. repeat split; discriminate.
Qed.

(** C4, amended. The placement sits at the given point. With [n] the
    normalised normal, or +Z for a normal no longer than 1e-6, the rotation
    is: none when [|n . Z| > 0.999] and [n.z > 0], as for a normal along +Z;
    the half turn about X when [|n . Z| > 0.999] and [n.z] is not positive,
    as for a normal opposite to +Z; the rotation from +Z to [n] when
    [|n . Z|] does not exceed 0.999. The function is total. *)
Theorem create_sketch_placement_rotation (normal center : Vector) :
  let n := unit_normal normal in
  let placement := create_sketch_placement normal center in
  Base placement = center /\
  (gt (abs (Vector.dot n z_axis)) 0.999 = true -> gt (Vector.z n) 0 = true ->
   Rotation_ placement = Rotation_identity) /\
  (gt (abs (Vector.dot n z_axis)) 0.999 = true -> gt (Vector.z n) 0 = false ->
   Rotation_ placement = Rotation_axis_angle (Vector.mk 1 0 0) 180) /\
  (gt (abs (Vector.dot n z_axis)) 0.999 = false ->
   Rotation_ placement = Rotation_from_to z_axis n) /\
  (gt (Vector.Length normal) 1e-6 = false ->
   n = Vector.mk 0 0 1 /\ Rotation_ placement = Rotation_identity) /\
  create_sketch_placement (Vector.mk 0 0 1) center = mkPlacement center Rotation_identity /\
  create_sketch_placement (Vector.mk 0 0 (-1)) center =
    mkPlacement center (Rotation_axis_angle (Vector.mk 1 0 0) 180).
Proof.
  intros n placement. subst placement. unfold create_sketch_placement.
  fold (unit_normal normal). fold n.
  split; [reflexivity|].
  split; [intros -> ->; reflexivity|].
  split; [intros -> ->; reflexivity|].
  split; [intros ->; reflexivity|].
  split; [|split; reflexivity].
  intros H. subst n. unfold unit_normal. rewrite H. split; reflexivity.
Qed.

(** ** Running the host's primitives *)

Section Runs.

Context {host : Host}.

Lemma run_bind {S A B} (m : M S A) (k : A -> M S B) (s : S) :
  bind m k s = match m s with
               | (Returns a, s') => k a s'
               | (Raises e, s') => (Raises e, s')
               end.
Proof. reflexivity. Qed.

Lemma run_Geometry_at (geo_idx : Z) (sk : Sketch) (con : list ConsoleEntry) :
  Geometry_at geo_idx (sk, con) =
  (match index (Geometry sk) geo_idx with
   | Returns g => Returns (fst g)
   | Raises e => Raises e
   end, (sk, con)).
Proof.
  unfold Geometry_at, bind, get, lift, ret. simpl.
  destruct (index (Geometry sk) geo_idx); reflexivity.
Qed.

Lemma run_addGeometry (geo : Part.Geometry) (construction : bool) (sk : Sketch)
    (con : list ConsoleEntry) :
  addGeometry geo construction (sk, con) =
  match sketch_raises sk (sketch_addGeometry geo construction) with
  | Some e => (Raises e, (sk, con))
  | None => (Returns (Z.of_nat (List.length (Geometry sk))),
             (mkSketch (Geometry sk ++ [(geo, construction)]) (Constraints sk), con))
  end.
Proof.
  unfold addGeometry, bind, host_call, get, modify, ret. simpl.
  destruct (sketch_raises sk _); reflexivity.
Qed.

Lemma run_addConstraint (c : Constraint) (sk : Sketch) (con : list ConsoleEntry) :
  addConstraint c (sk, con) =
  match sketch_raises sk (sketch_addConstraint c) with
  | Some e => (Raises e, (sk, con))
  | None => (Returns (Z.of_nat (List.length (Constraints sk))),
             (mkSketch (Geometry sk) (Constraints sk ++ [(c, true)]), con))
  end.
Proof.
  unfold addConstraint, bind, host_call, get, modify, ret. simpl.
  destruct (sketch_raises sk _); reflexivity.
Qed.

Lemma run_getPoint (geo_idx pos : Z) (sk : Sketch) (con : list ConsoleEntry) :
  getPoint geo_idx pos (sk, con) =
  (match sketch_raises sk (sketch_getPoint geo_idx pos) with
   | Some e => Raises e
   | None => match index (Geometry sk) geo_idx with
             | Returns g => Returns (point_of (fst g) pos)
             | Raises e => Raises e
             end
   end, (sk, con)).
Proof.
  unfold getPoint, bind, host_call. simpl.
  destruct (sketch_raises sk _); [reflexivity|].
  rewrite run_Geometry_at. destruct (index (Geometry sk) geo_idx); reflexivity.
Qed.

Lemma run_print (entry : ConsoleEntry) (sk : Sketch) (con : list ConsoleEntry) :
  print entry (sk, con) = (Returns tt, (sk, con ++ [entry])).
Proof. reflexivity. Qed.

(** *** Indexing *)

Lemma index_in_range {A} (l : list A) (i : Z) :
  (0 <= i < Z.of_nat (List.length l))%Z ->
  exists a, index l i = Returns a /\ nth_error l (Z.to_nat i) = Some a.
Proof.
  intros H. unfold index.
  destruct (i <? 0)%Z eqn:E; [apply Z.ltb_lt in E; lia|]. rewrite E.
  destruct (nth_error l (Z.to_nat i)) as [a|] eqn:N.
  - now exists a.
  - apply nth_error_None in N. lia.
Qed.

Lemma index_app {A} (l extra : list A) (i : Z) :
  (0 <= i < Z.of_nat (List.length l))%Z -> index (l ++ extra) i = index l i.
Proof.
  intros H. unfold index.
  destruct (i <? 0)%Z eqn:E; [apply Z.ltb_lt in E; lia|]. rewrite E.
  rewrite nth_error_app1 by lia. reflexivity.
Qed.

Lemma index_last {A} (l : list A) (a : A) :
  index (l ++ [a]) (Z.of_nat (List.length l)) = Returns a.
Proof.
  unfold index.
  destruct (Z.of_nat (List.length l) <? 0)%Z eqn:E; [apply Z.ltb_lt in E; lia|]. rewrite E.
  rewrite Nat2Z.id, nth_error_app2, Nat.sub_diag by lia. reflexivity.
Qed.

Lemma set_nth_last {A} (l : list A) (a : A) (f : A -> A) :
  set_nth (l ++ [a]) (List.length l) f = l ++ [f a].
Proof. induction l as [|h l IH]; simpl; [reflexivity | now rewrite IH]. Qed.

(** Adding a constraint and making it a reference, as lines 515-519 do. *)
Lemma run_setDriving_last (c : Constraint) (driving : bool) (geometry : list (Part.Geometry * bool))
    (constraints : list (Constraint * bool)) (con : list ConsoleEntry) :
  let sk := mkSketch geometry (constraints ++ [(c, true)]) in
  let constraint_idx := Z.of_nat (List.length constraints) in
  setDriving constraint_idx driving (sk, con) =
  match sketch_raises sk (sketch_setDriving constraint_idx driving) with
  | Some e => (Raises e, (sk, con))
  | None => (Returns tt, (mkSketch geometry (constraints ++ [(c, driving)]), con))
  end.
Proof.
  intros sk constraint_idx. unfold setDriving, bind, host_call, get, lift, modify.
  cbn [fst snd Geometry Constraints]. fold sk.
  destruct (sketch_raises sk _); [reflexivity|].
  subst sk constraint_idx. cbn [fst snd Geometry Constraints].
  rewrite index_last, Nat2Z.id, set_nth_last. reflexivity.
Qed.

(** ** Radius locking *)

Lemma add_radius_constraints_returns (geo_indices : list (Z * Edge)) (sk sk' : Sketch)
    (con con' : list ConsoleEntry) :
  add_radius_constraints geo_indices (sk, con) = (Returns tt, (sk', con')) ->
  Geometry sk' = Geometry sk /\ con' = con /\
  Constraints sk' = Constraints sk ++ radius_plan (Geometry sk) geo_indices.
Proof.
  unfold add_radius_constraints, radius_plan.
  revert sk. induction geo_indices as [|[geo_idx edge] gi IH]; intros sk; simpl.
  - unfold ret. intros H. injection H as <- <-. now rewrite app_nil_r.
  - rewrite run_bind. unfold radius_constraint at 1, radius_of_entry at 1.
    rewrite run_bind, run_Geometry_at. simpl.
    destruct (index (Geometry sk) geo_idx) as [[geo c]|e]; [|discriminate]. simpl.
    destruct geo; simpl; try (intros H; apply IH in H; exact H);
      rewrite run_bind, run_addConstraint;
      (destruct (sketch_raises sk _); [discriminate|]); unfold ret;
      intros H; apply IH in H; simpl in H; destruct H as (H1 & H2 & H3);
      (split; [exact H1 | split; [exact H2 | rewrite H3, <- app_assoc; reflexivity]]).
Qed.

Lemma add_radius_constraints_quiet (geo_indices : list (Z * Edge)) (sk : Sketch)
    (con : list ConsoleEntry) :
  quiet -> in_range (Geometry sk) geo_indices ->
  exists sk', add_radius_constraints geo_indices (sk, con) = (Returns tt, (sk', con)).
Proof.
  intros Hq. unfold add_radius_constraints.
  revert sk. induction geo_indices as [|[geo_idx edge] gi IH]; intros sk Hr; simpl.
  - now exists sk.
  - inversion Hr as [|? ? H1 H2]; subst. simpl in H1.
    destruct (index_in_range _ _ H1) as ([geo c] & Hi & _).
    rewrite run_bind. unfold radius_constraint at 1.
    rewrite run_bind, run_Geometry_at, Hi. simpl.
    destruct geo; simpl; try (apply IH; exact H2);
      rewrite run_bind, run_addConstraint, Hq; unfold ret; apply IH; exact H2.
Qed.

(** ** Reference distancing *)

Lemma run_distance_constraint (geo_idx : Z) (edge : Edge) (sk : Sketch)
    (con : list ConsoleEntry) (s1 s2 : Vector) (flag : bool) :
  index (Geometry sk) geo_idx = Returns (Part.LineSegment s1 s2, flag) ->
  let geo := Part.LineSegment s1 s2 in
  let c := Distance geo_idx (Vector.distanceToPoint (point_of geo 1) (point_of geo 2)) in
  let added := mkSketch (Geometry sk) (Constraints sk ++ [(c, true)]) in
  distance_constraint (geo_idx, edge) (sk, con) =
  match sketch_raises sk (sketch_getPoint geo_idx 1) with
  | Some e => (Raises e, (sk, con))
  | None =>
      match sketch_raises sk (sketch_getPoint geo_idx 2) with
      | Some e => (Raises e, (sk, con))
      | None =>
          match sketch_raises sk (sketch_addConstraint c) with
          | Some e => (Raises e, (sk, con))
          | None =>
              match sketch_raises added
                      (sketch_setDriving (Z.of_nat (List.length (Constraints sk))) false) with
              | Some e => (Raises e, (added, con))
              | None => (Returns tt,
                         (mkSketch (Geometry sk) (Constraints sk ++ [(c, false)]), con))
              end
          end
      end
  end.
Proof.
  intros Hi geo c added. unfold distance_constraint.
  rewrite run_bind, run_Geometry_at, Hi. cbn [fst].
  rewrite run_bind, run_getPoint, Hi.
  destruct (sketch_raises sk (sketch_getPoint geo_idx 1)); [reflexivity|].
  rewrite run_bind, run_getPoint, Hi.
  destruct (sketch_raises sk (sketch_getPoint geo_idx 2)); [reflexivity|].
  cbn [fst]. rewrite run_bind, run_addConstraint. fold geo. fold c.
  destruct (sketch_raises sk (sketch_addConstraint c)); [reflexivity|].
  destruct sk as [geometry constraints]. cbn [Geometry Constraints] in *.
  apply (run_setDriving_last c false geometry constraints con).
Qed.

Lemma add_line_distance_constraints_returns (geo_indices : list (Z * Edge)) (sk sk' : Sketch)
    (con con' : list ConsoleEntry) :
  add_line_distance_constraints geo_indices (sk, con) = (Returns tt, (sk', con')) ->
  Geometry sk' = Geometry sk /\ con' = con /\
  Constraints sk' = Constraints sk ++ distance_plan (Geometry sk) geo_indices.
Proof.
  unfold add_line_distance_constraints, distance_plan.
  revert sk. induction geo_indices as [|[geo_idx edge] gi IH]; intros sk; cbn [for_each flat_map].
  - unfold ret. intros H. injection H as <- <-. now rewrite app_nil_r.
  - rewrite run_bind. unfold distance_of_entry at 1. cbn [fst].
    destruct (index (Geometry sk) geo_idx) as [[geo flag]|e] eqn:Hi.
    + destruct geo as [s1 s2| | |].
      * rewrite (run_distance_constraint geo_idx edge sk con s1 s2 flag Hi).
        destruct (sketch_raises sk (sketch_getPoint geo_idx 1)); [discriminate|].
        destruct (sketch_raises sk (sketch_getPoint geo_idx 2)); [discriminate|].
        destruct (sketch_raises sk (sketch_addConstraint _)); [discriminate|].
        destruct (sketch_raises _ (sketch_setDriving _ _)); [discriminate|].
        intros H. apply IH in H. cbn [Geometry Constraints fst] in *.
        destruct H as (H1 & H2 & H3).
        split; [exact H1 | split; [exact H2 | rewrite H3, <- app_assoc; reflexivity]].
      * unfold distance_constraint. rewrite run_bind, run_Geometry_at, Hi. apply IH.
      * unfold distance_constraint. rewrite run_bind, run_Geometry_at, Hi. apply IH.
      * unfold distance_constraint. rewrite run_bind, run_Geometry_at, Hi. apply IH.
    + unfold distance_constraint. rewrite run_bind, run_Geometry_at, Hi. discriminate.
Qed.

Lemma add_line_distance_constraints_quiet (geo_indices : list (Z * Edge)) (sk : Sketch)
    (con : list ConsoleEntry) :
  quiet -> in_range (Geometry sk) geo_indices ->
  exists sk', add_line_distance_constraints geo_indices (sk, con) = (Returns tt, (sk', con)).
Proof.
  intros Hq. unfold add_line_distance_constraints.
  revert sk. induction geo_indices as [|[geo_idx edge] gi IH]; intros sk Hr; cbn [for_each flat_map].
  - now exists sk.
  - inversion Hr as [|? ? H1 H2]; subst. simpl in H1.
    destruct (index_in_range _ _ H1) as ([geo flag] & Hi & _).
    rewrite run_bind.
    destruct geo as [s1 s2| | |].
    + rewrite (run_distance_constraint geo_idx edge sk con s1 s2 flag Hi), !Hq.
      apply IH. exact H2.
    + unfold distance_constraint. rewrite run_bind, run_Geometry_at, Hi. apply IH, H2.
    + unfold distance_constraint. rewrite run_bind, run_Geometry_at, Hi. apply IH, H2.
    + unfold distance_constraint. rewrite run_bind, run_Geometry_at, Hi. apply IH, H2.
Qed.

(** ** Center anchoring *)

Lemma run_anchor_center (acc : list Z) (geo_idx : Z) (center : Vector) (sk sk' : Sketch)
    (con con' : list ConsoleEntry) (lines : list Z) :
  anchor_center acc geo_idx center (sk, con) = (Returns lines, (sk', con')) ->
  let line_idx := Z.of_nat (List.length (Geometry sk)) in
  con' = con /\
  if far_from_origin center
  then Geometry sk' = Geometry sk ++ [(Part.LineSegment center origin, true)] /\
       Constraints sk' = Constraints sk ++ [(Coincident line_idx 1 geo_idx 3, true);
                                            (Coincident line_idx 2 (-1) 1, true)] /\
       lines = acc ++ [line_idx]
  else Geometry sk' = Geometry sk /\
       Constraints sk' = Constraints sk ++ [(Coincident geo_idx 3 (-1) 1, true)] /\
       lines = acc.
Proof.
  unfold anchor_center. fold (far_from_origin center).
  destruct (far_from_origin center).
  - rewrite run_bind. unfold host_call at 1. cbn [fst].
    destruct (sketch_raises sk (Part_LineSegment center origin)); [discriminate|].
    rewrite run_bind, run_addGeometry.
    destruct (sketch_raises sk (sketch_addGeometry _ _)); [discriminate|].
    rewrite run_bind, run_addConstraint. cbn [Geometry Constraints].
    destruct (sketch_raises _ (sketch_addConstraint _)); [discriminate|].
    rewrite run_bind, run_addConstraint. cbn [Geometry Constraints].
    destruct (sketch_raises _ (sketch_addConstraint _)); [discriminate|].
    unfold ret. intros H. injection H as <- <- <-. cbn [Geometry Constraints].
    rewrite <- app_assoc. repeat split; reflexivity.
  - rewrite run_bind, run_addConstraint.
    destruct (sketch_raises sk (sketch_addConstraint _)); [discriminate|].
    unfold ret. intros H. injection H as <- <- <-. repeat split; reflexivity.
Qed.

Lemma run_anchor_center_quiet (acc : list Z) (geo_idx : Z) (center : Vector) (sk : Sketch)
    (con : list ConsoleEntry) :
  quiet ->
  exists lines sk', anchor_center acc geo_idx center (sk, con) = (Returns lines, (sk', con)).
Proof.
  intros Hq. unfold anchor_center. destruct (gt _ tolerance).
  - rewrite run_bind. unfold host_call at 1. cbn [fst]. rewrite Hq.
    rewrite run_bind, run_addGeometry, Hq.
    rewrite run_bind, run_addConstraint, Hq.
    rewrite run_bind, run_addConstraint, Hq. unfold ret. eauto.
  - rewrite run_bind, run_addConstraint, Hq. unfold ret. eauto.
Qed.

Lemma indices_from_S (first count : nat) :
  indices_from first (S count) = Z.of_nat first :: indices_from (S first) count.
Proof. reflexivity. Qed.

Lemma fold_center_line (primary : list (Part.Geometry * bool)) (geo_indices : list (Z * Edge)) :
  in_range primary geo_indices ->
  forall (acc : list Z) (sk sk' : Sketch) (con con' : list ConsoleEntry) (lines : list Z),
    (exists added, Geometry sk = primary ++ added) ->
    fold_for geo_indices acc center_line (sk, con) = (Returns lines, (sk', con')) ->
    Geometry sk' = Geometry sk ++ construction_lines primary geo_indices /\
    Constraints sk' =
      Constraints sk
      ++ anchor_constraints primary (Z.of_nat (List.length (Geometry sk))) geo_indices /\
    lines = acc ++ indices_from (List.length (Geometry sk))
                                (List.length (construction_lines primary geo_indices)) /\
    con' = con.
Proof.
  induction 1 as [|[geo_idx edge] gi Hin Hr IH]; intros acc sk sk' con con' lines [added Hg].
  - cbn. unfold ret. intros H. injection H as <- <- <-.
    rewrite !app_nil_r. auto.
  - cbn [fold_for]. rewrite run_bind. unfold center_line at 1.
    rewrite run_bind, run_Geometry_at, Hg, index_app by exact Hin.
    cbn [fst] in Hin.
    destruct (index primary geo_idx) as [[geo flag]|e] eqn:Hidx; [|discriminate]. cbn [fst].
    rewrite <- Hg.
    assert (Hc : center_of_entry primary (geo_idx, edge) = center_of geo)
      by (unfold center_of_entry; cbn [fst]; now rewrite Hidx).
    change (construction_lines primary ((geo_idx, edge) :: gi))
      with (line_of_entry primary (geo_idx, edge) ++ construction_lines primary gi).
    cbn [anchor_constraints]. unfold line_of_entry. rewrite Hc. cbn [fst].
    assert (Hskip : forall sk1 con1 acc1,
              Geometry sk1 = Geometry sk -> Constraints sk1 = Constraints sk ->
              fold_for gi acc1 center_line (sk1, con1) = (Returns lines, (sk', con')) ->
              acc1 = acc -> con1 = con ->
              Geometry sk' = Geometry sk ++ construction_lines primary gi /\
              Constraints sk' =
                Constraints sk
                ++ anchor_constraints primary (Z.of_nat (List.length (Geometry sk))) gi /\
              lines = acc ++ indices_from (List.length (Geometry sk))
                                          (List.length (construction_lines primary gi)) /\
              con' = con).
    { intros sk1 con1 acc1 G1 C1 H -> ->. apply IH in H.
      - now rewrite G1, C1 in H.
      - exists added. now rewrite G1. }
    destruct geo as [s1 s2|center axis radius|center radius s1 s2|]; cbn [center_of app].
    + unfold ret. intros H. eapply Hskip; eauto.
    + destruct (anchor_center acc geo_idx center (sk, con)) as [[lines1|e] [sk1 con1]] eqn:A;
        [|discriminate].
      apply run_anchor_center in A. destruct A as (-> & A).
      destruct (far_from_origin center).
      * destruct A as (G1 & C1 & ->). intros H. apply IH in H.
        2:{ exists (added ++ [(Part.LineSegment center origin, true)]).
            now rewrite G1, Hg, app_assoc. }
        destruct H as (H1 & H2 & H3 & H4).
        rewrite G1, C1 in *. rewrite length_app in *. cbn [List.length] in *.
        cbn [List.length app]. rewrite indices_from_S.
        replace (Z.of_nat (List.length (Geometry sk)) + 1)%Z
          with (Z.of_nat (List.length (Geometry sk) + 1)) by lia.
        replace (S (List.length (Geometry sk))) with (List.length (Geometry sk) + 1)%nat by lia.
        rewrite <- !app_assoc in *. cbn [app] in *. auto.
      * destruct A as (G1 & C1 & ->). intros H. apply IH in H.
        2:{ exists added. now rewrite G1. }
        destruct H as (H1 & H2 & H3 & H4).
        rewrite G1, C1 in *. rewrite <- !app_assoc in *. cbn [app] in *. auto.
    + destruct (anchor_center acc geo_idx center (sk, con)) as [[lines1|e] [sk1 con1]] eqn:A;
        [|discriminate].
      apply run_anchor_center in A. destruct A as (-> & A).
      destruct (far_from_origin center).
      * destruct A as (G1 & C1 & ->). intros H. apply IH in H.
        2:{ exists (added ++ [(Part.LineSegment center origin, true)]).
            now rewrite G1, Hg, app_assoc. }
        destruct H as (H1 & H2 & H3 & H4).
        rewrite G1, C1 in *. rewrite length_app in *. cbn [List.length] in *.
        cbn [List.length app]. rewrite indices_from_S.
        replace (Z.of_nat (List.length (Geometry sk)) + 1)%Z
          with (Z.of_nat (List.length (Geometry sk) + 1)) by lia.
        replace (S (List.length (Geometry sk))) with (List.length (Geometry sk) + 1)%nat by lia.
        rewrite <- !app_assoc in *. cbn [app] in *. auto.
      * destruct A as (G1 & C1 & ->). intros H. apply IH in H.
        2:{ exists added. now rewrite G1. }
        destruct H as (H1 & H2 & H3 & H4).
        rewrite G1, C1 in *. rewrite <- !app_assoc in *. cbn [app] in *. auto.
    + unfold ret. intros H. eapply Hskip; eauto.
Qed.

Lemma fold_center_line_quiet (primary : list (Part.Geometry * bool))
    (geo_indices : list (Z * Edge)) :
  quiet -> in_range primary geo_indices ->
  forall (acc : list Z) (sk : Sketch) (con : list ConsoleEntry),
    (exists added, Geometry sk = primary ++ added) ->
    exists lines sk', fold_for geo_indices acc center_line (sk, con) = (Returns lines, (sk', con)).
Proof.
  intros Hq. induction 1 as [|[geo_idx edge] gi Hin Hr IH]; intros acc sk con [added Hg].
  - cbn. unfold ret. eauto.
  - cbn [fold_for]. rewrite run_bind. unfold center_line at 1.
    rewrite run_bind, run_Geometry_at, Hg, index_app by exact Hin.
    destruct (index_in_range _ _ Hin) as ([geo flag] & Hidx & _). cbn [fst] in Hidx.
    rewrite Hidx. cbn [fst].
    assert (Hstep : forall center,
              exists lines sk',
                match anchor_center acc geo_idx center (sk, con) with
                | (Returns a, s') => fold_for gi a center_line s'
                | (Raises e, s') => (Raises e, s')
                end = (Returns lines, (sk', con))).
    { intros center.
      destruct (run_anchor_center_quiet acc geo_idx center sk con Hq) as (l1 & sk1 & A).
      rewrite A. apply IH.
      apply run_anchor_center in A. destruct A as (_ & A).
      destruct (far_from_origin center); destruct A as (G1 & _).
      - exists (added ++ [(Part.LineSegment center origin, true)]).
        now rewrite G1, Hg, app_assoc.
      - exists added. now rewrite G1. }
    destruct geo; try apply Hstep; unfold ret; apply IH; now exists added.
Qed.

Lemma for_each_block_line (lines : list Z) (sk sk' : Sketch) (con con' : list ConsoleEntry) :
  for_each lines block_line (sk, con) = (Returns tt, (sk', con')) ->
  Geometry sk' = Geometry sk /\ Constraints sk' = Constraints sk ++ block_plan lines /\
  con' = con.
Proof.
  revert sk. induction lines as [|line_idx lines IH]; intros sk; cbn [for_each block_plan map].
  - unfold ret. intros H. injection H as <- <-. now rewrite app_nil_r.
  - rewrite run_bind. unfold block_line at 1. rewrite run_bind, run_addConstraint.
    destruct (sketch_raises sk _); [discriminate|]. unfold ret.
    intros H. apply IH in H. cbn [Geometry Constraints] in H.
    destruct H as (H1 & H2 & H3). rewrite <- app_assoc in H2. auto.
Qed.

Lemma for_each_block_line_quiet (lines : list Z) (sk : Sketch) (con : list ConsoleEntry) :
  quiet -> exists sk', for_each lines block_line (sk, con) = (Returns tt, (sk', con)).
Proof.
  intros Hq. revert sk. induction lines as [|line_idx lines IH]; intros sk; cbn [for_each].
  - unfold ret. eauto.
  - rewrite run_bind. unfold block_line at 1. rewrite run_bind, run_addConstraint, Hq.
    unfold ret. apply IH.
Qed.

(** What the centre pass leaves in a sketch it returns from. *)
Lemma add_center_construction_lines_returns (geo_indices : list (Z * Edge)) (sk sk' : Sketch)
    (con con' : list ConsoleEntry) :
  in_range (Geometry sk) geo_indices ->
  add_center_construction_lines geo_indices (sk, con) = (Returns tt, (sk', con')) ->
  let lines := construction_lines (Geometry sk) geo_indices in
  let line_indices := indices_from (List.length (Geometry sk)) (List.length lines) in
  let anchors :=
    anchor_constraints (Geometry sk) (Z.of_nat (List.length (Geometry sk))) geo_indices in
  exists mid,
    fold_for geo_indices [] center_line (sk, con) = (Returns line_indices, (mid, con)) /\
    for_each line_indices block_line (mid, con) = (Returns tt, (sk', con')) /\
    Geometry mid = Geometry sk ++ lines /\
    Constraints mid = Constraints sk ++ anchors /\
    Geometry sk' = Geometry sk ++ lines /\
    Constraints sk' = Constraints sk ++ anchors ++ block_plan line_indices /\
    con' = con.
Proof.
  intros Hr. unfold add_center_construction_lines. rewrite run_bind.
  destruct (fold_for geo_indices [] center_line (sk, con)) as [[found|e] [mid con1]] eqn:F;
    [|discriminate].
  apply (fold_center_line _ _ Hr) in F; [|exists []; now rewrite app_nil_r].
  destruct F as (G1 & C1 & -> & ->). cbn [app].
  intros B. pose proof (for_each_block_line _ _ _ _ _ B) as (G2 & C2 & ->).
  exists mid. rewrite G2, C2, G1, C1, <- app_assoc. auto 10.
Qed.

Lemma add_center_construction_lines_quiet (geo_indices : list (Z * Edge)) (sk : Sketch)
    (con : list ConsoleEntry) :
  quiet -> in_range (Geometry sk) geo_indices ->
  exists sk', add_center_construction_lines geo_indices (sk, con) = (Returns tt, (sk', con)).
Proof.
  intros Hq Hr. unfold add_center_construction_lines. rewrite run_bind.
  destruct (fold_center_line_quiet _ _ Hq Hr [] sk con) as (lines & mid & F);
    [exists []; now rewrite app_nil_r|].
  rewrite F. apply for_each_block_line_quiet, Hq.
Qed.

(** ** Vertex coincidence *)

Lemma subsequence_refl {A} (l : list A) : subsequence l l.
Proof. induction l as [|a l IH]; [constructor | now apply subsequence_keep]. Qed.

Lemma run_map_vertices (vertex_map : VertexMap) (entry : Z * Edge) (sk : Sketch)
    (con : list ConsoleEntry) :
  map_vertices vertex_map entry (sk, con) =
  match index (Geometry sk) (fst entry) with
  | Returns _ => (Returns (fold_left add_endpoint (endpoints_of_entry sk entry) vertex_map),
                  (sk, con ++ warning_of_entry sk entry))
  | Raises e => (Raises e, (sk, con))
  end.
Proof.
  destruct entry as [geo_idx edge]. unfold map_vertices, endpoints_of_entry, warning_of_entry.
  rewrite run_bind, run_Geometry_at. cbn [fst].
  destruct (index (Geometry sk) geo_idx) as [[geo flag]|e] eqn:Hi; [|reflexivity].
  cbn [fst].
  assert (Htry :
    try_except
      (bind (getPoint geo_idx 1) (fun vertex1 =>
       bind (getPoint geo_idx 2) (fun vertex2 =>
       ret (setdefault_append
              (setdefault_append vertex_map (key_of vertex1) (geo_idx, 1%Z))
              (key_of vertex2) (geo_idx, 2%Z)))))
      (fun e => bind (print (PrintWarning (msg_no_points geo_idx e)))
                     (fun _ => ret vertex_map)) (sk, con) =
    (Returns (fold_left add_endpoint
                match getPoint_error sk geo_idx with
                | None => [(key_of (point_of geo 1), (geo_idx, 1%Z));
                           (key_of (point_of geo 2), (geo_idx, 2%Z))]
                | Some _ => []
                end vertex_map),
     (sk, con ++ match getPoint_error sk geo_idx with
                 | None => []
                 | Some e => [PrintWarning (msg_no_points geo_idx e)]
                 end))).
  { unfold try_except, getPoint_error. rewrite run_bind, run_getPoint, Hi.
    destruct (sketch_raises sk (sketch_getPoint geo_idx 1)); [reflexivity|].
    rewrite run_bind, run_getPoint, Hi.
    destruct (sketch_raises sk (sketch_getPoint geo_idx 2)); [reflexivity|].
    unfold ret. cbn [fst fold_left add_endpoint snd]. now rewrite app_nil_r. }
  destruct geo; cbn [has_StartPoint_EndPoint]; try exact Htry.
  unfold ret. cbn [fold_left]. now rewrite app_nil_r.
Qed.

Lemma fold_map_vertices (geo_indices : list (Z * Edge)) (acc vertex_map : VertexMap)
    (sk sk' : Sketch) (con con' : list ConsoleEntry) :
  fold_for geo_indices acc map_vertices (sk, con) = (Returns vertex_map, (sk', con')) ->
  sk' = sk /\
  vertex_map = fold_left add_endpoint (flat_map (endpoints_of_entry sk) geo_indices) acc /\
  con' = con ++ flat_map (warning_of_entry sk) geo_indices.
Proof.
  revert acc con. induction geo_indices as [|entry gi IH]; intros acc con; cbn [fold_for flat_map].
  - unfold ret. intros H. injection H as <- <- <-. now rewrite app_nil_r.
  - rewrite run_bind, run_map_vertices.
    destruct (index (Geometry sk) (fst entry)); [|discriminate].
    intros H. apply IH in H. destruct H as (-> & -> & ->).
    now rewrite fold_left_app, app_assoc.
Qed.

Lemma fold_map_vertices_in_range (geo_indices : list (Z * Edge)) (acc : VertexMap)
    (sk : Sketch) (con : list ConsoleEntry) :
  in_range (Geometry sk) geo_indices ->
  exists vertex_map con',
    fold_for geo_indices acc map_vertices (sk, con) = (Returns vertex_map, (sk, con')).
Proof.
  intros Hr. revert acc con. induction Hr as [|entry gi Hin Hr IH]; intros acc con.
  - cbn. unfold ret. eauto.
  - cbn [fold_for]. rewrite run_bind, run_map_vertices.
    destruct (index_in_range _ _ Hin) as (g & -> & _). apply IH.
Qed.

(** The second loop never raises; it adds the pairs the host accepts. *)
Lemma for_each_constrain_group (vertex_map : VertexMap) (sk : Sketch)
    (con : list ConsoleEntry) :
  exists emitted con',
    for_each vertex_map constrain_group (sk, con) =
      (Returns tt, (mkSketch (Geometry sk) (Constraints sk ++ emitted), con')) /\
    subsequence emitted (pair_plan vertex_map) /\
    (quiet -> emitted = pair_plan vertex_map /\ con' = con).
Proof.
  revert sk con. induction vertex_map as [|[key vertex_list] vm IH]; intros sk con.
  - exists [], con. cbn. unfold ret. rewrite app_nil_r. destruct sk.
    repeat split; constructor.
  - cbn [for_each pair_plan flat_map]. rewrite run_bind. unfold constrain_group at 1.
    unfold pair_of_group at 1 3. cbn [snd].
    destruct vertex_list as [|base [|other more]].
    + unfold ret. cbn [app]. destruct (IH sk con) as (emitted & con' & H1 & H2 & H3).
      exists emitted, con'. auto.
    + unfold ret. cbn [app]. destruct (IH sk con) as (emitted & con' & H1 & H2 & H3).
      exists emitted, con'. auto.
    + unfold try_except. rewrite run_bind, run_addConstraint.
      destruct (sketch_raises sk (sketch_addConstraint _)) as [e|] eqn:R.
      * rewrite run_print.
        destruct (IH sk (con ++ [PrintWarning (msg_no_constrain base other e)]))
          as (emitted & con' & H1 & H2 & H3).
        exists emitted, con'. split; [exact H1|]. split.
        -- cbn [app]. now constructor.
        -- intros Hq. rewrite Hq in R. discriminate.
      * unfold ret.
        destruct (IH (mkSketch (Geometry sk)
                        (Constraints sk ++
                         [(Coincident (fst base) (snd base) (fst other) (snd other), true)]))
                     con) as (emitted & con' & H1 & H2 & H3).
        exists ((Coincident (fst base) (snd base) (fst other) (snd other), true) :: emitted),
               con'.
        cbn [Geometry Constraints] in H1. rewrite <- app_assoc in H1. split; [exact H1|].
        split.
        -- cbn [app]. now constructor.
        -- intros Hq. destruct (H3 Hq) as [-> ->]. split; reflexivity.
Qed.

End Runs.

(** *** Grouping by key *)

Lemma key_eqb_sym (a b : Key) : key_eqb a b = true -> key_eqb b a = true.
Proof.
  destruct a as [[ax ay] az], b as [[bx b_y] bz]. unfold key_eqb.
  rewrite !andb_true_iff. intros [[H1 H2] H3].
  repeat split; now apply FloatFacts.eqb_sym.
Qed.

Lemma key_eqb_trans (a b c : Key) :
  key_eqb a b = true -> key_eqb b c = true -> key_eqb a c = true.
Proof.
  destruct a as [[ax ay] az], b as [[bx b_y] bz], c as [[cx cy] cz]. unfold key_eqb.
  rewrite !andb_true_iff. intros [[H1 H2] H3] [[H4 H5] H6].
  repeat split; eapply FloatFacts.eqb_trans; eauto.
Qed.

Lemma setdefault_append_cases (vertex_map : VertexMap) (key : Key) (v : Z * Z) :
  (exists before k vs after,
     vertex_map = before ++ (k, vs) :: after /\ absent before key /\ key_eqb k key = true /\
     setdefault_append vertex_map key v = before ++ (k, vs ++ [v]) :: after) \/
  (absent vertex_map key /\ setdefault_append vertex_map key v = vertex_map ++ [(key, [v])]).
Proof.
  induction vertex_map as [|[k vs] m IH]; cbn [setdefault_append].
  - right. split; [constructor | reflexivity].
  - destruct (key_eqb k key) eqn:E.
    + left. exists [], k, vs, m. repeat split; auto. constructor.
    + destruct IH as [(before & k' & vs' & after & -> & Ha & Hk & ->) | [Ha ->]].
      * left. exists ((k, vs) :: before), k', vs', after. repeat split; auto.
        constructor; auto.
      * right. split; [constructor; auto | reflexivity].
Qed.

Lemma setdefault_append_members (vertex_map : VertexMap) (key : Key) (v : Z * Z) :
  Permutation (flat_map snd (setdefault_append vertex_map key v))
              (flat_map snd vertex_map ++ [v]).
Proof.
  destruct (setdefault_append_cases vertex_map key v)
    as [(before & k & vs & after & -> & _ & _ & ->) | [_ ->]].
  - rewrite !flat_map_app. cbn [flat_map snd]. rewrite <- !app_assoc.
    do 2 apply Permutation_app_head. apply Permutation_app_comm.
  - rewrite flat_map_app. cbn [flat_map snd]. now rewrite app_nil_r.
Qed.

(** Every end point sits in one group: the groups, put end to end, are the
    end points in another order. *)
Lemma grouped_members (endpoints : list (Key * (Z * Z))) :
  Permutation (flat_map snd (grouped endpoints)) (map snd endpoints).
Proof.
  unfold grouped.
  assert (H : forall m, Permutation (flat_map snd (fold_left add_endpoint endpoints m))
                                    (flat_map snd m ++ map snd endpoints)).
  { induction endpoints as [|[key v] eps IH]; intros m; cbn [fold_left map].
    - now rewrite app_nil_r.
    - rewrite IH. unfold add_endpoint. cbn [fst snd].
      rewrite (Permutation_app_tail _ (setdefault_append_members m key v)).
      now rewrite <- app_assoc. }
  apply (H []).
Qed.

Lemma filter_none {A} (f : A -> bool) (l : list A) :
  (forall a, In a l -> f a = false) -> filter f l = [].
Proof.
  induction l as [|a l IH]; intros H; cbn [filter]; [reflexivity|].
  rewrite (H a (or_introl eq_refl)). apply IH. intros b Hb. apply H. now right.
Qed.

Lemma matching_snoc (k : Key) (endpoints : list (Key * (Z * Z))) (e : Key * (Z * Z)) :
  matching k (endpoints ++ [e]) =
  matching k endpoints ++ (if key_eqb k (fst e) then [snd e] else []).
Proof.
  unfold matching. rewrite filter_app, map_app. cbn [filter].
  destruct (key_eqb k (fst e)); reflexivity.
Qed.

Lemma distinct_keys_app_inv (before after : VertexMap) (item : Key * list (Z * Z)) :
  distinct_keys (before ++ item :: after) ->
  forall later, In later after -> key_eqb (fst item) (fst later) = false.
Proof.
  unfold distinct_keys. induction before as [|b before IH]; cbn [app]; intros H later Hin.
  - inversion H as [|? ? Hall _]; subst. rewrite Forall_forall in Hall. now apply Hall.
  - inversion H; subst. now apply IH.
Qed.

Lemma distinct_keys_replace (before after : VertexMap) (k : Key) (vs vs' : list (Z * Z)) :
  distinct_keys (before ++ (k, vs) :: after) -> distinct_keys (before ++ (k, vs') :: after).
Proof.
  unfold distinct_keys. induction before as [|b before IH]; cbn [app]; intros H.
  - inversion H; subst. constructor; auto.
  - inversion H as [|? ? Hall Hrest]; subst. constructor; [|now apply IH].
    rewrite Forall_forall in *. intros x Hx. apply in_app_or in Hx as [Hx | [<- | Hx]].
    + apply Hall. apply in_or_app. now left.
    + apply (Hall (k, vs)). apply in_or_app. right. now left.
    + apply Hall. apply in_or_app. right. now right.
Qed.

Lemma distinct_keys_snoc (vertex_map : VertexMap) (key : Key) (vs : list (Z * Z)) :
  distinct_keys vertex_map -> absent vertex_map key ->
  distinct_keys (vertex_map ++ [(key, vs)]).
Proof.
  unfold distinct_keys, absent. induction 1 as [|a l Ha Hl IH]; cbn [app]; intros Habs.
  - constructor; constructor.
  - inversion Habs; subst. constructor; [|now apply IH].
    apply Forall_app. split; [exact Ha | constructor; [assumption | constructor]].
Qed.

Lemma grouping_step (endpoints : list (Key * (Z * Z))) (vertex_map : VertexMap)
    (e : Key * (Z * Z)) :
  grouping endpoints vertex_map -> grouping (endpoints ++ [e]) (add_endpoint vertex_map e).
Proof.
  intros (Hd & Hm & Hc). destruct e as [key v]. unfold add_endpoint. cbn [fst snd].
  destruct (setdefault_append_cases vertex_map key v)
    as [(before & k & vs & after & -> & Ha & Hk & ->) | [Ha ->]].
  - (* the end point joins the group of [k] *)
    split; [|split].
    + eapply distinct_keys_replace, Hd.
    + intros k' vs' Hin Hrefl. rewrite matching_snoc. cbn [fst snd].
      apply in_app_or in Hin as [Hin | [Heq | Hin]].
      * unfold absent in Ha. rewrite Forall_forall in Ha.
        rewrite (Ha _ Hin : key_eqb k' key = false), app_nil_r.
        apply Hm; auto. apply in_or_app. now left.
      * injection Heq as <- <-. rewrite Hk. f_equal.
        apply Hm; auto. apply in_or_app. right. now left.
      * assert (E : key_eqb k' key = false).
        { destruct (key_eqb k' key) eqn:E; [|reflexivity].
          pose proof (distinct_keys_app_inv _ _ _ Hd _ Hin) as Hdiff. cbn [fst] in Hdiff.
          rewrite (key_eqb_trans _ _ _ Hk (key_eqb_sym _ _ E)) in Hdiff. discriminate. }
        rewrite E, app_nil_r. apply Hm; auto. apply in_or_app. right. now right.
    + intros e He Hrefl. apply in_app_or in He as [He | [<- | []]].
      * destruct (Hc e He Hrefl) as (item & Hin & Hitem).
        apply in_app_or in Hin as [Hin | [<- | Hin]].
        -- exists item. split; [apply in_or_app; now left | exact Hitem].
        -- exists (k, vs ++ [v]). split; [apply in_or_app; right; now left | exact Hitem].
        -- exists item. split; [apply in_or_app; right; now right | exact Hitem].
      * exists (k, vs ++ [v]). split; [apply in_or_app; right; now left | exact Hk].
  - (* the end point opens a group *)
    assert (Hnone : forall e, In e endpoints -> key_eqb key (fst e) = false).
    { intros e He. destruct (key_eqb key (fst e)) eqn:E; [|reflexivity].
      pose proof (key_eqb_sym _ _ E) as E'.
      destruct (Hc e He (key_eqb_trans _ _ _ E' E)) as (item & Hin & Hitem).
      unfold absent in Ha. rewrite Forall_forall in Ha.
      pose proof (Ha _ Hin) as Hno. cbn beta in Hno.
      rewrite (key_eqb_trans _ _ _ Hitem E') in Hno. discriminate. }
    split; [|split].
    + now apply distinct_keys_snoc.
    + intros k' vs' Hin Hrefl. rewrite matching_snoc. cbn [fst snd].
      apply in_app_or in Hin as [Hin | [Heq | []]].
      * unfold absent in Ha. rewrite Forall_forall in Ha.
        rewrite (Ha _ Hin : key_eqb k' key = false), app_nil_r. now apply Hm.
      * injection Heq as <- <-. rewrite Hrefl. unfold matching.
        rewrite (filter_none _ _ Hnone). reflexivity.
    + intros e He Hrefl. apply in_app_or in He as [He | [<- | []]].
      * destruct (Hc e He Hrefl) as (item & Hin & Hitem).
        exists item. split; [apply in_or_app; now left | exact Hitem].
      * exists (key, [v]). split; [apply in_or_app; right; now left | exact Hrefl].
Qed.

Lemma grouped_grouping (endpoints : list (Key * (Z * Z))) :
  grouping endpoints (grouped endpoints).
Proof.
  unfold grouped. induction endpoints as [|e eps IH] using rev_ind.
  - repeat split.
    + constructor.
    + intros k vs [].
    + intros e [].
  - rewrite fold_left_app. cbn [fold_left]. now apply grouping_step.
Qed.

Section VertexPass.

Context {host : Host}.

Lemma in_range_indices (geometry : list (Part.Geometry * bool)) (gi gi' : list (Z * Edge)) :
  map fst gi' = map fst gi -> in_range geometry gi -> in_range geometry gi'.
Proof.
  unfold in_range. rewrite !Forall_forall. intros Hm H entry Hin.
  assert (Hf : In (fst entry) (map fst gi)) by (rewrite <- Hm; now apply in_map).
  apply in_map_iff in Hf as (entry' & Heq & Hin'). rewrite <- Heq. now apply H.
Qed.

Lemma flat_map_indices {B} (f g : Z * Edge -> list B) (gi gi' : list (Z * Edge)) :
  (forall a b, fst a = fst b -> f a = g b) ->
  map fst gi' = map fst gi -> flat_map f gi' = flat_map g gi.
Proof.
  intros Hf. revert gi. induction gi' as [|a gi' IH]; intros [|b gi]; cbn [map flat_map];
    try discriminate; [reflexivity|].
  intros H. injection H as H1 H2. now rewrite (Hf a b H1), (IH gi H2).
Qed.

(** The pass as a function of the end points and of the warnings alone. *)
Lemma run_add_vertex_coincident_constraints (geo_indices : list (Z * Edge)) (sk : Sketch)
    (con : list ConsoleEntry) :
  in_range (Geometry sk) geo_indices ->
  add_vertex_coincident_constraints geo_indices (sk, con) =
  for_each (grouped (flat_map (endpoints_of_entry sk) geo_indices)) constrain_group
           (sk, con ++ flat_map (warning_of_entry sk) geo_indices).
Proof.
  intros Hr. unfold add_vertex_coincident_constraints. rewrite run_bind.
  destruct (fold_map_vertices_in_range geo_indices [] sk con Hr) as (vm & con' & F).
  unfold VertexMap in *. rewrite F.
  apply fold_map_vertices in F. destruct F as (_ & -> & ->). reflexivity.
Qed.

Lemma quiet_no_warning (sk : Sketch) (geo_indices : list (Z * Edge)) :
  quiet -> flat_map (warning_of_entry sk) geo_indices = [].
Proof.
  intros Hq. induction geo_indices as [|entry gi IH]; cbn [flat_map]; [reflexivity|].
  rewrite IH, app_nil_r. unfold warning_of_entry, getPoint_error.
  destruct (index (Geometry sk) (fst entry)) as [g|]; [|reflexivity].
  rewrite !Hq. now destruct (has_StartPoint_EndPoint (fst g)).
Qed.

Lemma add_vertex_coincident_constraints_runs (geo_indices : list (Z * Edge)) (sk : Sketch)
    (con : list ConsoleEntry) :
  in_range (Geometry sk) geo_indices ->
  exists emitted con',
    add_vertex_coincident_constraints geo_indices (sk, con) =
      (Returns tt, (mkSketch (Geometry sk) (Constraints sk ++ emitted), con')) /\
    subsequence emitted
      (pair_plan (grouped (flat_map (endpoints_of_entry sk) geo_indices))) /\
    (quiet -> emitted = pair_plan (grouped (flat_map (endpoints_of_entry sk) geo_indices)) /\
              con' = con).
Proof.
  intros Hr. rewrite (run_add_vertex_coincident_constraints _ _ _ Hr).
  destruct (for_each_constrain_group
              (grouped (flat_map (endpoints_of_entry sk) geo_indices)) sk
              (con ++ flat_map (warning_of_entry sk) geo_indices))
    as (emitted & con' & H1 & H2 & H3).
  exists emitted, con'. split; [exact H1|]. split; [exact H2|].
  intros Hq. destruct (H3 Hq) as [-> ->].
  now rewrite (quiet_no_warning sk geo_indices Hq), app_nil_r.
Qed.

(** C5. The pass takes, for every entry that is not a full circle, the two
    end points the host reports for the geometry created (whatever the edge
    it came from), keys each by its coordinates rounded to 6 places, and
    groups the end points by key: every end point is in one group, the keys
    of the groups differ, and a group holds the end points whose key equals
    its own, in the order they were found. It never raises; it adds, for the
    groups of two members or more and for no other, one Coincident constraint
    between the first two members, whatever the number of members, unless the
    host refuses it. *)
Theorem vertex_coincidence (geo_indices : list (Z * Edge)) (sk : Sketch)
    (con : list ConsoleEntry) :
  in_range (Geometry sk) geo_indices ->
  let endpoints := flat_map (endpoints_of_entry sk) geo_indices in
  let vertex_map := grouped endpoints in
  (forall entry geo flag,
     In entry geo_indices -> index (Geometry sk) (fst entry) = Returns (geo, flag) ->
     match geo with
     | Part.Circle _ _ _ => endpoints_of_entry sk entry = []
     | _ => getPoint_error sk (fst entry) = None ->
            endpoints_of_entry sk entry =
              [((round (Vector.x (point_of geo 1)) 6, round (Vector.y (point_of geo 1)) 6,
                 round (Vector.z (point_of geo 1)) 6), (fst entry, 1%Z));
               ((round (Vector.x (point_of geo 2)) 6, round (Vector.y (point_of geo 2)) 6,
                 round (Vector.z (point_of geo 2)) 6), (fst entry, 2%Z))]
     end) /\
  (forall geo_indices', map fst geo_indices' = map fst geo_indices ->
     add_vertex_coincident_constraints geo_indices' (sk, con) =
     add_vertex_coincident_constraints geo_indices (sk, con)) /\
  Permutation (flat_map snd vertex_map) (map snd endpoints) /\
  distinct_keys vertex_map /\
  (forall key vertex_list,
     In (key, vertex_list) vertex_map -> key_eqb key key = true ->
     vertex_list = map snd (filter (fun endpoint => key_eqb key (fst endpoint)) endpoints)) /\
  (forall key, pair_of_group (key, []) = []) /\
  (forall key v, pair_of_group (key, [v]) = []) /\
  (forall key base other more,
     pair_of_group (key, base :: other :: more) =
       [(Coincident (fst base) (snd base) (fst other) (snd other), true)]) /\
  exists emitted con',
    add_vertex_coincident_constraints geo_indices (sk, con) =
      (Returns tt, (mkSketch (Geometry sk) (Constraints sk ++ emitted), con')) /\
    subsequence emitted (flat_map pair_of_group vertex_map) /\
    (quiet -> emitted = flat_map pair_of_group vertex_map /\ con' = con).
Proof.
  intros Hr endpoints vertex_map.
  split; [|split; [|split; [|split; [|split; [|split; [|split; [|split]]]]]]].
  - intros entry geo flag Hin Hi. unfold endpoints_of_entry. rewrite Hi. cbn [fst].
    destruct geo; cbn [has_StartPoint_EndPoint]; try reflexivity;
      intros ->; reflexivity.
  - intros gi' Hm.
    rewrite !run_add_vertex_coincident_constraints;
      [|exact Hr | exact (in_range_indices _ _ _ Hm Hr)].
    rewrite (flat_map_indices (endpoints_of_entry sk) (endpoints_of_entry sk) geo_indices gi'),
            (flat_map_indices (warning_of_entry sk) (warning_of_entry sk) geo_indices gi');
      auto.
    + intros a b H. unfold warning_of_entry. now rewrite H.
    + intros a b H. unfold endpoints_of_entry. now rewrite H.
  - apply grouped_members.
  - apply grouped_grouping.
  - intros key vertex_list Hin Hrefl.
    destruct (grouped_grouping endpoints) as (_ & Hm & _). now apply Hm.
  - reflexivity.
  - reflexivity.
  - reflexivity.
  - apply (add_vertex_coincident_constraints_runs geo_indices sk con Hr).
Qed.

End VertexPass.

Lemma star_in_range : in_range (Geometry star) star_indices.
Proof. repeat constructor; cbn; lia. Qed.

Lemma vertex_coincidence_witness :
  in_range (Geometry star) star_indices /\
  add_vertex_coincident_constraints (host := quiet_host) star_indices (star, []) =
    (Returns tt, (mkSketch (Geometry star) [(Coincident 0 1 1 1, true)], [])) /\
  Permutation
    (flat_map snd (grouped (flat_map (endpoints_of_entry (host := quiet_host) star)
                                     star_indices)))
    [(0, 1); (0, 2); (1, 1); (1, 2); (2, 1); (2, 2)]%Z.
Proof.
  split; [exact star_in_range|]. split; [vm_compute; reflexivity|].
  apply (vertex_coincidence (host := quiet_host) star_indices star [] star_in_range).
Defined.

(** ** The four passes together *)

Section Passes.

Context {host : Host}.

Lemma flat_map_in_range {B} (f g : Z * Edge -> list B) (geometry : list (Part.Geometry * bool))
    (geo_indices : list (Z * Edge)) :
  in_range geometry geo_indices ->
  (forall entry, (0 <= fst entry < Z.of_nat (List.length geometry))%Z -> f entry = g entry) ->
  flat_map f geo_indices = flat_map g geo_indices.
Proof.
  intros Hr Hfg. induction Hr as [|entry gi Hin Hr IH]; cbn [flat_map]; [reflexivity|].
  now rewrite (Hfg entry Hin), IH.
Qed.

Lemma radius_plan_app (primary added : list (Part.Geometry * bool))
    (geo_indices : list (Z * Edge)) :
  in_range primary geo_indices ->
  radius_plan (primary ++ added) geo_indices = radius_plan primary geo_indices.
Proof.
  intros Hr. apply (flat_map_in_range _ _ primary _ Hr).
  intros entry Hin. unfold radius_of_entry. now rewrite index_app.
Qed.

Lemma distance_plan_app (primary added : list (Part.Geometry * bool))
    (geo_indices : list (Z * Edge)) :
  in_range primary geo_indices ->
  distance_plan (primary ++ added) geo_indices = distance_plan primary geo_indices.
Proof.
  intros Hr. apply (flat_map_in_range _ _ primary _ Hr).
  intros entry Hin. unfold distance_of_entry. now rewrite index_app.
Qed.

(** The constraints the four passes add, in the order they add them. *)
Lemma build_constraint_data_returns (geo_indices : list (Z * Edge)) (sk sk' : Sketch)
    (con con' : list ConsoleEntry) :
  in_range (Geometry sk) geo_indices ->
  build_constraint_data geo_indices (sk, con) = (Returns tt, (sk', con')) ->
  let lines := construction_lines (Geometry sk) geo_indices in
  let first := List.length (Geometry sk) in
  exists emitted,
    subsequence emitted
      (pair_plan (grouped (flat_map (endpoints_of_entry sk) geo_indices))) /\
    Geometry sk' = Geometry sk ++ lines /\
    Constraints sk' =
      Constraints sk ++ emitted
      ++ anchor_constraints (Geometry sk) (Z.of_nat first) geo_indices
      ++ block_plan (indices_from first (List.length lines))
      ++ radius_plan (Geometry sk) geo_indices
      ++ distance_plan (Geometry sk) geo_indices.
Proof.
  intros Hr. unfold build_constraint_data.
  rewrite run_bind.
  destruct (add_vertex_coincident_constraints_runs geo_indices sk con Hr)
    as (emitted & con1 & V & Hsub & _).
  rewrite V. rewrite run_bind.
  set (sk1 := mkSketch (Geometry sk) (Constraints sk ++ emitted)).
  destruct (add_center_construction_lines geo_indices (sk1, con1))
    as [[[]|e] [sk2 con2]] eqn:C; [|discriminate].
  apply (add_center_construction_lines_returns geo_indices sk1 sk2 con1 con2 Hr) in C.
  destruct C as (_ & _ & _ & _ & _ & G2 & C2 & ->). cbn [Geometry Constraints sk1] in G2, C2.
  rewrite run_bind.
  destruct (add_radius_constraints geo_indices (sk2, con1)) as [[[]|e] [sk3 con3]] eqn:R;
    [|discriminate].
  apply add_radius_constraints_returns in R. destruct R as (G3 & -> & C3).
  intros D. apply add_line_distance_constraints_returns in D. destruct D as (G4 & -> & C4).
  exists emitted. split; [exact Hsub|]. split; [congruence|].
  rewrite C4, C3, G3, C2, G2, radius_plan_app, distance_plan_app by exact Hr.
  now rewrite <- !app_assoc.
Qed.

Lemma build_constraint_data_quiet (geo_indices : list (Z * Edge)) (sk : Sketch)
    (con : list ConsoleEntry) :
  quiet -> in_range (Geometry sk) geo_indices ->
  exists sk', build_constraint_data geo_indices (sk, con) = (Returns tt, (sk', con)).
Proof.
  intros Hq Hr. unfold build_constraint_data. rewrite run_bind.
  destruct (add_vertex_coincident_constraints_runs geo_indices sk con Hr)
    as (emitted & con1 & V & _ & Hcon).
  rewrite V. destruct (Hcon Hq) as [_ ->]. rewrite run_bind.
  set (sk1 := mkSketch (Geometry sk) (Constraints sk ++ emitted)).
  destruct (add_center_construction_lines_quiet geo_indices sk1 con Hq Hr) as (sk2 & C).
  rewrite C.
  apply (add_center_construction_lines_returns geo_indices sk1 sk2 con con Hr) in C.
  destruct C as (_ & _ & _ & _ & _ & G2 & _). cbn [Geometry sk1] in G2.
  assert (Hr2 : in_range (Geometry sk2) geo_indices).
  { unfold in_range in *. rewrite Forall_forall in *. intros entry Hin.
    specialize (Hr entry Hin). rewrite G2, length_app. lia. }
  rewrite run_bind.
  destruct (add_radius_constraints_quiet geo_indices sk2 con Hq Hr2) as (sk3 & R).
  rewrite R. apply add_radius_constraints_returns in R. destruct R as (G3 & _ & _).
  apply add_line_distance_constraints_quiet; [exact Hq | now rewrite G3].
Qed.

End Passes.

(** ** Re-projection *)

Section Reprojection.

Context {host : Host}.

(** Building a geometry and adding it to the sketch: the two host calls of
    every [add_..._to_sketch]. *)
Lemma run_add (call : SketchCall) (geo : Part.Geometry) (sk : Sketch) (con : list ConsoleEntry) :
  bind (host_call call) (fun _ => bind (addGeometry geo false) (fun geo_index => ret geo_index))
       (sk, con) =
  match sketch_raises sk call with
  | Some e => (Raises e, (sk, con))
  | None =>
      match sketch_raises sk (sketch_addGeometry geo false) with
      | Some e => (Raises e, (sk, con))
      | None => (Returns (Z.of_nat (List.length (Geometry sk))),
                 (mkSketch (Geometry sk ++ [(geo, false)]) (Constraints sk), con))
      end
  end.
Proof.
  rewrite run_bind. unfold host_call at 1. cbn [fst].
  destruct (sketch_raises sk call); [reflexivity|].
  rewrite run_bind, run_addGeometry.
  destruct (sketch_raises sk (sketch_addGeometry geo false)); reflexivity.
Qed.

Lemma adds_one_run_add (call : SketchCall) (geo : Part.Geometry) :
  adds_one (bind (host_call call)
                 (fun _ => bind (addGeometry geo false) (fun geo_index => ret geo_index))).
Proof.
  intros sk con r sk' con'. rewrite run_add.
  destruct (sketch_raises sk call) as [e|];
    [intros H; injection H as <- <- <-; left; eauto|].
  destruct (sketch_raises sk (sketch_addGeometry geo false)) as [e|];
    intros H; injection H as <- <- <-; [left | right]; eauto.
Qed.

Lemma adds_one_lift {A} (r : result A) (k : A -> SketchM Z) :
  (forall a, adds_one (k a)) -> adds_one (bind (lift r) k).
Proof.
  intros Hk sk con r' sk' con'. rewrite run_bind. unfold lift.
  destruct r as [a|e]; [apply Hk|].
  intros H; injection H as <- <- <-. left; eauto.
Qed.

Lemma adds_one_add_line_to_sketch (edge : Edge) (multVec : Vector -> Vector) :
  adds_one (add_line_to_sketch edge multVec).
Proof.
  unfold add_line_to_sketch.
  apply adds_one_lift; intros p_start. apply adds_one_lift; intros p_end.
  apply adds_one_run_add.
Qed.

Lemma adds_one_add_circle_to_sketch (edge : Edge) (center : Vector) (radius : float)
    (multVec : Vector -> Vector) :
  adds_one (add_circle_to_sketch edge center radius multVec).
Proof.
  unfold add_circle_to_sketch.
  destruct (abs (Length edge - 2 * 3.141592653589793 * radius) <? 0.01)%float.
  - apply adds_one_run_add.
  - apply adds_one_lift; intros p_start. apply adds_one_lift; intros p_end.
    apply adds_one_run_add.
Qed.

Lemma adds_one_add_bspline_to_sketch (poles : list Vector) (mults : list Z)
    (knots : list float) (periodic : bool) (degree : Z) (multVec : Vector -> Vector) :
  adds_one (add_bspline_to_sketch poles mults knots periodic degree multVec).
Proof. unfold add_bspline_to_sketch. apply adds_one_run_add. Qed.

(** One turn of the loop over the edges: it never raises, and either records
    the index of the one geometry it added or leaves the sketch as it was. *)
Lemma run_add_edge (multVec : Vector -> Vector) (acc : list (Z * Edge)) (edge : Edge)
    (sk : Sketch) (con : list ConsoleEntry) :
  exists acc' sk' con',
    add_edge multVec acc edge (sk, con) = (Returns acc', (sk', con')) /\
    ((acc' = acc /\ sk' = sk) \/
     (exists geo, acc' = acc ++ [(Z.of_nat (List.length (Geometry sk)), edge)] /\
                  sk' = mkSketch (Geometry sk ++ [(geo, false)]) (Constraints sk))).
Proof.
  unfold add_edge, try_except. rewrite run_bind.
  assert (H : forall (m : SketchM Z) con0, adds_one m ->
            exists acc' sk' con',
              match
                match m (sk, con0) with
                | (Returns a, s') => ret (acc ++ [(a, edge)]) s'
                | (Raises e, s') => (Raises e, s')
                end
              with
              | (Returns a, s') => (Returns a, s')
              | (Raises e, s') =>
                  bind (print (PrintWarning (msg_failed_edge e))) (fun _ => ret acc) s'
              end = (Returns acc', (sk', con')) /\
              ((acc' = acc /\ sk' = sk) \/
               (exists geo, acc' = acc ++ [(Z.of_nat (List.length (Geometry sk)), edge)] /\
                            sk' = mkSketch (Geometry sk ++ [(geo, false)]) (Constraints sk)))).
  { intros m con0 Hm. destruct (m (sk, con0)) as [r [sk1 con1]] eqn:E.
    destruct (Hm _ _ _ _ _ E) as [(e & -> & ->) | (geo & -> & ->)].
    - rewrite run_bind, run_print. unfold ret. eauto 10.
    - unfold ret. eauto 10. }
  destruct (Curve_ edge) as [|center axis radius|poles mults knots periodic degree|name].
  - apply H, adds_one_add_line_to_sketch.
  - apply H, adds_one_add_circle_to_sketch.
  - apply H, adds_one_add_bspline_to_sketch.
  - rewrite run_bind, run_print. apply H, adds_one_add_line_to_sketch.
Qed.

(** The loop over the edges: it never raises, it adds geometries that are not
    construction geometries, touches no constraint, and records the index of
    every geometry it added, in order. *)
Lemma fold_add_edge (multVec : Vector -> Vector) (edges : list Edge) (acc : list (Z * Edge))
    (sk : Sketch) (con : list ConsoleEntry) :
  exists geo_indices primary con',
    fold_for edges acc (add_edge multVec) (sk, con) =
      (Returns geo_indices, (mkSketch (Geometry sk ++ primary) (Constraints sk), con')) /\
    map fst geo_indices =
      map fst acc ++ indices_from (List.length (Geometry sk)) (List.length primary) /\
    Forall (fun g => snd g = false) primary.
Proof.
  revert acc sk con. induction edges as [|edge edges IH]; intros acc sk con; cbn [fold_for].
  - exists acc, [], con. unfold ret. rewrite !app_nil_r. destruct sk. auto.
  - rewrite run_bind.
    destruct (run_add_edge multVec acc edge sk con)
      as (acc' & sk' & con' & -> & [[-> ->] | (geo & -> & ->)]).
    + apply IH.
    + destruct (IH (acc ++ [(Z.of_nat (List.length (Geometry sk)), edge)])
                   (mkSketch (Geometry sk ++ [(geo, false)]) (Constraints sk)) con')
        as (gi & primary & con'' & F & Hm & Hp).
      cbn [Geometry Constraints] in *.
      exists gi, ((geo, false) :: primary), con''. split; [|split].
      * rewrite F. now rewrite <- app_assoc.
      * rewrite Hm, map_app, length_app. cbn [map fst List.length].
        rewrite <- app_assoc. cbn [app]. rewrite indices_from_S.
        now replace (List.length (Geometry sk) + 1)%nat with (S (List.length (Geometry sk)))
          by lia.
      * constructor; auto.
Qed.

Lemma indices_from_in (first count : nat) (i : Z) :
  In i (indices_from first count) <->
  (Z.of_nat first <= i < Z.of_nat (first + count))%Z.
Proof.
  unfold indices_from. rewrite in_map_iff. split.
  - intros (n & <- & Hn). apply in_seq in Hn. lia.
  - intros H. exists (Z.to_nat i). split; [lia|]. apply in_seq. lia.
Qed.

Lemma indices_in_range (geometry primary : list (Part.Geometry * bool))
    (geo_indices : list (Z * Edge)) :
  map fst geo_indices = indices_from (List.length geometry) (List.length primary) ->
  in_range (geometry ++ primary) geo_indices.
Proof.
  intros Hm. unfold in_range. rewrite Forall_forall. intros entry Hin.
  assert (H : In (fst entry) (map fst geo_indices)) by now apply in_map.
  rewrite Hm in H. apply indices_from_in in H. rewrite length_app. lia.
Qed.

End Reprojection.

(** C7. An edge on a circle is compared, by its length, with
    [2 * 3.141592653589793 * radius]: when the two differ by less than 0.01
    the sketch gets the full circle of the transformed centre, axis +Z and
    the same radius; otherwise it gets the arc through the transformed start
    point, the transformed point of the edge at the middle of its parameter
    range, and the transformed end point. Either way the entry is the next
    geometry of the sketch, unless the host refuses it. *)
Theorem circle_or_arc {host : Host} (edge : Edge) (center : Vector) (radius : float)
    (multVec : Vector -> Vector) (sk : Sketch) (con : list ConsoleEntry) :
  let full_circle_length := (2 * 3.141592653589793 * radius)%float in
  let run := add_circle_to_sketch edge center radius multVec (sk, con) in
  let added geo :=
    (Returns (Z.of_nat (List.length (Geometry sk))),
     (mkSketch (Geometry sk ++ [(geo, false)]) (Constraints sk), con)) in
  (forall axis (geo_indices : list (Z * Edge)),
     Curve_ edge = Circle center axis radius ->
     add_edge multVec geo_indices edge (sk, con) =
     match run with
     | (Returns geo_index, s) => (Returns (geo_indices ++ [(geo_index, edge)]), s)
     | (Raises e, (sk', con')) =>
         (Returns geo_indices, (sk', con' ++ [PrintWarning (msg_failed_edge e)]))
     end) /\
  ((abs (Length edge - full_circle_length) <? 0.01)%float = true ->
   let circle := Part.Circle (multVec center) (Vector.mk 0 0 1) radius in
   run = match sketch_raises sk (Part_Circle (multVec center) (Vector.mk 0 0 1) radius) with
         | Some e => (Raises e, (sk, con))
         | None => match sketch_raises sk (sketch_addGeometry circle false) with
                   | Some e => (Raises e, (sk, con))
                   | None => added circle
                   end
         end) /\
  ((abs (Length edge - full_circle_length) <? 0.01)%float = false ->
   forall p_start p_end,
     index (Vertexes edge) 0 = Returns p_start ->
     index (Vertexes edge) (-1) = Returns p_end ->
     let v_start := multVec p_start in
     let v_end := multVec p_end in
     let mid_param := ((fst (ParameterRange edge) + snd (ParameterRange edge)) / 2)%float in
     let v_mid := multVec (valueAt edge mid_param) in
     let arc := let '(c, r, s, e) := arc_through v_start v_mid v_end in
                Part.ArcOfCircle c r s e in
     run = match sketch_raises sk (Part_ArcOfCircle v_start v_mid v_end) with
           | Some e => (Raises e, (sk, con))
           | None => match sketch_raises sk (sketch_addGeometry arc false) with
                     | Some e => (Raises e, (sk, con))
                     | None => added arc
                     end
           end).
Proof.
  intros full_circle_length run added. split; [|split].
  - intros axis geo_indices Hc. unfold add_edge, try_except. rewrite run_bind, Hc.
    fold run. destruct run as [[geo_index|e] [sk' con']]; reflexivity.
  - intros Hfull circle. subst run. unfold add_circle_to_sketch.
    fold full_circle_length. rewrite Hfull. apply run_add.
  - intros Harc p_start p_end Hs He v_start v_end mid_param v_mid arc.
    subst run. unfold add_circle_to_sketch. fold full_circle_length. rewrite Harc.
    rewrite run_bind. unfold lift at 1. rewrite Hs.
    rewrite run_bind. unfold lift at 1. rewrite He.
    apply run_add.
Qed.

(** C3. For an arc or a circle whose centre is farther than the tolerance
    from the origin the pass adds one construction line from the centre to
    the origin and two Coincident constraints: the start of the line on the
    centre (point 3) of the entry, its end on the origin (point 1 of geometry
    -1). For one whose centre is within the tolerance it adds no line and one
    Coincident constraint, of the centre on the origin. Other entries get
    nothing. The Block constraints, one for each line, come after all of
    that: when the first is added the sketch holds every construction
    line. With a host that raises nothing the pass returns. *)
Theorem center_anchoring {host : Host} (geo_indices : list (Z * Edge)) (sk : Sketch)
    (con : list ConsoleEntry) :
  in_range (Geometry sk) geo_indices ->
  let geometry := Geometry sk in
  let first := List.length geometry in
  let lines := flat_map (line_of_entry geometry) geo_indices in
  let line_indices := indices_from first (List.length lines) in
  let anchors := anchor_constraints geometry (Z.of_nat first) geo_indices in
  let blocks := map (fun line_idx => (Block line_idx, true)) line_indices in
  (forall entry center,
     center_of_entry geometry entry = Some center ->
     (gt (Vector.Length center) tolerance = true ->
      line_of_entry geometry entry = [(Part.LineSegment center origin, true)] /\
      forall line_idx rest,
        anchor_constraints geometry line_idx (entry :: rest) =
          (Coincident line_idx 1 (fst entry) 3, true)
          :: (Coincident line_idx 2 (-1) 1, true)
          :: anchor_constraints geometry (line_idx + 1) rest) /\
     (gt (Vector.Length center) tolerance = false ->
      line_of_entry geometry entry = [] /\
      forall line_idx rest,
        anchor_constraints geometry line_idx (entry :: rest) =
          (Coincident (fst entry) 3 (-1) 1, true) :: anchor_constraints geometry line_idx rest)) /\
  (forall entry,
     center_of_entry geometry entry = None ->
     line_of_entry geometry entry = [] /\
     forall line_idx rest,
       anchor_constraints geometry line_idx (entry :: rest) =
         anchor_constraints geometry line_idx rest) /\
  (forall sk' con',
     add_center_construction_lines geo_indices (sk, con) = (Returns tt, (sk', con')) ->
     Geometry sk' = geometry ++ lines /\
     Constraints sk' = Constraints sk ++ anchors ++ blocks /\
     con' = con /\
     exists mid,
       fold_for geo_indices [] center_line (sk, con) = (Returns line_indices, (mid, con)) /\
       Geometry mid = Geometry sk' /\
       Constraints mid = Constraints sk ++ anchors /\
       for_each line_indices block_line (mid, con) = (Returns tt, (sk', con'))) /\
  (quiet ->
   exists sk', add_center_construction_lines geo_indices (sk, con) = (Returns tt, (sk', con))).
Proof.
  intros Hr geometry first lines line_indices anchors blocks.
  split; [|split; [|split]].
  - intros entry center Hc. fold (far_from_origin center). split; intros Hfar.
    + unfold line_of_entry. cbn [anchor_constraints]. rewrite Hc, Hfar. auto.
    + unfold line_of_entry. cbn [anchor_constraints]. rewrite Hc, Hfar. auto.
  - intros entry Hc. unfold line_of_entry. cbn [anchor_constraints]. rewrite Hc. auto.
  - intros sk' con' H.
    destruct (add_center_construction_lines_returns geo_indices sk sk' con con' Hr H)
      as (mid & F & B & G1 & C1 & G2 & C2 & ->).
    repeat split; auto.
    exists mid. repeat split; auto. congruence.
  - intros Hq. now apply add_center_construction_lines_quiet.
Qed.

Lemma two_circles_in_range : in_range (Geometry two_circles) two_circles_indices.
Proof. repeat constructor; cbn; lia. Qed.

Lemma center_anchoring_witness :
  in_range (Geometry two_circles) two_circles_indices /\
  (exists sk', add_center_construction_lines (host := quiet_host) two_circles_indices
                 (two_circles, []) = (Returns tt, (sk', []))) /\
  forall sk' con',
    add_center_construction_lines (host := quiet_host) two_circles_indices (two_circles, []) =
      (Returns tt, (sk', con')) ->
    Geometry sk' = Geometry two_circles ++ [(Part.LineSegment (V 3 4 0) origin, true)] /\
    Constraints sk' =
      [(Coincident 3 1 0 3, true); (Coincident 3 2 (-1) 1, true);
       (Coincident 1 3 (-1) 1, true); (Block 3, true)].
Proof.
  destruct (center_anchoring (host := quiet_host) two_circles_indices two_circles []
              two_circles_in_range) as (_ & _ & Hreturns & Hquiet).
  split; [exact two_circles_in_range|]. split.
  - apply Hquiet. intros sk c. reflexivity.
  - intros sk' con' H. destruct (Hreturns sk' con' H) as (G & C & _).
    split; [exact G | exact C].
Defined.

(** ** Which constraints refer to which geometry *)

Lemma subsequence_Forall {A} (P : A -> Prop) (l l' : list A) :
  subsequence l l' -> Forall P l' -> Forall P l.
Proof.
  induction 1 as [|l l' a _ IH|l l' a _ IH]; intros H; [constructor| |];
    inversion H; subst; [|constructor]; auto.
Qed.

Lemma filter_Forall_false {A} (f : A -> bool) (l : list A) :
  Forall (fun a => f a = false) l -> filter f l = [].
Proof. intros H. apply filter_none. now apply Forall_forall. Qed.

Section Mentions.

Context {host : Host}.

Lemma construction_lines_far (geometry : list (Part.Geometry * bool))
    (geo_indices : list (Z * Edge)) :
  construction_lines geometry geo_indices =
  map (fun gc => (Part.LineSegment (snd gc) origin, true)) (far_entries geometry geo_indices).
Proof.
  unfold construction_lines, far_entries.
  induction geo_indices as [|entry gi IH]; cbn [flat_map map]; [reflexivity|].
  rewrite map_app, IH. f_equal. unfold line_of_entry.
  destruct (center_of_entry geometry entry) as [center|]; [|reflexivity].
  destruct (far_from_origin center); reflexivity.
Qed.

Lemma anchors_are_Coincident (geometry : list (Part.Geometry * bool)) (line_idx : Z)
    (geo_indices : list (Z * Edge)) :
  Forall (fun c => is_Coincident (fst c) = true)
         (anchor_constraints geometry line_idx geo_indices).
Proof.
  revert line_idx. induction geo_indices as [|entry gi IH]; intros line_idx;
    cbn [anchor_constraints]; [constructor|].
  destruct (center_of_entry geometry entry) as [center|]; [|apply IH].
  destruct (far_from_origin center); repeat constructor; apply IH.
Qed.

Lemma pair_plan_is_Coincident (vertex_map : VertexMap) :
  Forall (fun c => is_Coincident (fst c) = true) (pair_plan vertex_map).
Proof.
  unfold pair_plan. induction vertex_map as [|[key vs] vm IH]; cbn [flat_map]; [constructor|].
  apply Forall_app. split; [|exact IH].
  unfold pair_of_group. cbn [snd]. destruct vs as [|base [|other more]]; repeat constructor.
Qed.

(** The anchors name no geometry below the first line, other than entries. *)
Lemma anchors_not_mentioned (geometry : list (Part.Geometry * bool)) (geo_idx : Z)
    (geo_indices : list (Z * Edge)) :
  (0 <= geo_idx)%Z ->
  Forall (fun entry => fst entry <> geo_idx) geo_indices ->
  forall line_idx, (geo_idx < line_idx)%Z ->
    filter (fun c => mentions geo_idx (fst c))
           (anchor_constraints geometry line_idx geo_indices) = [].
Proof.
  intros Hpos. induction 1 as [|entry gi Hne _ IH]; intros line_idx Hlt;
    cbn [anchor_constraints]; [reflexivity|].
  destruct (center_of_entry geometry entry) as [center|]; [|now apply IH].
  destruct (far_from_origin center); cbn [filter mentions fst].
  - replace (line_idx =? geo_idx)%Z with false by (symmetry; apply Z.eqb_neq; lia).
    replace (fst entry =? geo_idx)%Z with false by (symmetry; now apply Z.eqb_neq).
    replace (-1 =? geo_idx)%Z with false by (symmetry; apply Z.eqb_neq; lia).
    cbn [orb]. apply IH. lia.
  - replace (fst entry =? geo_idx)%Z with false by (symmetry; now apply Z.eqb_neq).
    replace (-1 =? geo_idx)%Z with false by (symmetry; apply Z.eqb_neq; lia).
    cbn [orb]. now apply IH.
Qed.

(** The anchors that name the line number [k]: the two that tie its ends. *)
Lemma anchors_of_line (geometry : list (Part.Geometry * bool)) (geo_indices : list (Z * Edge)) :
  forall (first : Z) (k : nat),
    Forall (fun entry => (0 <= fst entry < first)%Z) geo_indices ->
    filter (fun c => mentions (first + Z.of_nat k) (fst c))
           (anchor_constraints geometry first geo_indices) =
    match nth_error (far_entries geometry geo_indices) k with
    | Some (geo_idx, _) =>
        [(Coincident (first + Z.of_nat k) 1 geo_idx 3, true);
         (Coincident (first + Z.of_nat k) 2 (-1) 1, true)]
    | None => []
    end.
Proof.
  induction geo_indices as [|entry gi IH]; intros first k Hr.
  - cbn. now destruct k.
  - inversion Hr as [|? ? Hin Hr']; subst.
    cbn [anchor_constraints far_entries flat_map].
    fold (far_entries geometry gi).
    destruct (center_of_entry geometry entry) as [center|]; [|cbn [app]; now apply IH].
    destruct (far_from_origin center); cbn [app filter mentions fst].
    + replace (fst entry =? first + Z.of_nat k)%Z with false
        by (symmetry; apply Z.eqb_neq; lia).
      replace (-1 =? first + Z.of_nat k)%Z with false by (symmetry; apply Z.eqb_neq; lia).
      rewrite !orb_false_r.
      destruct k as [|k]; cbn [nth_error].
      * replace (first + Z.of_nat 0)%Z with first by lia. rewrite Z.eqb_refl.
        f_equal. f_equal. apply anchors_not_mentioned; [lia | | lia].
        eapply Forall_impl; [|exact Hr']. cbn beta. intros a Ha. lia.
      * replace (first =? first + Z.of_nat (S k))%Z with false
          by (symmetry; apply Z.eqb_neq; lia).
        replace (first + Z.of_nat (S k))%Z with (first + 1 + Z.of_nat k)%Z by lia.
        apply IH. eapply Forall_impl; [|exact Hr']. cbn beta. intros a Ha. lia.
    + replace (fst entry =? first + Z.of_nat k)%Z with false
        by (symmetry; apply Z.eqb_neq; lia).
      replace (-1 =? first + Z.of_nat k)%Z with false by (symmetry; apply Z.eqb_neq; lia).
      cbn [orb]. now apply IH.
Qed.

Lemma blocks_of_line (first count k : nat) :
  filter (fun c => mentions (Z.of_nat first + Z.of_nat k) (fst c))
         (block_plan (indices_from first count)) =
  if (k <? count)%nat then [(Block (Z.of_nat first + Z.of_nat k), true)] else [].
Proof.
  revert first k. induction count as [|count IH]; intros first k.
  - reflexivity.
  - rewrite indices_from_S. cbn [block_plan map filter mentions fst].
    fold (block_plan (indices_from (S first) count)).
    destruct k as [|k].
    + replace (Z.of_nat first + Z.of_nat 0)%Z with (Z.of_nat first) by lia.
      rewrite Z.eqb_refl. cbn [Nat.ltb Nat.leb]. f_equal.
      apply filter_Forall_false. unfold block_plan, indices_from.
      rewrite Forall_map, Forall_map. apply Forall_forall. intros n Hn.
      apply in_seq in Hn. cbn [mentions fst]. apply Z.eqb_neq. lia.
    + replace (Z.of_nat first =? Z.of_nat first + Z.of_nat (S k))%Z with false
        by (symmetry; apply Z.eqb_neq; lia).
      replace (Z.of_nat first + Z.of_nat (S k))%Z with (Z.of_nat (S first) + Z.of_nat k)%Z
        by lia.
      rewrite IH. reflexivity.
Qed.

Lemma radius_plan_mentions (geometry : list (Part.Geometry * bool))
    (geo_indices : list (Z * Edge)) (geo_idx : Z) :
  Forall (fun entry => fst entry <> geo_idx) geo_indices ->
  Forall (fun c => mentions geo_idx (fst c) = false) (radius_plan geometry geo_indices).
Proof.
  unfold radius_plan. induction 1 as [|entry gi Hne _ IH]; cbn [flat_map]; [constructor|].
  apply Forall_app. split; [|exact IH]. unfold radius_of_entry.
  destruct (index geometry (fst entry)) as [g|]; [|constructor].
  destruct (radius_of (fst g)); repeat constructor. cbn. now apply Z.eqb_neq.
Qed.

Lemma distance_plan_mentions (geometry : list (Part.Geometry * bool))
    (geo_indices : list (Z * Edge)) (geo_idx : Z) :
  Forall (fun entry => fst entry <> geo_idx) geo_indices ->
  Forall (fun c => mentions geo_idx (fst c) = false) (distance_plan geometry geo_indices).
Proof.
  unfold distance_plan. induction 1 as [|entry gi Hne _ IH]; cbn [flat_map]; [constructor|].
  apply Forall_app. split; [|exact IH]. unfold distance_of_entry.
  destruct (index geometry (fst entry)) as [g|]; [|constructor].
  destruct (fst g); repeat constructor. cbn. now apply Z.eqb_neq.
Qed.

(** The members of the groups are end points of entries. *)
Lemma endpoints_indices (sk : Sketch) (geo_indices : list (Z * Edge)) (geo_idx : Z) :
  Forall (fun entry => fst entry <> geo_idx) geo_indices ->
  Forall (fun v => fst v <> geo_idx)
         (map snd (flat_map (endpoints_of_entry sk) geo_indices)).
Proof.
  induction 1 as [|entry gi Hne _ IH]; cbn [flat_map map]; [constructor|].
  rewrite map_app. apply Forall_app. split; [|exact IH]. unfold endpoints_of_entry.
  destruct (index (Geometry sk) (fst entry)) as [g|]; [|constructor].
  destruct (has_StartPoint_EndPoint (fst g)); [|constructor].
  destruct (getPoint_error sk (fst entry)); repeat constructor; exact Hne.
Qed.

Lemma pair_plan_mentions (vertex_map : VertexMap) (geo_idx : Z) :
  Forall (fun v => fst v <> geo_idx) (flat_map snd vertex_map) ->
  Forall (fun c => mentions geo_idx (fst c) = false) (pair_plan vertex_map).
Proof.
  unfold pair_plan. induction vertex_map as [|[key vs] vm IH]; cbn [flat_map snd];
    [constructor|].
  intros H. apply Forall_app in H as [H1 H2]. apply Forall_app. split; [|now apply IH].
  unfold pair_of_group. cbn [snd]. destruct vs as [|base [|other more]]; try constructor;
    [|constructor].
  inversion H1 as [|? ? Hb H1']; subst. inversion H1' as [|? ? Ho _]; subst.
  cbn [mentions fst]. apply orb_false_iff. split; now apply Z.eqb_neq.
Qed.

Lemma emitted_mentions (sk : Sketch) (geo_indices : list (Z * Edge)) (geo_idx : Z)
    (emitted : list (Constraint * bool)) :
  Forall (fun entry => fst entry <> geo_idx) geo_indices ->
  subsequence emitted (pair_plan (grouped (flat_map (endpoints_of_entry sk) geo_indices))) ->
  Forall (fun c => mentions geo_idx (fst c) = false) emitted.
Proof.
  intros Hne Hsub. eapply subsequence_Forall; [exact Hsub|].
  apply pair_plan_mentions.
  eapply Permutation_Forall; [symmetry; apply grouped_members|].
  now apply endpoints_indices.
Qed.

End Mentions.

(** ** From the edges to the constrained sketch *)

Section EndToEnd.

Context {host : Host}.

Lemma far_entries_in (geometry : list (Part.Geometry * bool)) (geo_indices : list (Z * Edge))
    (geo_idx : Z) (center : Vector) :
  In (geo_idx, center) (far_entries geometry geo_indices) ->
  exists edge, In (geo_idx, edge) geo_indices /\
               center_of_entry geometry (geo_idx, edge) = Some center /\
               far_from_origin center = true.
Proof.
  unfold far_entries. rewrite in_flat_map. intros ([g edge] & Hin & H).
  destruct (center_of_entry geometry (g, edge)) as [c|] eqn:Hc; [|destruct H].
  destruct (far_from_origin c) eqn:Hfar; [|destruct H].
  destruct H as [H | []]. injection H as <- <-. now exists edge.
Qed.

Lemma indices_from_NoDup (first count : nat) : NoDup (indices_from first count).
Proof.
  revert first. induction count as [|count IH]; intros first; [constructor|].
  rewrite indices_from_S. constructor; [|apply IH].
  rewrite indices_from_in. lia.
Qed.

Lemma index_primary (geometry primary : list (Part.Geometry * bool)) (k : nat)
    (g : Part.Geometry * bool) :
  nth_error primary k = Some g ->
  index (geometry ++ primary) (Z.of_nat (List.length geometry + k)) = Returns g.
Proof.
  intros H. unfold index.
  destruct (Z.of_nat (List.length geometry + k) <? 0)%Z eqn:E; [apply Z.ltb_lt in E; lia|].
  rewrite E, Nat2Z.id, nth_error_app2 by lia.
  replace (List.length geometry + k - List.length geometry)%nat with k by lia.
  now rewrite H.
Qed.

Lemma radius_plan_of (geometry : list (Part.Geometry * bool)) (geo_indices : list (Z * Edge))
    (geo_idx : Z) :
  NoDup (map fst geo_indices) -> In geo_idx (map fst geo_indices) ->
  filter (fun c => is_Radius_of geo_idx (fst c)) (radius_plan geometry geo_indices) =
  match index geometry geo_idx with
  | Returns g => match radius_of (fst g) with
                 | Some radius => [(Radius geo_idx radius, true)]
                 | None => []
                 end
  | Raises _ => []
  end.
Proof.
  unfold radius_plan.
  assert (Hout : forall gi, ~ In geo_idx (map fst gi) ->
            filter (fun c => is_Radius_of geo_idx (fst c))
                   (flat_map (radius_of_entry geometry) gi) = []).
  { induction gi as [|entry gi IH]; cbn [flat_map map]; [reflexivity|].
    intros Hn. rewrite filter_app, IH, app_nil_r by (intros H; apply Hn; now right).
    unfold radius_of_entry. destruct (index geometry (fst entry)) as [g|]; [|reflexivity].
    destruct (radius_of (fst g)); [|reflexivity]. cbn [filter is_Radius_of fst].
    replace (fst entry =? geo_idx)%Z with false; [reflexivity|].
    symmetry. apply Z.eqb_neq. intros H. apply Hn. now left. }
  induction geo_indices as [|entry gi IH]; cbn [flat_map map]; intros Hd Hin; [destruct Hin|].
  inversion Hd as [|? ? Hnotin Hd']; subst. rewrite filter_app.
  destruct Hin as [<- | Hin].
  - rewrite (Hout gi Hnotin), app_nil_r. unfold radius_of_entry.
    destruct (index geometry (fst entry)) as [g|]; [|reflexivity].
    destruct (radius_of (fst g)); [|reflexivity]. cbn [filter is_Radius_of fst].
    now rewrite Z.eqb_refl.
  - rewrite (IH Hd' Hin).
    replace (filter _ (radius_of_entry geometry entry)) with (@nil (Constraint * bool));
      [reflexivity|].
    unfold radius_of_entry. destruct (index geometry (fst entry)) as [g|]; [|reflexivity].
    destruct (radius_of (fst g)); [|reflexivity]. cbn [filter is_Radius_of fst].
    replace (fst entry =? geo_idx)%Z with false; [reflexivity|].
    symmetry. apply Z.eqb_neq. intros H. apply Hnotin. now rewrite H.
Qed.

Lemma distance_plan_of (geometry : list (Part.Geometry * bool))
    (geo_indices : list (Z * Edge)) (geo_idx : Z) :
  NoDup (map fst geo_indices) -> In geo_idx (map fst geo_indices) ->
  filter (fun c => is_Distance_of geo_idx (fst c)) (distance_plan geometry geo_indices) =
  match index geometry geo_idx with
  | Returns g =>
      match fst g with
      | Part.LineSegment _ _ =>
          [(Distance geo_idx
                     (Vector.distanceToPoint (point_of (fst g) 1) (point_of (fst g) 2)), false)]
      | _ => []
      end
  | Raises _ => []
  end.
Proof.
  unfold distance_plan.
  assert (Hout : forall gi, ~ In geo_idx (map fst gi) ->
            filter (fun c => is_Distance_of geo_idx (fst c))
                   (flat_map (distance_of_entry geometry) gi) = []).
  { induction gi as [|entry gi IH]; cbn [flat_map map]; [reflexivity|].
    intros Hn. rewrite filter_app, IH, app_nil_r by (intros H; apply Hn; now right).
    unfold distance_of_entry. destruct (index geometry (fst entry)) as [g|]; [|reflexivity].
    destruct (fst g); try reflexivity. cbn [filter is_Distance_of fst].
    replace (fst entry =? geo_idx)%Z with false; [reflexivity|].
    symmetry. apply Z.eqb_neq. intros H. apply Hn. now left. }
  induction geo_indices as [|entry gi IH]; cbn [flat_map map]; intros Hd Hin; [destruct Hin|].
  inversion Hd as [|? ? Hnotin Hd']; subst. rewrite filter_app.
  destruct Hin as [<- | Hin].
  - rewrite (Hout gi Hnotin), app_nil_r. unfold distance_of_entry.
    destruct (index geometry (fst entry)) as [g|]; [|reflexivity].
    destruct (fst g); try reflexivity. cbn [filter is_Distance_of fst].
    now rewrite Z.eqb_refl.
  - rewrite (IH Hd' Hin).
    replace (filter _ (distance_of_entry geometry entry)) with (@nil (Constraint * bool));
      [reflexivity|].
    unfold distance_of_entry. destruct (index geometry (fst entry)) as [g|]; [|reflexivity].
    destruct (fst g); try reflexivity. cbn [filter is_Distance_of fst].
    replace (fst entry =? geo_idx)%Z with false; [reflexivity|].
    symmetry. apply Z.eqb_neq. intros H. apply Hnotin. now rewrite H.
Qed.

Lemma Coincident_not_Radius (geo_idx : Z) (l : list (Constraint * bool)) :
  Forall (fun c => is_Coincident (fst c) = true) l ->
  filter (fun c => is_Radius_of geo_idx (fst c)) l = [] /\
  filter (fun c => is_Distance_of geo_idx (fst c)) l = [].
Proof.
  intros H. split; apply filter_Forall_false; eapply Forall_impl; try exact H;
    intros [[] d]; cbn; congruence.
Qed.

Lemma Block_not_Radius (geo_idx : Z) (line_indices : list Z) :
  filter (fun c => is_Radius_of geo_idx (fst c)) (block_plan line_indices) = [] /\
  filter (fun c => is_Distance_of geo_idx (fst c)) (block_plan line_indices) = [].
Proof.
  split; apply filter_Forall_false; unfold block_plan; rewrite Forall_map;
    apply Forall_forall; reflexivity.
Qed.

Lemma radius_plan_not_Distance (geometry : list (Part.Geometry * bool))
    (geo_indices : list (Z * Edge)) (geo_idx : Z) :
  filter (fun c => is_Distance_of geo_idx (fst c)) (radius_plan geometry geo_indices) = [].
Proof.
  apply filter_Forall_false. unfold radius_plan.
  induction geo_indices as [|entry gi IH]; cbn [flat_map]; [constructor|].
  apply Forall_app. split; [|exact IH]. unfold radius_of_entry.
  destruct (index geometry (fst entry)) as [g|]; [|constructor].
  destruct (radius_of (fst g)); repeat constructor.
Qed.

Lemma distance_plan_not_Radius (geometry : list (Part.Geometry * bool))
    (geo_indices : list (Z * Edge)) (geo_idx : Z) :
  filter (fun c => is_Radius_of geo_idx (fst c)) (distance_plan geometry geo_indices) = [].
Proof.
  apply filter_Forall_false. unfold distance_plan.
  induction geo_indices as [|entry gi IH]; cbn [flat_map]; [constructor|].
  apply Forall_app. split; [|exact IH]. unfold distance_of_entry.
  destruct (index geometry (fst entry)) as [g|]; [|constructor].
  destruct (fst g); repeat constructor.
Qed.

(** What [add_geometry_to_sketch] leaves in a sketch it returns from: the
    geometries of the re-projection, whose indices it recorded, then the
    construction lines; and the constraints of the four passes. *)
Lemma add_geometry_to_sketch_returns (edges : list Edge) (multVec : Vector -> Vector)
    (sk0 sk' : Sketch) (con0 con' : list ConsoleEntry) :
  add_geometry_to_sketch edges multVec (sk0, con0) = (Returns tt, (sk', con')) ->
  exists geo_indices primary con1 emitted,
    let sk1 := mkSketch (Geometry sk0 ++ primary) (Constraints sk0) in
    let first := List.length (Geometry sk1) in
    let lines := construction_lines (Geometry sk1) geo_indices in
    fold_for edges [] (add_edge multVec) (sk0, con0) = (Returns geo_indices, (sk1, con1)) /\
    build_constraint_data geo_indices (sk1, con1) = (Returns tt, (sk', con')) /\
    map fst geo_indices = indices_from (List.length (Geometry sk0)) (List.length primary) /\
    Forall (fun g => snd g = false) primary /\
    in_range (Geometry sk1) geo_indices /\
    subsequence emitted
      (pair_plan (grouped (flat_map (endpoints_of_entry sk1) geo_indices))) /\
    Geometry sk' = Geometry sk1 ++ lines /\
    Constraints sk' =
      Constraints sk0 ++ emitted
      ++ anchor_constraints (Geometry sk1) (Z.of_nat first) geo_indices
      ++ block_plan (indices_from first (List.length lines))
      ++ radius_plan (Geometry sk1) geo_indices
      ++ distance_plan (Geometry sk1) geo_indices.
Proof.
  unfold add_geometry_to_sketch. rewrite run_bind.
  destruct (fold_add_edge multVec edges [] sk0 con0) as (gi & primary & con1 & F & Hm & Hp).
  rewrite F. cbn [map app] in Hm. intros B.
  pose proof (indices_in_range _ _ _ Hm) as Hr.
  destruct (build_constraint_data_returns gi
              (mkSketch (Geometry sk0 ++ primary) (Constraints sk0)) sk' con1 con' Hr B)
    as (emitted & Hsub & G & C).
  exists gi, primary, con1, emitted. cbn zeta. cbn [Geometry Constraints] in *.
  repeat split; auto.
Qed.

End EndToEnd.

(** C9. In the sketch [add_geometry_to_sketch] returns, every geometry the
    re-projection created has, among the constraints added, exactly one
    Radius constraint when it is an arc or a circle, driving and valued with
    the radius of the geometry as the sketch holds it, and none otherwise;
    and exactly one Distance constraint when it is a segment, not driving and
    valued with the distance between its two points as the host reports
    them, and none otherwise. *)
Theorem radius_and_distance_constraints {host : Host} (edges : list Edge)
    (multVec : Vector -> Vector) (sk0 sk' : Sketch) (con0 con' : list ConsoleEntry) :
  add_geometry_to_sketch edges multVec (sk0, con0) = (Returns tt, (sk', con')) ->
  exists geo_indices primary lines added con1,
    fold_for edges [] (add_edge multVec) (sk0, con0) =
      (Returns geo_indices, (mkSketch (Geometry sk0 ++ primary) (Constraints sk0), con1)) /\
    map fst geo_indices = indices_from (List.length (Geometry sk0)) (List.length primary) /\
    Geometry sk' = Geometry sk0 ++ primary ++ lines /\
    Constraints sk' = Constraints sk0 ++ added /\
    forall k geo flag,
      nth_error primary k = Some (geo, flag) ->
      let geo_idx := Z.of_nat (List.length (Geometry sk0) + k) in
      filter (fun c => is_Radius_of geo_idx (fst c)) added =
        match geo with
        | Part.ArcOfCircle _ radius _ _ => [(Radius geo_idx radius, true)]
        | Part.Circle _ _ radius => [(Radius geo_idx radius, true)]
        | _ => []
        end /\
      filter (fun c => is_Distance_of geo_idx (fst c)) added =
        match geo with
        | Part.LineSegment _ _ =>
            [(Distance geo_idx (Vector.distanceToPoint (point_of geo 1) (point_of geo 2)),
              false)]
        | _ => []
        end.
Proof.
  intros H.
  destruct (add_geometry_to_sketch_returns edges multVec sk0 sk' con0 con' H)
    as (gi & primary & con1 & emitted & F & _ & Hm & _ & Hr & Hsub & G & C).
  cbn [Geometry Constraints] in *.
  set (geometry := Geometry sk0 ++ primary) in *.
  exists gi, primary, (construction_lines geometry gi),
    (emitted
     ++ anchor_constraints geometry (Z.of_nat (List.length geometry)) gi
     ++ block_plan (indices_from (List.length geometry)
                                 (List.length (construction_lines geometry gi)))
     ++ radius_plan geometry gi ++ distance_plan geometry gi), con1.
  split; [exact F|]. split; [exact Hm|].
  split; [subst geometry; now rewrite G, app_assoc|]. split; [exact C|].
  intros k geo flag Hk. cbv zeta.
  set (geo_idx := Z.of_nat (List.length (Geometry sk0) + k)).
  assert (Hin : In geo_idx (map fst gi)).
  { rewrite Hm. apply indices_from_in.
    assert (k < List.length primary)%nat by (apply nth_error_Some; congruence).
    subst geo_idx. lia. }
  assert (Hd : NoDup (map fst gi)) by (rewrite Hm; apply indices_from_NoDup).
  pose proof (index_primary (Geometry sk0) primary k (geo, flag) Hk) as Hi.
  fold geometry in Hi. fold geo_idx in Hi.
  assert (He : Forall (fun c => is_Coincident (fst c) = true) emitted)
    by (eapply subsequence_Forall; [exact Hsub | apply pair_plan_is_Coincident]).
  rewrite !filter_app.
  destruct (Coincident_not_Radius geo_idx _ He) as [-> ->].
  destruct (Coincident_not_Radius geo_idx _
              (anchors_are_Coincident geometry (Z.of_nat (List.length geometry)) gi))
    as [-> ->].
  destruct (Block_not_Radius geo_idx
              (indices_from (List.length geometry)
                            (List.length (construction_lines geometry gi)))) as [-> ->].
  rewrite radius_plan_not_Distance, distance_plan_not_Radius.
  rewrite (radius_plan_of geometry gi geo_idx Hd Hin),
          (distance_plan_of geometry gi geo_idx Hd Hin), Hi.
  cbn [app fst]. rewrite app_nil_r. split; destruct geo; reflexivity.
Qed.

Lemma circle_and_line_run :
  add_geometry_to_sketch (host := quiet_host) circle_and_line (fun v => v) (mkSketch [] [], []) =
  (Returns tt, (constrained, [])).
Proof. vm_compute. reflexivity. Qed.

Lemma radius_and_distance_constraints_witness :
  add_geometry_to_sketch (host := quiet_host) circle_and_line (fun v => v) (mkSketch [] [], []) =
    (Returns tt, (constrained, [])) /\
  exists added,
    Constraints constrained = added /\
    filter (fun c => is_Radius_of 0 (fst c)) added = [(Radius 0 2, true)] /\
    filter (fun c => is_Distance_of 1 (fst c)) added = [(Distance 1 5, false)].
Proof.
  split; [exact circle_and_line_run|].
  destruct (radius_and_distance_constraints (host := quiet_host) circle_and_line (fun v => v)
              (mkSketch [] []) constrained [] [] circle_and_line_run)
    as (gi & primary & lines & added & con1 & F & _ & _ & C & Hall).
  exists added. split; [exact C|].
  assert (Hp : primary = [(Part.Circle (V 3 4 0) (V 0 0 1) 2, false);
                          (Part.LineSegment (V 0 0 0) (V 3 4 0), false)]).
  { vm_compute in F. now inversion F. }
  subst primary. split.
  - apply (Hall 0%nat _ _ eq_refl).
  - apply (Hall 1%nat _ _ eq_refl).
Defined.

(** C10. The passes go through the indices the re-projection recorded, which
    are those of the geometries it created and of no construction line. In
    the sketch [add_geometry_to_sketch] returns, every geometry that comes
    after those of the re-projection is a construction line from the centre
    of a recorded arc or circle to the origin, and the constraints added that
    name it are three: the two Coincident constraints on its ends and its
    Block constraint. No Radius constraint, no Distance constraint and no
    Coincident constraint of the vertex pass names it. *)
Theorem construction_lines_only_anchored {host : Host} (edges : list Edge)
    (multVec : Vector -> Vector) (sk0 sk' : Sketch) (con0 con' : list ConsoleEntry) :
  add_geometry_to_sketch edges multVec (sk0, con0) = (Returns tt, (sk', con')) ->
  exists geo_indices primary lines added con1,
    let sk1 := mkSketch (Geometry sk0 ++ primary) (Constraints sk0) in
    fold_for edges [] (add_edge multVec) (sk0, con0) = (Returns geo_indices, (sk1, con1)) /\
    build_constraint_data geo_indices (sk1, con1) = (Returns tt, (sk', con')) /\
    map fst geo_indices = indices_from (List.length (Geometry sk0)) (List.length primary) /\
    Forall (fun g => snd g = false) primary /\
    Geometry sk' = Geometry sk0 ++ primary ++ lines /\
    Constraints sk' = Constraints sk0 ++ added /\
    forall k line,
      nth_error lines k = Some line ->
      let line_idx := Z.of_nat (List.length (Geometry sk0) + List.length primary + k) in
      exists geo_idx edge center,
        In (geo_idx, edge) geo_indices /\
        center_of_entry (Geometry sk1) (geo_idx, edge) = Some center /\
        line = (Part.LineSegment center origin, true) /\
        filter (fun c => mentions line_idx (fst c)) added =
          [(Coincident line_idx 1 geo_idx 3, true);
           (Coincident line_idx 2 (-1) 1, true);
           (Block line_idx, true)] /\
        filter (fun c => is_Radius_of line_idx (fst c)) added = [] /\
        filter (fun c => is_Distance_of line_idx (fst c)) added = [].
Proof.
  intros H.
  destruct (add_geometry_to_sketch_returns edges multVec sk0 sk' con0 con' H)
    as (gi & primary & con1 & emitted & F & B & Hm & Hp & Hr & Hsub & G & C).
  cbn [Geometry Constraints] in *.
  set (geometry := Geometry sk0 ++ primary) in *.
  set (first := List.length geometry) in *.
  exists gi, primary, (construction_lines geometry gi),
    (emitted
     ++ anchor_constraints geometry (Z.of_nat first) gi
     ++ block_plan (indices_from first (List.length (construction_lines geometry gi)))
     ++ radius_plan geometry gi ++ distance_plan geometry gi), con1.
  cbn zeta. fold geometry.
  split; [exact F|]. split; [exact B|]. split; [exact Hm|]. split; [exact Hp|].
  split; [subst geometry; now rewrite G, app_assoc|]. split; [exact C|].
  intros k line Hk.
  replace (Z.of_nat (List.length (Geometry sk0) + List.length primary + k))
    with (Z.of_nat first + Z.of_nat k)%Z
    by (subst first geometry; rewrite length_app; lia).
  assert (Hcount : (k < List.length (construction_lines geometry gi))%nat)
    by (apply nth_error_Some; congruence).
  rewrite construction_lines_far in Hk. rewrite nth_error_map in Hk.
  destruct (nth_error (far_entries geometry gi) k) as [[geo_idx center]|] eqn:Hfar;
    [|discriminate].
  injection Hk as <-. cbn [snd].
  destruct (far_entries_in geometry gi geo_idx center (nth_error_In _ _ Hfar))
    as (edge & Hin & Hc & _).
  exists geo_idx, edge, center.
  split; [exact Hin|]. split; [exact Hc|]. split; [reflexivity|].
  assert (Hne : Forall (fun entry => fst entry <> (Z.of_nat first + Z.of_nat k)%Z) gi).
  { eapply Forall_impl; [|exact Hr]. cbn beta. fold first. intros a Ha. lia. }
  assert (Hlow : Forall (fun entry => (0 <= fst entry < Z.of_nat first)%Z) gi) by exact Hr.
  split; [|split].
  - rewrite !filter_app.
    rewrite (filter_Forall_false _ _ (emitted_mentions _ gi _ emitted Hne Hsub)).
    rewrite (anchors_of_line geometry gi (Z.of_nat first) k Hlow), Hfar.
    rewrite blocks_of_line.
    apply Nat.ltb_lt in Hcount. rewrite Hcount.
    rewrite (filter_Forall_false _ _ (radius_plan_mentions geometry gi _ Hne)).
    rewrite (filter_Forall_false _ _ (distance_plan_mentions geometry gi _ Hne)).
    reflexivity.
  - rewrite !filter_app.
    assert (He : Forall (fun c => is_Coincident (fst c) = true) emitted)
      by (eapply subsequence_Forall; [exact Hsub | apply pair_plan_is_Coincident]).
    destruct (Coincident_not_Radius (Z.of_nat first + Z.of_nat k) _ He) as [-> _].
    destruct (Coincident_not_Radius (Z.of_nat first + Z.of_nat k) _
                (anchors_are_Coincident geometry (Z.of_nat first) gi)) as [-> _].
    destruct (Block_not_Radius (Z.of_nat first + Z.of_nat k)
                (indices_from first (List.length (construction_lines geometry gi))))
      as [-> _].
    rewrite distance_plan_not_Radius. cbn [app]. rewrite app_nil_r.
    apply filter_Forall_false.
    eapply Forall_impl; [|exact (radius_plan_mentions geometry gi _ Hne)].
    intros [[] d]; cbn; congruence.
  - rewrite !filter_app.
    assert (He : Forall (fun c => is_Coincident (fst c) = true) emitted)
      by (eapply subsequence_Forall; [exact Hsub | apply pair_plan_is_Coincident]).
    destruct (Coincident_not_Radius (Z.of_nat first + Z.of_nat k) _ He) as [_ ->].
    destruct (Coincident_not_Radius (Z.of_nat first + Z.of_nat k) _
                (anchors_are_Coincident geometry (Z.of_nat first) gi)) as [_ ->].
    destruct (Block_not_Radius (Z.of_nat first + Z.of_nat k)
                (indices_from first (List.length (construction_lines geometry gi))))
      as [_ ->].
    rewrite radius_plan_not_Distance. cbn [app].
    apply filter_Forall_false.
    eapply Forall_impl; [|exact (distance_plan_mentions geometry gi _ Hne)].
    intros [[] d]; cbn; congruence.
Qed.

Lemma construction_lines_only_anchored_witness :
  add_geometry_to_sketch (host := quiet_host) circle_and_line (fun v => v) (mkSketch [] [], []) =
    (Returns tt, (constrained, [])) /\
  exists added,
    Constraints constrained = added /\
    filter (fun c => mentions 2 (fst c)) added =
      [(Coincident 2 1 0 3, true); (Coincident 2 2 (-1) 1, true); (Block 2, true)].
Proof.
  split; [exact circle_and_line_run|].
  destruct (construction_lines_only_anchored (host := quiet_host) circle_and_line (fun v => v)
              (mkSketch [] []) constrained [] [] circle_and_line_run)
    as (gi & primary & lines & added & con1 & F & _ & _ & _ & G & C & Hall).
  cbn [Constraints app] in C. exists added. split; [exact C|].
  assert (Hp : primary = [(Part.Circle (V 3 4 0) (V 0 0 1) 2, false);
                          (Part.LineSegment (V 0 0 0) (V 3 4 0), false)]).
  { vm_compute in F. now inversion F. }
  subst primary. cbn [Geometry constrained app] in G.
  injection G as <-.
  destruct (Hall 0%nat _ eq_refl) as (geo_idx & edge & center & _ & _ & _ & Hm & _).
  cbn [Geometry List.length Nat.add] in Hm.
  assert (Hg : geo_idx = 0%Z).
  { pose proof Hm as Hm'. rewrite <- C in Hm'. vm_compute in Hm'. now inversion Hm'. }
  subst geo_idx. exact Hm.
Defined.

(** ** The transaction *)

Section Transactions.

Context {host : Host} {desktop : Desktop}.

Lemma frame_refl (w : World) : frame w w.
Proof. repeat split. Qed.

Lemma frame_trans (w1 w2 w3 : World) : frame w1 w2 -> frame w2 w3 -> frame w1 w3.
Proof. unfold frame. intros (A & B & C) (D & E & F). repeat split; congruence. Qed.

Lemma keeps_ret {A} (a : A) : keeps (ret a : WorldM A).
Proof. intros w r w' H. injection H as <- <-. apply frame_refl. Qed.

Lemma keeps_raise {A} (e : exn) : keeps (raise e : WorldM A).
Proof. intros w r w' H. injection H as <- <-. apply frame_refl. Qed.

Lemma keeps_lift {A} (r : result A) : keeps (lift r : WorldM A).
Proof. intros w r' w' H. injection H as <- <-. apply frame_refl. Qed.

Lemma keeps_get : keeps (get : WorldM World).
Proof. intros w r w' H. injection H as <- <-. apply frame_refl. Qed.

Lemma keeps_bind {A B} (m : WorldM A) (k : A -> WorldM B) :
  keeps m -> (forall a, keeps (k a)) -> keeps (bind m k).
Proof.
  intros Hm Hk w r w'. rewrite run_bind.
  destruct (m w) as [[a|e] w1] eqn:E.
  - intros H. eapply frame_trans; [eapply Hm; eauto | eapply Hk; eauto].
  - intros H. injection H as <- <-. eapply Hm; eauto.
Qed.

Lemma keeps_desktop_call (c : DesktopCall) : keeps (desktop_call c).
Proof.
  intros w r w'. unfold desktop_call. destruct (desktop_raises w c);
    intros H; injection H as <- <-; apply frame_refl.
Qed.

Lemma keeps_modify (f : World -> World) :
  (forall w, frame w (f w)) -> keeps (modify f).
Proof. intros Hf w r w' H. injection H as <- <-. apply Hf. Qed.

Lemma keeps_set_Objects (f : list (string * DocumentObject) -> list (string * DocumentObject)) :
  keeps (modify (set_Objects f)).
Proof. apply keeps_modify. intros w. repeat split. Qed.

Lemma keeps_Console_print (entry : ConsoleEntry) : keeps (Console_print entry).
Proof. apply keeps_modify. intros w. repeat split. Qed.

Lemma keeps_addObject (type name : string) (o : DocumentObject) :
  keeps (addObject type name o).
Proof.
  unfold addObject. apply keeps_bind; [apply keeps_desktop_call|]. intros _.
  apply keeps_bind; [apply keeps_get|]. intros w.
  apply keeps_bind; [apply keeps_set_Objects|]. intros _. apply keeps_ret.
Qed.

Lemma keeps_getObject (name : string) : keeps (getObject name).
Proof.
  unfold getObject. apply keeps_bind; [apply keeps_get|]. intros w. apply keeps_ret.
Qed.

Lemma keeps_set_sketch (name : string) (f : SketchObject -> SketchObject) :
  keeps (set_sketch name f).
Proof. apply keeps_set_Objects. Qed.

Lemma keeps_on_sketch {A} (name : string) (m : SketchM A) : keeps (on_sketch name m).
Proof.
  intros w r w'. unfold on_sketch.
  destruct (find _ (Objects w)) as [[n [| s |]]|];
    try (intros H; injection H as <- <-; apply frame_refl).
  destruct (m (Content s, Console w)) as [r1 [content console]].
  intros H. injection H as <- <-. repeat split.
Qed.

Lemma keeps_create_standalone_sketch (placement : Placement) (edges : list Edge) :
  keeps (create_standalone_sketch placement edges).
Proof.
  unfold create_standalone_sketch.
  apply keeps_bind; [apply keeps_addObject|]. intros sketch.
  apply keeps_bind; [apply keeps_set_sketch|]. intros _.
  apply keeps_bind; [apply keeps_desktop_call|]. intros _.
  apply keeps_bind; [apply keeps_get|]. intros w.
  apply keeps_bind; [apply keeps_on_sketch|]. intros _. apply keeps_ret.
Qed.

Lemma keeps_create_body_sketch (body : string) (placement : Placement) (edges : list Edge) :
  keeps (create_body_sketch body placement edges).
Proof.
  unfold create_body_sketch, recompute.
  apply keeps_bind; [apply keeps_addObject|]. intros sketch.
  apply keeps_bind; [apply keeps_desktop_call|]. intros _.
  apply keeps_bind; [apply keeps_set_Objects|]. intros _.
  do 4 (apply keeps_bind; [apply keeps_set_sketch|]; intros _).
  apply keeps_bind; [apply keeps_desktop_call|]. intros _.
  apply keeps_bind; [apply keeps_desktop_call|]. intros _.
  apply keeps_bind; [apply keeps_get|]. intros w.
  apply keeps_bind; [apply keeps_on_sketch|]. intros _. apply keeps_ret.
Qed.

Lemma keeps_create_sketch (choice : Choice) (placement : Placement) (edges : list Edge) :
  keeps (create_sketch choice placement edges).
Proof.
  destruct choice as [| |body_name]; cbn [create_sketch].
  - apply keeps_create_standalone_sketch.
  - apply keeps_bind; [apply keeps_addObject|]. intros body.
    apply keeps_create_body_sketch.
  - apply keeps_bind; [apply keeps_getObject|]. intros [body|].
    + apply keeps_create_body_sketch.
    + apply keeps_raise.
Qed.

(** The plane fitter changes the console and nothing else. *)
Lemma run_plane_and_center (selected_edges : list Edge) (w : World) :
  exists r printed,
    plane_and_center selected_edges w =
    (r, mkWorld (ActiveDocument w) (Objects w) (Transaction w) (Console w ++ printed)
                (Dialogs w) (Selection w)).
Proof.
  assert (Hw : forall r, exists r' printed,
             (r, w) = (r' : result (Vector * Vector),
                       mkWorld (ActiveDocument w) (Objects w) (Transaction w)
                               (Console w ++ printed) (Dialogs w) (Selection w))).
  { intros r. exists r, []. rewrite app_nil_r. now destruct w. }
  destruct selected_edges as [|edge [|edge2 edges]]; unfold plane_and_center.
  - apply Hw.
  - rewrite run_bind. unfold lift.
    destruct (single_edge_plane edge) as [[p n]|e]; [|apply Hw].
    rewrite run_bind. unfold Console_print, modify, ret. eauto.
  - rewrite run_bind. unfold lift.
    destruct (multi_edge_plane (edge :: edge2 :: edges)) as [[p n]|e]; apply Hw.
Qed.

Lemma keeps_plane_and_center (selected_edges : list Edge) :
  keeps (plane_and_center selected_edges).
Proof.
  intros w r w' H. destruct (run_plane_and_center selected_edges w) as (r1 & printed & E).
  rewrite E in H. injection H as <- <-. repeat split.
Qed.

Lemma keeps_show_destination_dialog : keeps show_destination_dialog.
Proof.
  unfold show_destination_dialog. apply keeps_bind; [apply keeps_get|]. intros w.
  apply keeps_bind; [apply keeps_desktop_call|]. intros _.
  destruct (getItem _) as [item ok].
  destruct (negb ok || String.eqb item ""); [apply keeps_ret|].
  destruct (String.eqb item _); [apply keeps_ret|].
  destruct (String.eqb item _); apply keeps_ret.
Qed.

Lemma keeps_when_raising_keeps {A} (m : WorldM A) : keeps m -> keeps_when_raising m.
Proof. intros H w e w' E. eapply H; eauto. Qed.

Lemma keeps_when_raising_bind {A B} (m : WorldM A) (k : A -> WorldM B) :
  keeps m -> (forall a, keeps_when_raising (k a)) -> keeps_when_raising (bind m k).
Proof.
  intros Hm Hk w e w'. rewrite run_bind.
  destruct (m w) as [[a|e1] w1] eqn:E.
  - intros H. eapply frame_trans; [eapply Hm; eauto | eapply Hk; eauto].
  - intros H. injection H as <- <-. eapply Hm; eauto.
Qed.

(** An exception leaves the [try] body with the transaction still pending and
    no dialog shown. *)
Lemma try_body_raises (selected_edges : list Edge) : keeps_when_raising (try_body selected_edges).
Proof.
  unfold try_body.
  apply keeps_when_raising_bind; [apply keeps_plane_and_center|]. intros [plane_normal center].
  apply keeps_when_raising_bind; [apply keeps_show_destination_dialog|]. intros [choice|].
  - apply keeps_when_raising_bind; [apply keeps_create_sketch|]. intros sketch.
    unfold recompute.
    apply keeps_when_raising_bind; [apply keeps_desktop_call|]. intros _.
    apply keeps_when_raising_bind; [apply keeps_desktop_call|]. intros _.
    apply keeps_when_raising_bind; [apply keeps_modify; intros w; repeat split|]. intros _.
    apply keeps_when_raising_bind; [apply keeps_desktop_call|]. intros _.
    apply keeps_when_raising_bind; [apply keeps_modify; intros w; repeat split|]. intros _.
    apply keeps_when_raising_bind; [apply keeps_desktop_call|]. intros _.
    apply keeps_when_raising_bind; [apply keeps_desktop_call|]. intros _.
    intros w e w' H. discriminate H.
  - intros w e w' H. discriminate H.
Qed.

(** When the [try] body returns, the transaction is closed. *)
Lemma try_body_returns (selected_edges : list Edge) (w w' : World) :
  try_body selected_edges w = (Returns tt, w') -> Transaction w' = None.
Proof.
  unfold try_body. rewrite run_bind.
  destruct (plane_and_center selected_edges w) as [[[plane_normal center]|e] w1];
    [|discriminate].
  rewrite run_bind.
  destruct (show_destination_dialog w1) as [[[choice|]|e] w2]; [| |discriminate].
  - rewrite run_bind.
    destruct (create_sketch _ _ _ w2) as [[sketch|e] w3]; [|discriminate].
    unfold recompute. rewrite run_bind.
    destruct (desktop_call doc_recompute w3) as [[[]|e] w4]; [|discriminate].
    rewrite run_bind.
    destruct (desktop_call Selection_clearSelection w4) as [[[]|e] w5]; [|discriminate].
    rewrite run_bind. unfold modify at 1. rewrite run_bind.
    destruct (desktop_call (Selection_addSelection sketch) _) as [[[]|e] w6]; [|discriminate].
    rewrite run_bind. unfold modify at 1. rewrite run_bind.
    destruct (desktop_call viewAxonometric _) as [[[]|e] w7]; [|discriminate].
    rewrite run_bind.
    destruct (desktop_call fitAll _) as [[[]|e] w8]; [|discriminate].
    intros H. injection H as <-. reflexivity.
  - unfold abortTransaction, Console_print, modify, bind.
    intros H. injection H as <-. destruct (Transaction w2) eqn:T; cbn; auto.
Qed.

End Transactions.

(** C8. Once edges are selected the macro opens a transaction and runs
    everything else inside it. Whatever exception leaves the body of the
    [try], the macro returns with the objects of the document as they were
    when it started, no transaction pending, the error on the console and
    one error dialog. When the user declines the destination dialog the
    macro returns with the objects as they were, no transaction pending, the
    cancellation message on the console and no dialog. In every case the
    macro returns and leaves no transaction pending. *)
Theorem transaction_is_atomic {host : Host} {desktop : Desktop} (w : World)
    (sel0 : SelectionObject) (rest : list SelectionObject) (edge : Edge) (edges : list Edge) :
  ActiveDocument w = true ->
  Selection w = sel0 :: rest ->
  collect_edges sel0 (Selection w) [] = Returns (Some (edge :: edges)) ->
  let selected_edges := edge :: edges in
  let opened := mkWorld true (Objects w) (Some (Objects w)) (Console w) (Dialogs w)
                        (Selection w) in
  edge_loop_to_sketch w = try_except (try_body selected_edges) except_clause opened /\
  (forall r w', edge_loop_to_sketch w = (r, w') -> r = Returns tt /\ Transaction w' = None) /\
  (forall e w1,
     try_body selected_edges opened = (Raises e, w1) ->
     edge_loop_to_sketch w =
     (Returns tt,
      mkWorld true (Objects w) None
              (Console w1 ++ [PrintError ("Sketch creation failed: " ++ str e ++ nl)])
              (Dialogs w ++ [("Sketch creation failed:" ++ nl ++ str e)%string])
              (Selection w1))) /\
  (forall nc w1,
     plane_and_center selected_edges opened = (Returns nc, w1) ->
     let options := ["<Standalone (Part Workbench)>"; "<Create New Body (PartDesign)>"]
                    ++ map fst (filter is_Body (Objects w)) in
     desktop_raises w1 (QInputDialog_getItem options) = None ->
     snd (getItem options) = false \/ fst (getItem options) = "" ->
     edge_loop_to_sketch w =
     (Returns tt,
      mkWorld true (Objects w) None
              (Console w1 ++ [PrintMessage ("Sketch creation cancelled." ++ nl)])
              (Dialogs w) (Selection w))).
Proof.
  intros Hdoc Hsel Hcol selected_edges opened.
  assert (Hrun : edge_loop_to_sketch w =
                 try_except (try_body selected_edges) except_clause opened).
  { unfold edge_loop_to_sketch. rewrite run_bind. unfold get at 1.
    rewrite Hdoc. cbn [negb]. rewrite Hsel. rewrite run_bind. unfold lift at 1.
    rewrite <- Hsel, Hcol. rewrite run_bind. unfold openTransaction, modify.
    subst opened. now rewrite Hdoc. }
  assert (Hfail : forall e w1,
            try_body selected_edges opened = (Raises e, w1) ->
            edge_loop_to_sketch w =
            (Returns tt,
             mkWorld true (Objects w) None
                     (Console w1 ++ [PrintError ("Sketch creation failed: " ++ str e ++ nl)])
                     (Dialogs w ++ [("Sketch creation failed:" ++ nl ++ str e)%string])
                     (Selection w1))).
  { intros e w1 H. rewrite Hrun. unfold try_except. rewrite H.
    destruct (try_body_raises selected_edges opened e w1 H) as (T & D & A).
    cbn [Transaction Dialogs ActiveDocument opened] in T, D, A.
    unfold except_clause, abortTransaction, Console_print, QMessageBox_critical, modify, bind.
    rewrite T. cbn [ActiveDocument Objects Transaction Console Dialogs Selection].
    now rewrite D, A. }
  split; [exact Hrun|]. split; [|split; [exact Hfail|]].
  - intros r w' H.
    destruct (try_body selected_edges opened) as [[[]|e] w1] eqn:B.
    + rewrite Hrun in H. unfold try_except in H. rewrite B in H. injection H as <- <-.
      split; [reflexivity | exact (try_body_returns _ _ _ B)].
    + rewrite (Hfail e w1 eq_refl) in H. injection H as <- <-. split; reflexivity.
  - intros nc w1 Hplane options Hquiet Hdecl.
    destruct (run_plane_and_center selected_edges opened) as (r1 & printed & E).
    rewrite E in Hplane. injection Hplane as -> <-.
    cbn [ActiveDocument Objects Transaction Console Dialogs Selection opened] in *.
    rewrite Hrun. unfold try_except, try_body. rewrite run_bind, E.
    destruct nc as [plane_normal center]. rewrite run_bind.
    unfold show_destination_dialog at 1. rewrite run_bind. unfold get at 1.
    cbn [Objects]. fold options. rewrite run_bind. unfold desktop_call at 1.
    rewrite Hquiet.
    destruct (getItem options) as [item ok]. cbn [fst snd] in Hdecl.
    assert (Hnone : negb ok || String.eqb item "" = true).
    { destruct Hdecl as [-> | ->]; [reflexivity | apply orb_true_r]. }
    rewrite Hnone. reflexivity.
Qed.

(** The circle of scenario A on a host that refuses Radius constraints: the
    sketch is created, filled and then given up. *)
Lemma transaction_is_atomic_witness :
  let w := world_with [circle_edge] ["Edge1"] in
  ActiveDocument w = true /\
  (exists sel0 rest, Selection w = sel0 :: rest /\
     collect_edges sel0 (Selection w) [] = Returns (Some [circle_edge])) /\
  forall r w',
    edge_loop_to_sketch (host := radius_refusing_host)
                        (desktop := quiet_desktop pick_standalone) w = (r, w') ->
    r = Returns tt /\ Transaction w' = None.
Proof.
  split; [reflexivity|]. split.
  - eexists. eexists. split; reflexivity.
  - apply (transaction_is_atomic (host := radius_refusing_host)
             (desktop := quiet_desktop pick_standalone)
             (world_with [circle_edge] ["Edge1"])
             (mkSelectionObject "Solid" [circle_edge] ["Edge1"]) [] circle_edge []
             eq_refl eq_refl eq_refl).
Defined.

(** ** A refused constraint *)

(** C2 fails on the code. The vertex pass returns whatever the host refuses:
    its two loops catch the exception and print a warning. The three other
    passes have no [try]: a Radius constraint the host refuses ends the pass
    at once with the exception, the entries that follow are not visited, and
    the exception reaches the [except] clause of the macro, which gives up the
    sketch. So do a refused Block constraint and a refused Distance
    constraint; a refused Coincident constraint of the vertex pass does
    not. *)
Theorem refused_constraint_aborts :
  (forall (host : Host) geo_indices sk con,
     in_range (Geometry sk) geo_indices ->
     exists sk' con',
       add_vertex_coincident_constraints geo_indices (sk, con) = (Returns tt, (sk', con'))) /\
  (forall (host : Host) geo_idx edge rest sk con center axis radius flag e,
     index (Geometry sk) geo_idx = Returns (Part.Circle center axis radius, flag) ->
     sketch_raises sk (sketch_addConstraint (Radius geo_idx radius)) = Some e ->
     add_radius_constraints ((geo_idx, edge) :: rest) (sk, con) = (Raises e, (sk, con))) /\
  outcome radius_refusing_host [circle_edge] ["Edge1"] = (Returns tt, [], msg_refused) /\
  outcome radius_refusing_host circle_and_line ["Edge1"; "Edge2"] =
    (Returns tt, [], msg_refused) /\
  outcome block_refusing_host circle_and_line ["Edge1"; "Edge2"] =
    (Returns tt, [], msg_refused) /\
  outcome distance_refusing_host circle_and_line ["Edge1"; "Edge2"] =
    (Returns tt, [], msg_refused) /\
  (exists sketch,
     outcome coincident_refusing_host two_edges ["Edge1"; "Edge2"] =
       (Returns tt, [("Sketch", SketchObj sketch)], []) /\
     Constraints (Content sketch) = [(Distance 0 1, false); (Distance 1 1, false)]).
Proof.
  split; [|split; [|split; [|split; [|split; [|split]]]]].
  - intros host geo_indices sk con Hr.
    destruct (add_vertex_coincident_constraints_runs geo_indices sk con Hr)
      as (emitted & con' & H & _).
    eauto.
  - intros host geo_idx edge rest sk con center axis radius flag e Hi Hrefused.
    unfold add_radius_constraints. cbn [for_each]. rewrite run_bind.
    unfold radius_constraint at 1. rewrite run_bind, run_Geometry_at, Hi. cbn [fst].
    now rewrite run_bind, run_addConstraint, Hrefused.
  - vm_compute. reflexivity.
  - vm_compute. reflexivity.
  - vm_compute. reflexivity.
  - vm_compute. reflexivity.
  - eexists. split; vm_compute; reflexivity.
Qed.

(** * Further properties of the macro *)

(** ** The selection (lines 12-37) *)

Lemma substring_all (s : string) : String.substring 0 (String.length s) s = s.
Proof. induction s as [|c s IH]; cbn; [reflexivity | now rewrite IH]. Qed.

Lemma prefix_append (s t : string) : String.prefix s (s ++ t) = true.
Proof.
  induction s as [|c s IH]; cbn; [now destruct t|].
  destruct (ascii_dec c c); [exact IH | congruence].
Qed.

(** [int(str(n))] is [n]. *)
Lemma int_str_int (n : Z) : int (str_int n) = Returns n.
Proof.
  unfold int, str_int. rewrite NilZero.isi.
  - now rewrite DecimalZ.of_to.
  - destruct n as [|p|p]; cbn; try discriminate.
    intros H. injection H as H. exact (DecimalPos.Unsigned.to_uint_nonnil p H).
  - destruct n as [|p|p]; cbn; try discriminate.
    intros H. injection H as H. exact (DecimalPos.Unsigned.to_uint_nonnil p H).
Qed.

Lemma index_out_of_range {A} (l : list A) (i : Z) :
  (Z.of_nat (List.length l) <= i \/ i < - Z.of_nat (List.length l))%Z ->
  index l i = Raises (Exception "list index out of range").
Proof.
  intros H. unfold index. cbv zeta.
  destruct (i <? 0)%Z eqn:E.
  - apply Z.ltb_lt in E.
    destruct (Z.of_nat (List.length l) + i <? 0)%Z eqn:E'; [reflexivity|].
    apply Z.ltb_ge in E'. lia.
  - apply Z.ltb_ge in E. rewrite (proj2 (Z.ltb_ge i 0) E).
    destruct (nth_error l (Z.to_nat i)) as [a|] eqn:N; [|reflexivity].
    assert (Hs : nth_error l (Z.to_nat i) <> None) by congruence.
    apply nth_error_Some in Hs. lia.
Qed.

(** What line 32 makes of the name of edge [n]. *)
Lemma collect_edge_name (obj : SelectionObject) (n : Z) (rest : list string)
    (acc : list Edge) :
  collect_sub_elements obj (edge_name n :: rest) acc =
  match index (Shape_Edges obj) (n - 1) with
  | Returns edge => collect_sub_elements obj rest (acc ++ [edge])
  | Raises e => Raises e
  end.
Proof.
  cbn [collect_sub_elements].
  unfold edge_name at 1. rewrite prefix_append.
  replace (String.substring 4 (String.length (edge_name n) - 4) (edge_name n))
    with (str_int n).
  - now rewrite int_str_int.
  - unfold edge_name. cbn [append String.length String.substring Nat.sub].
    rewrite Nat.sub_0_r. symmetry. apply substring_all.
Qed.

Lemma collect_sub_elements_app (obj : SelectionObject) (names rest : list string)
    (acc : list Edge) :
  collect_sub_elements obj (names ++ rest) acc =
  match collect_sub_elements obj names acc with
  | Returns acc' => collect_sub_elements obj rest acc'
  | Raises e => Raises e
  end.
Proof.
  revert acc. induction names as [|name names IH]; intros acc; cbn [app collect_sub_elements];
    [reflexivity|].
  destruct (String.prefix "Edge" name); [|apply IH].
  destruct (int _) as [n|e]; [|reflexivity].
  destruct (index (Shape_Edges obj) (n - 1)) as [edge|e]; [apply IH | reflexivity].
Qed.

Lemma collect_edges_app (obj : SelectionObject) (selection rest : list SelectionObject)
    (acc : list Edge) :
  collect_edges obj (selection ++ rest) acc =
  match collect_edges obj selection acc with
  | Returns (Some acc') => collect_edges obj rest acc'
  | r => r
  end.
Proof.
  revert acc. induction selection as [|sel_ex selection IH]; intros acc;
    cbn [app collect_edges]; [reflexivity|].
  destruct (negb _); [reflexivity|].
  destruct (collect_sub_elements obj (SubElementNames sel_ex) acc) as [acc'|e];
    [apply IH | reflexivity].
Qed.

(** X1. Sub-element names [Edge<n>] with [n] from 1 to the number of edges of
    the shape select, in the order of the names and with repetitions, the
    edges [Shape.Edges[n - 1]]; they are appended to the edges collected
    before. *)
Theorem named_edges_are_collected (obj : SelectionObject) (numbers : list Z)
    (picked acc : list Edge) :
  Forall2 (fun n edge => (1 <= n)%Z /\
                         nth_error (Shape_Edges obj) (Z.to_nat (n - 1)) = Some edge)
          numbers picked ->
  collect_sub_elements obj (map edge_name numbers) acc = Returns (acc ++ picked).
Proof.
  intros H. revert acc. induction H as [|n edge numbers picked [Hn He] _ IH]; intros acc;
    cbn [map].
  - cbn. now rewrite app_nil_r.
  - rewrite collect_edge_name. unfold index.
    destruct (n - 1 <? 0)%Z eqn:E; [apply Z.ltb_lt in E; lia|]. rewrite E, He, IH.
    now rewrite <- app_assoc.
Qed.

Lemma named_edges_are_collected_witness :
  collect_sub_elements (solid []) (map edge_name [2; 1; 2]%Z) [] =
  Returns ([] ++ [line_edge (V 0 0 0) (V 0 1 0); line_edge (V 0 0 0) (V 1 0 0);
                  line_edge (V 0 0 0) (V 0 1 0)]).
Proof.
  apply (named_edges_are_collected (solid []) [2; 1; 2]%Z
           [line_edge (V 0 0 0) (V 0 1 0); line_edge (V 0 0 0) (V 1 0 0);
            line_edge (V 0 0 0) (V 0 1 0)] []).
  repeat (constructor; [split; [lia | reflexivity]|]). constructor.
Defined.

(** X2. A number below 1 counts from the end of the edges, as Python's
    negative indices do: [Edge0] selects the last edge of the shape, [Edge-1]
    the one before it, and [Edge-k] the edge that has [k] edges after it. *)
Theorem edge_number_below_one (obj : SelectionObject) (front back : list Edge) (edge : Edge)
    (acc : list Edge) :
  Shape_Edges obj = front ++ edge :: back ->
  collect_sub_elements obj [edge_name (- Z.of_nat (List.length back))] acc =
  Returns (acc ++ [edge]).
Proof.
  intros H. rewrite collect_edge_name, H. unfold index.
  destruct (- Z.of_nat (List.length back) - 1 <? 0)%Z eqn:E; [|apply Z.ltb_ge in E; lia].
  rewrite length_app. cbn [List.length].
  replace (Z.of_nat (List.length front + S (List.length back))
           + (- Z.of_nat (List.length back) - 1))%Z
    with (Z.of_nat (List.length front)) by lia.
  destruct (Z.of_nat (List.length front) <? 0)%Z eqn:E'; [apply Z.ltb_lt in E'; lia|].
  rewrite Nat2Z.id, nth_error_app2, Nat.sub_diag by lia. reflexivity.
Qed.

Lemma edge_number_below_one_witness :
  collect_sub_elements (solid []) [edge_name (- Z.of_nat (List.length (@nil Edge)))] [] =
  Returns ([] ++ [line_edge (V 0 0 0) (V 0 1 0)]).
Proof.
  apply (edge_number_below_one (solid []) [line_edge (V 0 0 0) (V 1 0 0)]
           [] (line_edge (V 0 0 0) (V 0 1 0)) []).
  reflexivity.
Defined.

Section Selections.

Context {host : Host} {desktop : Desktop}.

(** The macro up to line 37, given what the loop of lines 26-33 comes to. *)
Lemma run_before_transaction (w : World) (sel0 : SelectionObject)
    (rest : list SelectionObject) :
  ActiveDocument w = true ->
  Selection w = sel0 :: rest ->
  edge_loop_to_sketch w =
  match collect_edges sel0 (sel0 :: rest) [] with
  | Raises e => (Raises e, w)
  | Returns None =>
      (Returns tt,
       after_printing w (PrintError ("Error: All edges must be from the same object." ++ nl)))
  | Returns (Some []) =>
      (Returns tt, after_printing w (PrintError ("Error: No valid edges selected." ++ nl)))
  | Returns (Some selected_edges) =>
      try_except (try_body selected_edges) except_clause
        (mkWorld true (Objects w) (Some (Objects w)) (Console w) (Dialogs w) (Selection w))
  end.
Proof.
  intros Hdoc Hsel. unfold edge_loop_to_sketch. rewrite run_bind. unfold get at 1.
  rewrite Hdoc. cbn [negb]. rewrite Hsel. rewrite run_bind. unfold lift at 1.
  destruct (collect_edges sel0 (sel0 :: rest) []) as [[[|edge edges]|]|e]; try reflexivity.
  rewrite run_bind. unfold openTransaction, modify. now rewrite Hdoc, Hsel.
Qed.

Lemma collect_no_edge (obj : SelectionObject) (selection : list SelectionObject)
    (acc : list Edge) :
  Forall (names_no_edge obj) selection -> collect_edges obj selection acc = Returns (Some acc).
Proof.
  intros H. induction H as [|sel_ex selection [Hname Hsub] _ IH]; cbn [collect_edges];
    [reflexivity|].
  rewrite Hname, String.eqb_refl. cbn [negb].
  replace (collect_sub_elements obj (SubElementNames sel_ex) acc) with (Returns acc); [exact IH|].
  symmetry. induction Hsub as [|name names Hp _ IHs]; cbn [collect_sub_elements];
    [reflexivity | now rewrite Hp].
Qed.

End Selections.

(** X3. A selection that holds no edge, only faces, vertices or whole objects
    of one object, makes the macro print that no valid edge is selected and
    return: no transaction is opened, no dialog shown, and the document and
    the selection stay as they were. *)
Theorem selection_without_edges {host : Host} {desktop : Desktop} (w : World)
    (sel0 : SelectionObject) (rest : list SelectionObject) :
  ActiveDocument w = true ->
  Selection w = sel0 :: rest ->
  Forall (names_no_edge sel0) (Selection w) ->
  edge_loop_to_sketch w =
  (Returns tt, after_printing w (PrintError ("Error: No valid edges selected." ++ nl))).
Proof.
  intros Hdoc Hsel Hno. rewrite (run_before_transaction w sel0 rest Hdoc Hsel).
  rewrite Hsel in Hno. now rewrite (collect_no_edge sel0 _ [] Hno).
Qed.

Lemma selection_without_edges_witness :
  let w := world_with two_edges ["Face1"; "Vertex2"] in
  edge_loop_to_sketch (host := quiet_host) (desktop := quiet_desktop pick_standalone) w =
  (Returns tt, after_printing w (PrintError ("Error: No valid edges selected." ++ nl))).
Proof.
  apply (selection_without_edges (host := quiet_host)
           (desktop := quiet_desktop pick_standalone)
           (world_with two_edges ["Face1"; "Vertex2"]) (solid ["Face1"; "Vertex2"]) []).
  - reflexivity.
  - reflexivity.
  - repeat constructor.
Defined.

(** X4. As soon as the loop over the selection meets an entry of another
    object than the first, the macro prints that all edges must be from the
    same object and returns; the edges collected before it are dropped, no
    transaction is opened and the document stays as it was. *)
Theorem selection_across_objects {host : Host} {desktop : Desktop} (w : World)
    (sel0 other : SelectionObject) (before after : list SelectionObject)
    (edges : list Edge) :
  ActiveDocument w = true ->
  Selection w = sel0 :: before ++ other :: after ->
  collect_edges sel0 (sel0 :: before) [] = Returns (Some edges) ->
  Object_Name other <> Object_Name sel0 ->
  edge_loop_to_sketch w =
  (Returns tt,
   after_printing w (PrintError ("Error: All edges must be from the same object." ++ nl))).
Proof.
  intros Hdoc Hsel Hbefore Hother.
  rewrite (run_before_transaction w sel0 (before ++ other :: after) Hdoc Hsel).
  change (sel0 :: before ++ other :: after) with ((sel0 :: before) ++ other :: after).
  rewrite collect_edges_app, Hbefore. cbn [collect_edges].
  apply String.eqb_neq in Hother. now rewrite Hother.
Qed.

Lemma selection_across_objects_witness :
  let w := mkWorld true [] None [] []
             [solid ["Edge1"]; mkSelectionObject "Other" [circle_edge] ["Edge1"]] in
  edge_loop_to_sketch (host := quiet_host) (desktop := quiet_desktop pick_standalone) w =
  (Returns tt,
   after_printing w (PrintError ("Error: All edges must be from the same object." ++ nl))).
Proof.
  apply (selection_across_objects (host := quiet_host)
           (desktop := quiet_desktop pick_standalone)
           (mkWorld true [] None [] []
              [solid ["Edge1"]; mkSelectionObject "Other" [circle_edge] ["Edge1"]])
           (solid ["Edge1"]) (mkSelectionObject "Other" [circle_edge] ["Edge1"]) [] []
           [line_edge (V 0 0 0) (V 1 0 0)]).
  - reflexivity.
  - reflexivity.
  - reflexivity.
  - discriminate.
Defined.

(** X5. An edge number beyond the edges of the shape, in either direction,
    makes line 33 raise, before the transaction is opened and outside the
    [try]: the exception leaves the macro, nothing is printed and nothing is
    changed. For a number whose index fits a machine word the exception is
    the [IndexError] of a list index out of range. *)
Theorem edge_number_out_of_range {host : Host} {desktop : Desktop} (w : World)
    (sel0 : SelectionObject) (rest : list SelectionObject) (names later : list string)
    (edges : list Edge) (n : Z) :
  ActiveDocument w = true ->
  Selection w = sel0 :: rest ->
  SubElementNames sel0 = names ++ edge_name n :: later ->
  collect_sub_elements sel0 names [] = Returns edges ->
  (Z.of_nat (List.length (Shape_Edges sel0)) < n \/
   n <= - Z.of_nat (List.length (Shape_Edges sel0)))%Z ->
  exists e,
    edge_loop_to_sketch w = (Raises e, w) /\
    ((- 2 ^ 63 <= n - 1 < 2 ^ 63)%Z -> e = Exception "list index out of range").
Proof.
  intros Hdoc Hsel Hnames Hbefore Hn.
  exists (Exception "list index out of range"). split; [|reflexivity].
  rewrite (run_before_transaction w sel0 rest Hdoc Hsel).
  cbn [collect_edges]. rewrite String.eqb_refl. cbn [negb].
  rewrite Hnames, collect_sub_elements_app, Hbefore, collect_edge_name.
  rewrite index_out_of_range by lia. reflexivity.
Qed.

Lemma edge_number_out_of_range_witness :
  let w := world_with two_edges ["Edge1"; "Edge3"] in
  exists e,
    edge_loop_to_sketch (host := quiet_host) (desktop := quiet_desktop pick_standalone) w =
      (Raises e, w) /\
    ((- 2 ^ 63 <= 3 - 1 < 2 ^ 63)%Z -> e = Exception "list index out of range").
Proof.
  apply (edge_number_out_of_range (host := quiet_host)
           (desktop := quiet_desktop pick_standalone)
           (world_with two_edges ["Edge1"; "Edge3"]) (solid ["Edge1"; "Edge3"]) []
           ["Edge1"] [] [line_edge (V 0 0 0) (V 1 0 0)] 3%Z).
  - reflexivity.
  - reflexivity.
  - reflexivity.
  - reflexivity.
  - left. cbn. lia.
Defined.

(** ** Re-projection, edge by edge (lines 246-336) *)

Lemma index_first {A} (l : list A) :
  match index l 0 with
  | Returns a => hd_error l = Some a
  | Raises _ => l = []
  end.
Proof. destruct l; reflexivity. Qed.

Lemma index_minus_one {A} (l : list A) :
  match index l (-1) with
  | Returns a => hd_error (rev l) = Some a
  | Raises _ => l = []
  end.
Proof.
  induction l as [|a l _] using rev_ind; [reflexivity|].
  unfold index. cbn [Z.ltb Z.compare]. rewrite length_app. cbn [List.length].
  replace (Z.of_nat (List.length l + 1) + -1)%Z with (Z.of_nat (List.length l)) by lia.
  destruct (Z.of_nat (List.length l) <? 0)%Z eqn:E; [apply Z.ltb_lt in E; lia|].
  rewrite Nat2Z.id, nth_error_app2, Nat.sub_diag by lia. cbn [nth_error].
  now rewrite rev_app_distr.
Qed.

Section EdgeByEdge.

Context {host : Host}.

Lemma adds_reprojection_run_add (multVec : Vector -> Vector) (edge : Edge) (call : SketchCall)
    (geo : Part.Geometry) :
  reprojection multVec edge geo ->
  adds_reprojection multVec edge
    (bind (host_call call)
          (fun _ => bind (addGeometry geo false) (fun geo_index => ret geo_index))).
Proof.
  intros Hgeo sk con. rewrite run_add.
  destruct (sketch_raises sk call) as [e|] eqn:E1.
  { left. exists e. split; [right; eauto | reflexivity]. }
  destruct (sketch_raises sk (sketch_addGeometry geo false)) as [e|] eqn:E2.
  { left. exists e. split; [right; eauto | reflexivity]. }
  right. exists geo. split; [exact Hgeo | reflexivity].
Qed.

(** Reading the first and the last vertex of the edge (lines 276-277 and
    297-298). *)
Lemma adds_reprojection_ends (multVec : Vector -> Vector) (edge : Edge)
    (k : Vector -> Vector -> SketchM Z) :
  (forall p_start p_end,
     hd_error (Vertexes edge) = Some p_start -> hd_error (rev (Vertexes edge)) = Some p_end ->
     adds_reprojection multVec edge (k p_start p_end)) ->
  adds_reprojection multVec edge
    (bind (lift (index (Vertexes edge) 0))
          (fun p_start => bind (lift (index (Vertexes edge) (-1)))
                               (fun p_end => k p_start p_end))).
Proof.
  intros Hk sk con. rewrite run_bind. unfold lift at 1.
  pose proof (index_first (Vertexes edge)) as H0.
  destruct (index (Vertexes edge) 0) as [p_start|e].
  2:{ left. exists e. split; [now left | reflexivity]. }
  rewrite run_bind. unfold lift at 1.
  pose proof (index_minus_one (Vertexes edge)) as H1.
  destruct (index (Vertexes edge) (-1)) as [p_end|e].
  2:{ left. exists e. split; [now left | reflexivity]. }
  apply (Hk p_start p_end H0 H1).
Qed.

Lemma adds_reprojection_line (multVec : Vector -> Vector) (edge : Edge) :
  match Curve_ edge with Line | OtherCurve _ => True | _ => False end ->
  adds_reprojection multVec edge (add_line_to_sketch edge multVec).
Proof.
  intros Hc. unfold add_line_to_sketch.
  apply adds_reprojection_ends. intros p_start p_end H0 H1.
  apply adds_reprojection_run_add. unfold reprojection.
  destruct (Curve_ edge); try contradiction; eauto.
Qed.

Lemma adds_reprojection_circle (multVec : Vector -> Vector) (edge : Edge)
    (center axis : Vector) (radius : float) :
  Curve_ edge = Circle center axis radius ->
  adds_reprojection multVec edge (add_circle_to_sketch edge center radius multVec).
Proof.
  intros Hc. unfold add_circle_to_sketch.
  destruct (abs (Length edge - 2 * 3.141592653589793 * radius) <? 0.01)%float eqn:Hfull.
  - apply adds_reprojection_run_add. unfold reprojection. now rewrite Hc, Hfull.
  - apply adds_reprojection_ends. intros p_start p_end H0 H1.
    apply adds_reprojection_run_add. unfold reprojection. rewrite Hc, Hfull.
    exists p_start, p_end. split; [exact H0|]. split; [exact H1|]. cbv zeta.
    now destruct (arc_through _ _ _) as [[[c r] s] e].
Qed.

Lemma adds_reprojection_bspline (multVec : Vector -> Vector) (edge : Edge)
    (poles : list Vector) (mults : list Z) (knots : list float) (periodic : bool) (degree : Z) :
  Curve_ edge = BSplineCurve poles mults knots periodic degree ->
  adds_reprojection multVec edge
    (add_bspline_to_sketch poles mults knots periodic degree multVec).
Proof.
  intros Hc. unfold add_bspline_to_sketch.
  apply adds_reprojection_run_add. unfold reprojection. now rewrite Hc.
Qed.

(** One turn of the loop of lines 250-268: the edge is skipped with the
    warning of line 268, or its re-projection is added and recorded. *)
Lemma run_add_edge_report (multVec : Vector -> Vector) (acc : list (Z * Edge)) (edge : Edge)
    (sk : Sketch) (con : list ConsoleEntry) :
  (exists e,
     skipped_because edge sk e /\
     add_edge multVec acc edge (sk, con) =
     (Returns acc,
      (sk, con ++ unsupported_warning edge ++ [PrintWarning (msg_failed_edge e)]))) \/
  (exists geo,
     reprojection multVec edge geo /\
     add_edge multVec acc edge (sk, con) =
     (Returns (acc ++ [(Z.of_nat (List.length (Geometry sk)), edge)]),
      (mkSketch (Geometry sk ++ [(geo, false)]) (Constraints sk),
       con ++ unsupported_warning edge))).
Proof.
  assert (H : forall (m : SketchM Z) con0, adds_reprojection multVec edge m ->
            (exists e,
               skipped_because edge sk e /\
               try_except (bind m (fun geo_index => ret (acc ++ [(geo_index, edge)])))
                 (fun e => bind (print (PrintWarning (msg_failed_edge e)))
                                (fun _ => ret acc)) (sk, con0) =
               (Returns acc, (sk, con0 ++ [PrintWarning (msg_failed_edge e)]))) \/
            (exists geo,
               reprojection multVec edge geo /\
               try_except (bind m (fun geo_index => ret (acc ++ [(geo_index, edge)])))
                 (fun e => bind (print (PrintWarning (msg_failed_edge e)))
                                (fun _ => ret acc)) (sk, con0) =
               (Returns (acc ++ [(Z.of_nat (List.length (Geometry sk)), edge)]),
                (mkSketch (Geometry sk ++ [(geo, false)]) (Constraints sk), con0)))).
  { intros m con0 Hm. unfold try_except. rewrite run_bind.
    destruct (Hm sk con0) as [(e & Hwhy & ->) | (geo & Hgeo & ->)].
    - left. exists e. split; [exact Hwhy | reflexivity].
    - right. exists geo. split; [exact Hgeo | reflexivity]. }
  unfold add_edge, unsupported_warning.
  destruct (Curve_ edge) as [|center axis radius|poles mults knots periodic degree|name] eqn:Hc;
    cbn [app]; try rewrite app_nil_r.
  - apply H, adds_reprojection_line. now rewrite Hc.
  - apply H. now apply adds_reprojection_circle with (axis := axis).
  - apply H. now apply adds_reprojection_bspline.
  - assert (Hline : adds_reprojection multVec edge (add_line_to_sketch edge multVec))
      by (apply adds_reprojection_line; now rewrite Hc).
    specialize (H _ (con ++ [PrintWarning (msg_unsupported name)]) Hline).
    unfold try_except in *. rewrite !run_bind in *. rewrite run_print.
    destruct H as [(e & Hwhy & H) | (geo & Hgeo & H)]; [left; exists e | right; exists geo];
      (split; [assumption|]); rewrite H; [now rewrite <- app_assoc | reflexivity].
Qed.

Lemma not_failed_edge (edge : Edge) : filter is_failed_edge (unsupported_warning edge) = [].
Proof.
  unfold unsupported_warning. destruct (Curve_ edge); reflexivity.
Qed.

Lemma failed_edge (e : exn) : is_failed_edge (PrintWarning (msg_failed_edge e)) = true.
Proof. apply prefix_append. Qed.

Lemma warnings_only (edge : Edge) :
  Forall (fun entry => exists text, entry = PrintWarning text) (unsupported_warning edge).
Proof. unfold unsupported_warning. destruct (Curve_ edge); repeat constructor; eauto. Qed.

(** The loop of lines 250-268 as a whole. *)
Lemma fold_add_edge_report (multVec : Vector -> Vector) (edges : list Edge)
    (acc : list (Z * Edge)) (sk : Sketch) (con : list ConsoleEntry) :
  exists added primary printed,
    fold_for edges acc (add_edge multVec) (sk, con) =
      (Returns (acc ++ added),
       (mkSketch (Geometry sk ++ primary) (Constraints sk), con ++ printed)) /\
    map fst added = indices_from (List.length (Geometry sk)) (List.length primary) /\
    reprojected multVec added primary /\
    subsequence (map snd added) edges /\
    (List.length added + List.length (filter is_failed_edge printed) = List.length edges)%nat /\
    Forall (fun entry => exists text, entry = PrintWarning text) printed.
Proof.
  revert acc sk con. induction edges as [|edge edges IH]; intros acc sk con; cbn [fold_for].
  - exists [], [], []. unfold ret. rewrite !app_nil_r. destruct sk.
    repeat split; constructor.
  - rewrite run_bind.
    destruct (run_add_edge_report multVec acc edge sk con)
      as [(e & _ & ->) | (geo & Hgeo & ->)].
    + destruct (IH acc sk (con ++ unsupported_warning edge ++ [PrintWarning (msg_failed_edge e)]))
        as (added & primary & printed & F & Hm & Hre & Hsub & Hlen & Hw).
      exists added, primary, ((unsupported_warning edge ++ [PrintWarning (msg_failed_edge e)])
                              ++ printed).
      split; [rewrite F; now rewrite <- !app_assoc|].
      split; [exact Hm|]. split; [exact Hre|]. split; [now constructor|]. split.
      * rewrite !filter_app, not_failed_edge. cbn [app filter]. rewrite failed_edge.
        cbn [app List.length]. lia.
      * apply Forall_app. split; [|exact Hw]. apply Forall_app. split; [apply warnings_only|].
        repeat constructor. eauto.
    + destruct (IH (acc ++ [(Z.of_nat (List.length (Geometry sk)), edge)])
                   (mkSketch (Geometry sk ++ [(geo, false)]) (Constraints sk))
                   (con ++ unsupported_warning edge))
        as (added & primary & printed & F & Hm & Hre & Hsub & Hlen & Hw).
      cbn [Geometry Constraints] in *.
      exists ((Z.of_nat (List.length (Geometry sk)), edge) :: added), ((geo, false) :: primary),
             (unsupported_warning edge ++ printed).
      split; [rewrite F; now rewrite <- !app_assoc|]. split; [|split; [|split; [|split]]].
      * cbn [map fst List.length]. rewrite indices_from_S, Hm, length_app. cbn [List.length].
        now replace (List.length (Geometry sk) + 1)%nat with (S (List.length (Geometry sk)))
          by lia.
      * constructor; [split; [exact Hgeo | reflexivity] | exact Hre].
      * cbn [map snd]. now constructor.
      * rewrite filter_app, not_failed_edge. cbn [app List.length]. lia.
      * apply Forall_app. split; [apply warnings_only | exact Hw].
Qed.

(** On a host that raises nothing, no edge with a vertex is skipped. *)
Lemma fold_add_edge_quiet (multVec : Vector -> Vector) (edges : list Edge)
    (acc : list (Z * Edge)) (sk : Sketch) (con : list ConsoleEntry) :
  quiet -> Forall (fun edge => Vertexes edge <> []) edges ->
  exists added primary,
    fold_for edges acc (add_edge multVec) (sk, con) =
      (Returns (acc ++ added),
       (mkSketch (Geometry sk ++ primary) (Constraints sk),
        con ++ flat_map unsupported_warning edges)) /\
    map fst added = indices_from (List.length (Geometry sk)) (List.length primary) /\
    map snd added = edges /\
    reprojected multVec added primary.
Proof.
  intros Hq Hv. revert acc sk con.
  induction Hv as [|edge edges Hne _ IH]; intros acc sk con; cbn [fold_for flat_map].
  - exists [], []. unfold ret. rewrite !app_nil_r. destruct sk. repeat split; constructor.
  - rewrite run_bind.
    destruct (run_add_edge_report multVec acc edge sk con)
      as [(e & [Hno | (call & Hcall)] & _) | (geo & Hgeo & ->)];
      [contradiction | rewrite Hq in Hcall; discriminate |].
    destruct (IH (acc ++ [(Z.of_nat (List.length (Geometry sk)), edge)])
                 (mkSketch (Geometry sk ++ [(geo, false)]) (Constraints sk))
                 (con ++ unsupported_warning edge))
      as (added & primary & F & Hm & Hs & Hre).
    cbn [Geometry Constraints] in *.
    exists ((Z.of_nat (List.length (Geometry sk)), edge) :: added), ((geo, false) :: primary).
    split; [rewrite F; now rewrite <- !app_assoc|]. split; [|split].
    + cbn [map fst List.length]. rewrite indices_from_S, Hm, length_app. cbn [List.length].
      now replace (List.length (Geometry sk) + 1)%nat with (S (List.length (Geometry sk)))
        by lia.
    + cbn [map snd]. now rewrite Hs.
    + constructor; [split; [exact Hgeo | reflexivity] | exact Hre].
Qed.

End EdgeByEdge.

(** ** What filling a sketch never undoes *)

Section Growth.

Context {host : Host}.

Lemma extends_refl (s : Sketch * list ConsoleEntry) : extends s s.
Proof. repeat split; exists []; now rewrite app_nil_r. Qed.

Lemma extends_trans (s1 s2 s3 : Sketch * list ConsoleEntry) :
  extends s1 s2 -> extends s2 s3 -> extends s1 s3.
Proof.
  intros ((g1 & G1) & (c1 & C1) & (p1 & P1)) ((g2 & G2) & (c2 & C2) & (p2 & P2)).
  repeat split; [exists (g1 ++ g2) | exists (c1 ++ c2) | exists (p1 ++ p2)];
    rewrite app_assoc; congruence.
Qed.

(** A function that changes neither the sketch nor the console. *)
Lemma grows_reading {A} (m : SketchM A) : (forall s, snd (m s) = s) -> grows m.
Proof. intros H s. rewrite H. apply extends_refl. Qed.

Lemma grows_ret {A} (a : A) : grows (ret a : SketchM A).
Proof. now apply grows_reading. Qed.

Lemma grows_lift {A} (r : result A) : grows (lift r : SketchM A).
Proof. now apply grows_reading. Qed.

Lemma grows_host_call (call : SketchCall) : grows (host_call call).
Proof.
  apply grows_reading. intros s. unfold host_call. now destruct (sketch_raises (fst s) call).
Qed.

Lemma grows_Geometry_at (geo_idx : Z) : grows (Geometry_at geo_idx).
Proof. apply grows_reading. intros [sk con]. now rewrite run_Geometry_at. Qed.

Lemma grows_getPoint (geo_idx pos : Z) : grows (getPoint geo_idx pos).
Proof. apply grows_reading. intros [sk con]. now rewrite run_getPoint. Qed.

Lemma grows_print (entry : ConsoleEntry) : grows (print entry).
Proof.
  intros [sk con]. rewrite run_print. repeat split; cbn [fst snd]; eauto;
    exists []; now rewrite app_nil_r.
Qed.

Lemma grows_addGeometry (geo : Part.Geometry) (construction : bool) :
  grows (addGeometry geo construction).
Proof.
  intros [sk con]. rewrite run_addGeometry.
  destruct (sketch_raises sk _); [apply extends_refl|].
  repeat split; cbn [fst snd Geometry Constraints]; eauto; exists []; now rewrite app_nil_r.
Qed.

Lemma grows_addConstraint (c : Constraint) : grows (addConstraint c).
Proof.
  intros [sk con]. rewrite run_addConstraint.
  destruct (sketch_raises sk _); [apply extends_refl|].
  repeat split; cbn [fst snd Geometry Constraints]; eauto; exists []; now rewrite app_nil_r.
Qed.

(** Lines 515-519: the constraint that [setDriving] turns into a reference is
    the one that was just added. *)
Lemma grows_reference (c : Constraint) :
  grows (bind (addConstraint c) (fun constraint_idx => setDriving constraint_idx false)).
Proof.
  intros [sk con]. rewrite run_bind, run_addConstraint.
  destruct (sketch_raises sk _); [apply extends_refl|].
  pose proof (run_setDriving_last c false (Geometry sk) (Constraints sk) con) as H.
  cbv zeta in H. rewrite H.
  destruct (sketch_raises _ _);
    repeat split; cbn [fst snd Geometry Constraints]; eauto; exists []; now rewrite app_nil_r.
Qed.

Lemma grows_bind {A B} (m : SketchM A) (k : A -> SketchM B) :
  grows m -> (forall a, grows (k a)) -> grows (bind m k).
Proof.
  intros Hm Hk s. rewrite run_bind. specialize (Hm s).
  destruct (m s) as [[a|e] s1]; cbn [snd] in *; [|exact Hm].
  eapply extends_trans; [exact Hm | apply Hk].
Qed.

Lemma grows_try_except {A} (m : SketchM A) (h : exn -> SketchM A) :
  grows m -> (forall e, grows (h e)) -> grows (try_except m h).
Proof.
  intros Hm Hh s. unfold try_except. specialize (Hm s).
  destruct (m s) as [[a|e] s1]; cbn [snd] in *; [exact Hm|].
  eapply extends_trans; [exact Hm | apply Hh].
Qed.

Lemma grows_for_each {A} (xs : list A) (body : A -> SketchM unit) :
  (forall x, grows (body x)) -> grows (for_each xs body).
Proof.
  intros Hb. induction xs as [|x xs IH]; cbn [for_each]; [apply grows_ret|].
  apply grows_bind; [apply Hb | intros _; exact IH].
Qed.

Lemma grows_fold_for {A B} (xs : list A) (body : B -> A -> SketchM B) (acc : B) :
  (forall acc x, grows (body acc x)) -> grows (fold_for xs acc body).
Proof.
  intros Hb. revert acc. induction xs as [|x xs IH]; intros acc; cbn [fold_for];
    [apply grows_ret|].
  apply grows_bind; [apply Hb | intros acc'; apply IH].
Qed.

Ltac grow :=
  repeat first
    [ apply grows_ret | apply grows_lift | apply grows_host_call | apply grows_print
    | apply grows_Geometry_at | apply grows_getPoint | apply grows_addGeometry
    | apply grows_addConstraint | apply grows_reference
    | apply grows_for_each; intros ? | apply grows_fold_for; intros ? ?
    | apply grows_try_except; [|intros ?] | apply grows_bind; [|intros ?] ].

Lemma grows_add_vertex_coincident_constraints (geo_indices : list (Z * Edge)) :
  grows (add_vertex_coincident_constraints geo_indices).
Proof.
  unfold add_vertex_coincident_constraints. grow.
  - destruct x as [geo_idx original_edge]. unfold map_vertices. grow.
    destruct a; cbn [has_StartPoint_EndPoint]; grow.
  - destruct x as [coord_key [|base [|other rest]]]; unfold constrain_group; grow.
Qed.

Lemma grows_anchor_center (construction_line_indices : list Z) (geo_idx : Z)
    (center : Vector) :
  grows (anchor_center construction_line_indices geo_idx center).
Proof.
  unfold anchor_center. destruct (gt (Vector.Length center) tolerance); grow.
Qed.

Lemma grows_add_center_construction_lines (geo_indices : list (Z * Edge)) :
  grows (add_center_construction_lines geo_indices).
Proof.
  unfold add_center_construction_lines. grow.
  destruct x as [geo_idx original_edge]. unfold center_line. grow.
  destruct a; grow; apply grows_anchor_center.
Qed.

Lemma grows_add_radius_constraints (geo_indices : list (Z * Edge)) :
  grows (add_radius_constraints geo_indices).
Proof.
  unfold add_radius_constraints. grow.
  destruct x as [geo_idx original_edge]. unfold radius_constraint. grow.
  destruct a; grow.
Qed.

Lemma grows_add_line_distance_constraints (geo_indices : list (Z * Edge)) :
  grows (add_line_distance_constraints geo_indices).
Proof.
  unfold add_line_distance_constraints. grow.
  destruct x as [geo_idx original_edge]. unfold distance_constraint. grow.
  destruct a; grow.
Qed.

Lemma grows_build_constraint_data (geo_indices : list (Z * Edge)) :
  grows (build_constraint_data geo_indices).
Proof.
  unfold build_constraint_data.
  apply grows_bind; [apply grows_add_vertex_coincident_constraints | intros _].
  apply grows_bind; [apply grows_add_center_construction_lines | intros _].
  apply grows_bind; [apply grows_add_radius_constraints | intros _].
  apply grows_add_line_distance_constraints.
Qed.

Lemma grows_add_edge (multVec : Vector -> Vector) (geo_indices : list (Z * Edge))
    (edge : Edge) :
  grows (add_edge multVec geo_indices edge).
Proof.
  unfold add_edge. apply grows_try_except; [|intros e; grow].
  apply grows_bind; [|intros geo_index; grow].
  destruct (Curve_ edge) as [|center axis radius|poles mults knots periodic degree|name].
  - unfold add_line_to_sketch. grow.
  - unfold add_circle_to_sketch.
    destruct (abs (Length edge - 2 * 3.141592653589793 * radius) <? 0.01)%float; grow.
  - unfold add_bspline_to_sketch. grow.
  - unfold add_line_to_sketch. grow.
Qed.

Lemma construction_lines_flag (geometry : list (Part.Geometry * bool))
    (geo_indices : list (Z * Edge)) :
  Forall (fun g => snd g = true) (construction_lines geometry geo_indices).
Proof.
  unfold construction_lines. induction geo_indices as [|entry gi IH]; cbn [flat_map];
    [constructor|].
  apply Forall_app. split; [|exact IH]. unfold line_of_entry.
  destruct (center_of_entry geometry entry) as [center|]; [|constructor].
  destruct (far_from_origin center); repeat constructor.
Qed.

End Growth.

(** Where the recorded entries are among the geometries that were added. *)
Lemma recorded_entries {host : Host} (multVec : Vector -> Vector) (first : nat)
    (added : list (Z * Edge)) (primary : list (Part.Geometry * bool)) :
  map fst added = indices_from first (List.length primary) ->
  reprojected multVec added primary ->
  forall entry, In entry added ->
    exists k g, nth_error primary k = Some g /\ fst entry = Z.of_nat (first + k) /\
                reprojection multVec (snd entry) (fst g) /\ snd g = false.
Proof.
  intros Hm Hre. revert first Hm.
  induction Hre as [|a g added primary [Hgeo Hflag] _ IH]; intros first Hm entry Hin;
    [destruct Hin|].
  cbn [List.length map] in Hm. rewrite indices_from_S in Hm. injection Hm as Ha Hm.
  destruct Hin as [<- | Hin].
  - exists 0%nat, g. rewrite Nat.add_0_r. auto.
  - destruct (IH (S first) Hm entry Hin) as (k & g' & Hk & Hidx & Hg).
    exists (S k), g'. split; [exact Hk|]. split; [|exact Hg].
    rewrite Hidx. f_equal. lia.
Qed.

(** X6. The loop of [add_geometry_to_sketch] over the edges never raises and
    accounts for every edge: an edge either gets one geometry, whose index is
    recorded with the edge, or is skipped with one warning [Failed to add
    edge]. The recorded edges come in the order of the selection, the
    constraints of the sketch are not touched, and what the loop prints are
    warnings. *)
Theorem every_edge_is_added_or_reported {host : Host} (multVec : Vector -> Vector)
    (edges : list Edge) (sk : Sketch) (con : list ConsoleEntry) :
  exists geo_indices primary printed,
    fold_for edges [] (add_edge multVec) (sk, con) =
      (Returns geo_indices,
       (mkSketch (Geometry sk ++ primary) (Constraints sk), con ++ printed)) /\
    List.length primary = List.length geo_indices /\
    (List.length geo_indices + List.length (filter is_failed_edge printed)
     = List.length edges)%nat /\
    subsequence (map snd geo_indices) edges /\
    Forall (fun entry => exists text, entry = PrintWarning text) printed.
Proof.
  destruct (fold_add_edge_report multVec edges [] sk con)
    as (added & primary & printed & F & Hm & Hre & Hsub & Hlen & Hw).
  exists added, primary, printed. cbn [app] in F.
  repeat split; try assumption. symmetry. exact (Forall2_length Hre).
Qed.

(** X7. [add_geometry_to_sketch] hands to the passes the entries its loop
    recorded, and whatever it ends with, a return or an exception of one of
    the passes, the sketch holds at the index of every recorded entry the
    re-projection of the recorded edge, not as a construction geometry: a
    segment between the re-projected first and last vertex for a line and for
    a curve of an unsupported type; for an edge on a circle the circle about
    the re-projected centre when its length is within 0.01 of the
    circumference, and the arc through its re-projected ends and middle
    otherwise; for a B-spline the B-spline of the re-projected poles with the
    same multiplicities, knots, periodicity and degree. *)
Theorem sketch_holds_the_reprojections {host : Host} (edges : list Edge)
    (multVec : Vector -> Vector) (sk : Sketch) (con : list ConsoleEntry) :
  exists geo_indices sk1 con1,
    fold_for edges [] (add_edge multVec) (sk, con) = (Returns geo_indices, (sk1, con1)) /\
    add_geometry_to_sketch edges multVec (sk, con) =
      build_constraint_data geo_indices (sk1, con1) /\
    let sk' := fst (snd (add_geometry_to_sketch edges multVec (sk, con))) in
    forall geo_idx edge,
      In (geo_idx, edge) geo_indices ->
      (Z.of_nat (List.length (Geometry sk)) <= geo_idx)%Z /\
      exists geo,
        index (Geometry sk') geo_idx = Returns (geo, false) /\
        reprojection multVec edge geo.
Proof.
  destruct (fold_add_edge_report multVec edges [] sk con)
    as (added & primary & printed & F & Hm & Hre & _).
  cbn [app] in F.
  set (sk1 := mkSketch (Geometry sk ++ primary) (Constraints sk)) in *.
  exists added, sk1, (con ++ printed). split; [exact F|].
  assert (Hrun : add_geometry_to_sketch edges multVec (sk, con) =
                 build_constraint_data added (sk1, con ++ printed))
    by (unfold add_geometry_to_sketch; now rewrite run_bind, F).
  split; [exact Hrun|]. cbv zeta. rewrite Hrun.
  destruct (grows_build_constraint_data added (sk1, con ++ printed)) as ((more & G) & _).
  cbn [fst Geometry sk1] in G. rewrite G.
  intros geo_idx edge Hin.
  destruct (recorded_entries _ _ _ _ Hm Hre _ Hin) as (k & [geo flag] & Hk & Hidx & Hgeo & Hflag).
  cbn [fst snd] in *. subst flag geo_idx. split; [lia|].
  exists geo. split; [|exact Hgeo].
  rewrite index_app.
  - now apply index_primary.
  - assert (k < List.length primary)%nat by (apply nth_error_Some; congruence).
    rewrite length_app. lia.
Qed.

(** X8. On a host that raises nothing, [add_geometry_to_sketch] returns when
    every edge has a vertex: no edge is skipped, the only warnings are those
    for the unsupported curve types, and the sketch gets the re-projection of
    every edge, in the order of the edges (for an edge on a circle, the circle
    when its length is within 0.01 of the circumference and the arc through
    its ends and middle otherwise), followed by construction lines. *)
Theorem quiet_host_adds_every_edge {host : Host} (edges : list Edge)
    (multVec : Vector -> Vector) (sk : Sketch) (con : list ConsoleEntry) :
  quiet ->
  Forall (fun edge => Vertexes edge <> []) edges ->
  exists sk' geo_indices primary lines,
    add_geometry_to_sketch edges multVec (sk, con) =
      (Returns tt, (sk', con ++ flat_map unsupported_warning edges)) /\
    Geometry sk' = Geometry sk ++ primary ++ lines /\
    map snd geo_indices = edges /\
    map fst geo_indices = indices_from (List.length (Geometry sk)) (List.length edges) /\
    reprojected multVec geo_indices primary /\
    Forall (fun g => snd g = true) lines.
Proof.
  intros Hq Hv.
  destruct (fold_add_edge_quiet multVec edges [] sk con Hq Hv)
    as (added & primary & F & Hm & Hs & Hre).
  cbn [app] in F.
  set (sk1 := mkSketch (Geometry sk ++ primary) (Constraints sk)) in *.
  assert (Hr : in_range (Geometry sk1) added) by (apply indices_in_range; exact Hm).
  destruct (build_constraint_data_quiet added sk1 (con ++ flat_map unsupported_warning edges)
              Hq Hr) as (sk' & B).
  destruct (build_constraint_data_returns added sk1 sk' _ _ Hr B) as (emitted & _ & G & _).
  exists sk', added, primary, (construction_lines (Geometry sk1) added).
  split; [unfold add_geometry_to_sketch; rewrite run_bind, F; exact B|].
  split; [rewrite G; cbn [sk1 Geometry]; now rewrite <- app_assoc|].
  split; [exact Hs|]. split; [|split; [exact Hre | apply construction_lines_flag]].
  rewrite Hm. f_equal. rewrite <- (Forall2_length Hre), <- Hs. now rewrite length_map.
Qed.

Lemma quiet_host_adds_every_edge_witness :
  exists sk' geo_indices primary lines,
    add_geometry_to_sketch (host := quiet_host) circle_and_line (fun v => v)
                           (mkSketch [] [], []) =
      (Returns tt, (sk', [] ++ flat_map unsupported_warning circle_and_line)) /\
    Geometry sk' = [] ++ primary ++ lines /\
    map snd geo_indices = circle_and_line /\
    map fst geo_indices = indices_from 0 2 /\
    reprojected (host := quiet_host) (fun v => v) geo_indices primary /\
    Forall (fun g => snd g = true) lines.
Proof.
  apply (quiet_host_adds_every_edge (host := quiet_host) circle_and_line (fun v => v)
           (mkSketch [] []) []).
  - intros sk c. reflexivity.
  - repeat constructor; discriminate.
Defined.

(** X9. Filling a sketch only ever adds to it: whatever
    [add_geometry_to_sketch] ends with, a return or an exception, the
    geometries and the constraints the sketch had are still there, at their
    indices and with their flags, and so is what the console held. *)
Theorem sketch_only_grows {host : Host} (edges : list Edge) (multVec : Vector -> Vector)
    (s : Sketch * list ConsoleEntry) :
  extends s (snd (add_geometry_to_sketch edges multVec s)).
Proof.
  revert s. change (grows (add_geometry_to_sketch edges multVec)).
  unfold add_geometry_to_sketch. apply grows_bind.
  - apply grows_fold_for. intros acc edge. apply grows_add_edge.
  - intros geo_indices. apply grows_build_constraint_data.
Qed.

(** ** The plane of two edges or more (lines 93-105) *)

Lemma unique_points_length (all_points unique_points : list Vector) :
  (List.length (fold_left add_unique all_points unique_points)
   <= List.length unique_points + List.length all_points)%nat.
Proof.
  revert unique_points. induction all_points as [|pt pts IH]; intros u; cbn [fold_left];
    [cbn; lia|].
  specialize (IH (add_unique u pt)). unfold add_unique in *.
  destruct (existsb _ u); [|rewrite length_app in IH]; cbn [List.length] in *; lia.
Qed.

(** X10. Two edges or more that have fewer than three vertices between them,
    two full circles for one, are turned down for want of unique points,
    whatever plane they lie in; nothing is printed before the exception. *)
Theorem too_few_vertices (first second : Edge) (others : list Edge) (w : World) :
  (List.length (all_points_of (first :: second :: others)) < 3)%nat ->
  plane_and_center (first :: second :: others) w =
  (Raises (Exception msg_few_unique_points), w).
Proof.
  intros H. unfold plane_and_center. rewrite run_bind. unfold lift. unfold multi_edge_plane.
  pose proof (unique_points_length (all_points_of (first :: second :: others)) []) as Hu.
  fold (unique_points_of (all_points_of (first :: second :: others))) in Hu.
  cbn [List.length] in Hu.
  replace (List.length (unique_points_of (all_points_of (first :: second :: others))) <? 3)%nat
    with true; [reflexivity|].
  symmetry. apply Nat.ltb_lt. lia.
Qed.

Lemma too_few_vertices_witness :
  plane_and_center [circle_edge; off_circle_edge] (world_with [] []) =
  (Raises (Exception msg_few_unique_points), world_with [] []).
Proof.
  apply (too_few_vertices circle_edge off_circle_edge [] (world_with [] [])).
  cbn. lia.
Defined.

(** ** The objects of the document (lines 189-243) *)

Lemma find_listed (objs : list (string * DocumentObject)) (name : string) :
  In name (map fst (filter is_Body objs)) ->
  exists o, find (fun o => String.eqb (fst o) name) objs = Some o.
Proof.
  intros H. apply in_map_iff in H. destruct H as (x & <- & Hx). apply filter_In in Hx.
  destruct (find (fun o => String.eqb (fst o) (fst x)) objs) as [o|] eqn:F; [eauto|].
  pose proof (find_none _ _ F x (proj1 Hx)) as Hn. cbn in Hn.
  now rewrite String.eqb_refl in Hn.
Qed.

Lemma find_fresh (objs : list (string * DocumentObject)) (fresh : string)
    (o : DocumentObject) :
  ~ In fresh (map fst objs) ->
  find (fun x => String.eqb (fst x) fresh) (objs ++ [(fresh, o)]) = Some (fresh, o).
Proof.
  intros H. induction objs as [|[n x] objs IH]; cbn [app find fst].
  - now rewrite String.eqb_refl.
  - destruct (String.eqb n fresh) eqn:E.
    + apply String.eqb_eq in E. exfalso. apply H. now left.
    + apply IH. intros Hin. apply H. now right.
Qed.

Lemma update_object_fresh (objs : list (string * DocumentObject)) (fresh : string)
    (o : DocumentObject) (f : DocumentObject -> DocumentObject) :
  ~ In fresh (map fst objs) ->
  update_object (objs ++ [(fresh, o)]) fresh f = objs ++ [(fresh, f o)].
Proof.
  intros H. induction objs as [|[n x] objs IH]; cbn [app update_object].
  - now rewrite String.eqb_refl.
  - destruct (String.eqb n fresh) eqn:E.
    + apply String.eqb_eq in E. exfalso. apply H. now left.
    + rewrite IH; [reflexivity|]. intros Hin. apply H. now right.
Qed.



Section Documents.

Context {host : Host} {desktop : Desktop}.

Lemma run_addObject (type name : string) (o : DocumentObject) (w : World) :
  addObject type name o w =
  match desktop_raises w (doc_addObject type name) with
  | Some e => (Raises e, w)
  | None =>
      let fresh := unique_name (map fst (Objects w)) name in
      (Returns fresh, set_Objects (fun objs => objs ++ [(fresh, o)]) w)
  end.
Proof.
  unfold addObject. rewrite run_bind. unfold desktop_call.
  destruct (desktop_raises w _); reflexivity.
Qed.

Lemma run_desktop_call (c : DesktopCall) (w : World) :
  desktop_call c w = match desktop_raises w c with
                     | Some e => (Raises e, w)
                     | None => (Returns tt, w)
                     end.
Proof. reflexivity. Qed.

(** The dialog changes nothing. *)
Lemma run_show_destination_dialog (w : World) :
  exists r, show_destination_dialog w = (r, w).
Proof.
  unfold show_destination_dialog. rewrite run_bind. unfold get at 1.
  rewrite run_bind, run_desktop_call.
  destruct (desktop_raises w _); [eauto|].
  destruct (getItem _) as [item ok].
  destruct (negb ok || String.eqb item ""); [unfold ret; eauto|].
  destruct (String.eqb item _); [unfold ret; eauto|].
  destruct (String.eqb item _); unfold ret; eauto.
Qed.

End Documents.

(** X11. A body the user picks in the destination dialog is a body of the
    document: [doc.getObject] finds it, and the exception [Body ... not
    found] of line 156 is never raised for it. The dialog itself changes
    nothing. *)
Theorem chosen_body_exists {host : Host} {desktop : Desktop} (w w' : World)
    (body_name : string) (placement : Placement) (edges : list Edge) :
  let options := ["<Standalone (Part Workbench)>"; "<Create New Body (PartDesign)>"]
                 ++ map fst (filter is_Body (Objects w)) in
  In (fst (getItem options)) options ->
  show_destination_dialog w = (Returns (Some (existing_body body_name)), w') ->
  w' = w /\
  In body_name (map fst (filter is_Body (Objects w))) /\
  create_sketch (existing_body body_name) placement edges w' =
  create_body_sketch body_name placement edges w'.
Proof.
  intros options Hin H.
  destruct (run_show_destination_dialog w) as (r & Hr).
  assert (Hw : w' = w) by congruence. subst w'.
  assert (Hbody : In body_name (map fst (filter is_Body (Objects w)))).
  { unfold show_destination_dialog in H. rewrite run_bind in H. unfold get at 1 in H.
    rewrite run_bind, run_desktop_call in H. fold options in H.
    destruct (desktop_raises w _); [discriminate|].
    destruct (getItem options) as [item ok]. cbn [fst] in Hin.
    destruct (negb ok || String.eqb item ""); [discriminate|].
    destruct (String.eqb item "<Standalone (Part Workbench)>") eqn:E1; [discriminate|].
    destruct (String.eqb item "<Create New Body (PartDesign)>") eqn:E2; [discriminate|].
    injection H as ->. apply String.eqb_neq in E1, E2.
    destruct Hin as [Hin | [Hin | Hin]]; [congruence | congruence | exact Hin]. }
  split; [reflexivity|]. split; [exact Hbody|].
  destruct (find_listed _ _ Hbody) as (o & Hfind).
  cbn [create_sketch]. rewrite run_bind. unfold getObject. rewrite run_bind. unfold get at 1.
  unfold ret at 1. now rewrite Hfind.
Qed.

Lemma chosen_body_exists_witness :
  let w := mkWorld true [("Body", Body [])] None [] [] [] in
  In "Body" (map fst (filter is_Body (Objects w))) /\
  create_sketch (host := quiet_host) (desktop := quiet_desktop ("Body", true))
                (existing_body "Body") Placement_default [circle_edge] w =
  create_body_sketch (host := quiet_host) (desktop := quiet_desktop ("Body", true))
                     "Body" Placement_default [circle_edge] w.
Proof.
  apply (chosen_body_exists (host := quiet_host) (desktop := quiet_desktop ("Body", true))
           (mkWorld true [("Body", Body [])] None [] [] [])
           (mkWorld true [("Body", Body [])] None [] [] []) "Body" Placement_default
           [circle_edge]).
  - cbn. auto.
  - reflexivity.
Defined.

Section NewSketches.

Context {host : Host} {desktop : Desktop}.

Lemma run_set_sketch (name : string) (f : SketchObject -> SketchObject) (w : World) :
  set_sketch name f w =
  (Returns tt,
   set_Objects (fun objs =>
     update_object objs name
       (fun o => match o with SketchObj s => SketchObj (f s) | _ => o end)) w).
Proof. reflexivity. Qed.

(** Filling the sketch that was added last. *)
Lemma run_on_sketch_fresh {A} (m : SketchM A) (w : World)
    (objs : list (string * DocumentObject)) (fresh : string) (s : SketchObject) :
  ~ In fresh (map fst objs) ->
  Objects w = objs ++ [(fresh, SketchObj s)] ->
  on_sketch fresh m w =
  let '(r, (content, console)) := m (Content s, Console w) in
  (r, mkWorld (ActiveDocument w)
              (objs ++ [(fresh, SketchObj (mkSketchObject (Placement_ s) (AttachmentSupport s)
                                             (MapMode s) (AttachmentOffset s) content))])
              (Transaction w) console (Dialogs w) (Selection w)).
Proof.
  intros Hfresh Hobjs. unfold on_sketch. rewrite Hobjs, (find_fresh objs fresh _ Hfresh).
  destruct (m (Content s, Console w)) as [r [content console]].
  now rewrite (update_object_fresh objs fresh _ _ Hfresh).
Qed.


End NewSketches.

(** X12. When the document gives the new object a name no object has yet, a
    standalone sketch that [create_standalone_sketch] returns is the last
    object of the document and the objects before it are untouched. It
    carries the placement of the plane as its [Placement], its other
    properties are those of a sketch just added, and it holds what
    [add_geometry_to_sketch] made of an empty sketch with the inverse of the
    global placement the sketch had once placed. *)
Theorem standalone_sketch_is_placed {host : Host} {desktop : Desktop} (placement : Placement)
    (edges : list Edge) (w w' : World) (sketch : string) :
  let fresh := unique_name (map fst (Objects w)) "Sketch" in
  let placed content :=
    (fresh, SketchObj (mkSketchObject placement (AttachmentSupport empty_sketch)
                                      (MapMode empty_sketch) (AttachmentOffset empty_sketch)
                                      content)) in
  ~ In fresh (map fst (Objects w)) ->
  create_standalone_sketch placement edges w = (Returns sketch, w') ->
  sketch = fresh /\
  exists content,
    Objects w' = Objects w ++ [placed content] /\
    add_geometry_to_sketch edges
      (global_inverse (Objects w ++ [placed (Content empty_sketch)]) fresh)
      (Content empty_sketch, Console w) = (Returns tt, (content, Console w')).
Proof.
  intros fresh placed Hfresh. unfold create_standalone_sketch.
  rewrite run_bind, run_addObject.
  destruct (desktop_raises w _); [discriminate|]. cbv beta iota zeta. fold fresh.
  rewrite run_bind, run_set_sketch. cbv beta iota. unfold set_Objects at 1 2. cbn [Objects].
  rewrite (update_object_fresh (Objects w) fresh _ _ Hfresh).
  rewrite run_bind, run_desktop_call. destruct (desktop_raises _ _); [discriminate|].
  cbv beta iota. rewrite run_bind. unfold get at 1. cbv beta iota.
  cbn [Objects ActiveDocument Transaction Console Dialogs Selection].
  rewrite run_bind.
  erewrite run_on_sketch_fresh by (try exact Hfresh; reflexivity).
  cbn [Content Console Placement_ AttachmentSupport MapMode AttachmentOffset].
  fold (placed (Content empty_sketch)).
  destruct (add_geometry_to_sketch edges _ (Content empty_sketch, Console w))
    as [[[]|e] [content console]]; [|discriminate].
  unfold ret. intros H. injection H as <- <-. split; [reflexivity|].
  exists content. split; reflexivity.
Qed.

Lemma standalone_sketch_is_placed_witness :
  let run := create_standalone_sketch (host := quiet_host)
               (desktop := quiet_desktop pick_standalone) Placement_default [circle_edge]
               (world_with [circle_edge] ["Edge1"]) in
  exists content,
    Objects (snd run) =
    [("Sketch", SketchObj (mkSketchObject Placement_default [] "Deactivated" Placement_default
                                          content))].
Proof.
  intros run.
  destruct (standalone_sketch_is_placed (host := quiet_host)
              (desktop := quiet_desktop pick_standalone) Placement_default [circle_edge]
              (world_with [circle_edge] ["Edge1"]) (snd run) "Sketch")
    as (_ & content & H & _).
  - cbn. auto.
  - vm_compute. reflexivity.
  - exists content. exact H.
Defined.





(** ** What a run leaves behind (lines 7-173) *)

Section Outcomes.

Context {host : Host} {desktop : Desktop}.

(** How the [try] body returns: after the user declined, with the objects
    the transaction started from, or after the commit. *)
Lemma try_body_returns_how (selected_edges : list Edge) (w w' : World)
    (before : list (string * DocumentObject)) :
  Transaction w = Some before ->
  try_body selected_edges w = (Returns tt, w') ->
  Transaction w' = None /\ Dialogs w' = Dialogs w /\
  (Objects w' = before \/
   exists sketch,
     Selection w' = [mkSelectionObject sketch [] []] /\
     last (Console w') (PrintError "") =
       PrintMessage (msg_created (List.length selected_edges))).
Proof.
  intros Ht. unfold try_body. rewrite run_bind.
  destruct (plane_and_center selected_edges w) as [[[plane_normal center]|e] w1] eqn:P;
    [|discriminate].
  destruct (keeps_plane_and_center selected_edges w _ _ P) as (T1 & D1 & _).
  rewrite run_bind.
  destruct (show_destination_dialog w1) as [[[choice|]|e] w2] eqn:S; [| |discriminate].
  - destruct (keeps_show_destination_dialog w1 _ _ S) as (T2 & D2 & _).
    rewrite run_bind.
    destruct (create_sketch _ _ _ w2) as [[sketch|e] w3] eqn:C; [|discriminate].
    destruct (keeps_create_sketch _ _ _ w2 _ _ C) as (T3 & D3 & _).
    unfold recompute. rewrite run_bind, run_desktop_call.
    destruct (desktop_raises w3 _); [discriminate|]. cbv beta iota.
    rewrite run_bind, run_desktop_call.
    destruct (desktop_raises w3 _); [discriminate|]. cbv beta iota.
    rewrite run_bind. unfold modify at 1. cbv beta iota.
    rewrite run_bind, run_desktop_call.
    destruct (desktop_raises _ _); [discriminate|]. cbv beta iota.
    rewrite run_bind. unfold modify at 1. cbv beta iota.
    rewrite run_bind, run_desktop_call.
    destruct (desktop_raises _ _); [discriminate|]. cbv beta iota.
    rewrite run_bind, run_desktop_call.
    destruct (desktop_raises _ _); [discriminate|]. cbv beta iota.
    unfold commitTransaction, Console_print, modify, bind.
    intros H. injection H as <-.
    cbn [Transaction Dialogs Selection Console app].
    split; [reflexivity|]. split; [congruence|]. right. exists sketch.
    split; [reflexivity | apply last_last].
  - destruct (keeps_show_destination_dialog w1 _ _ S) as (T2 & D2 & _).
    unfold abortTransaction, Console_print, modify, bind.
    intros H. injection H as <-.
    rewrite T2, T1, Ht. cbn [Transaction Dialogs Objects].
    split; [reflexivity|]. split; [congruence|]. now left.
Qed.

End Outcomes.

(** X15. The macro changes the objects of the document only when it
    succeeds. If the objects after a run are not those before it, the macro
    returned from a committed transaction without showing a dialog, the
    selection is the new sketch alone, and the last line of the console
    reports the creation with the number of edges that were selected. *)
Theorem document_changes_only_on_success {host : Host} {desktop : Desktop} (w w' : World)
    (r : result unit) :
  edge_loop_to_sketch w = (r, w') ->
  Objects w' <> Objects w ->
  r = Returns tt /\ Transaction w' = None /\ Dialogs w' = Dialogs w /\
  exists sel0 rest selected_edges sketch,
    Selection w = sel0 :: rest /\
    collect_edges sel0 (Selection w) [] = Returns (Some selected_edges) /\
    Selection w' = [mkSelectionObject sketch [] []] /\
    last (Console w') (PrintError "") =
      PrintMessage (msg_created (List.length selected_edges)).
Proof.
  intros H Hobjs.
  destruct (ActiveDocument w) eqn:Hdoc.
  2:{ unfold edge_loop_to_sketch in H. rewrite run_bind in H. unfold get at 1 in H.
      rewrite Hdoc in H. injection H as <- <-. now contradiction Hobjs. }
  destruct (Selection w) as [|sel0 rest] eqn:Hsel.
  { unfold edge_loop_to_sketch in H. rewrite run_bind in H. unfold get at 1 in H.
    rewrite Hdoc, Hsel in H. injection H as <- <-. now contradiction Hobjs. }
  rewrite (run_before_transaction w sel0 rest Hdoc Hsel) in H.
  destruct (collect_edges sel0 (sel0 :: rest) []) as [[[|edge edges]|]|e] eqn:Hcol;
    try (injection H as <- <-; now contradiction Hobjs).
  set (opened := mkWorld true (Objects w) (Some (Objects w)) (Console w) (Dialogs w)
                         (Selection w)) in H.
  unfold try_except in H.
  destruct (try_body (edge :: edges) opened) as [[[]|e] w1] eqn:B.
  - injection H as <- <-.
    destruct (try_body_returns_how (edge :: edges) opened w1 (Objects w) eq_refl B)
      as (T & D & [O | (sketch & S & L)]); [contradiction|].
    split; [reflexivity|]. split; [exact T|]. split; [exact D|].
    exists sel0, rest, (edge :: edges), sketch. auto.
  - destruct (try_body_raises (edge :: edges) opened e w1 B) as (T & _).
    cbn [Transaction opened] in T.
    unfold except_clause, abortTransaction, Console_print, QMessageBox_critical, modify, bind
      in H.
    rewrite T in H. injection H as <- <-. now contradiction Hobjs.
Qed.

Lemma document_changes_only_on_success_witness :
  let run := edge_loop_to_sketch (host := quiet_host)
               (desktop := quiet_desktop pick_standalone)
               (world_with [circle_edge] ["Edge1"]) in
  fst run = Returns tt /\ Transaction (snd run) = None /\ Dialogs (snd run) = [] /\
  exists sel0 rest selected_edges sketch,
    [solid_of_circle] = sel0 :: rest /\
    collect_edges sel0 [solid_of_circle] [] = Returns (Some selected_edges) /\
    Selection (snd run) = [mkSelectionObject sketch [] []] /\
    last (Console (snd run)) (PrintError "") =
      PrintMessage (msg_created (List.length selected_edges)).
Proof.
  intros run.
  apply (document_changes_only_on_success (host := quiet_host)
           (desktop := quiet_desktop pick_standalone)
           (world_with [circle_edge] ["Edge1"]) (snd run) (fst run)).
  - vm_compute. reflexivity.
  - vm_compute. discriminate.
Defined.

(** X16. The only exceptions that leave the macro are those of lines 32-33,
    the [int] of a sub-element name and the index into the edges of the
    shape: they are raised while the selection is read, before the
    transaction is opened, and nothing has been changed or printed by
    then. Everything raised later is caught at line 170. *)
Theorem only_the_selection_raises {host : Host} {desktop : Desktop} (w w' : World) (e : exn) :
  edge_loop_to_sketch w = (Raises e, w') ->
  w' = w /\
  exists sel0 rest,
    Selection w = sel0 :: rest /\ collect_edges sel0 (Selection w) [] = Raises e.
Proof.
  intros H.
  destruct (ActiveDocument w) eqn:Hdoc.
  2:{ unfold edge_loop_to_sketch in H. rewrite run_bind in H. unfold get at 1 in H.
      rewrite Hdoc in H. discriminate H. }
  destruct (Selection w) as [|sel0 rest] eqn:Hsel.
  { unfold edge_loop_to_sketch in H. rewrite run_bind in H. unfold get at 1 in H.
    rewrite Hdoc, Hsel in H. discriminate H. }
  rewrite (run_before_transaction w sel0 rest Hdoc Hsel) in H.
  destruct (collect_edges sel0 (sel0 :: rest) []) as [[[|edge edges]|]|e'] eqn:Hcol;
    try discriminate H.
  - unfold try_except in H.
    destruct (try_body (edge :: edges) _) as [[[]|e'] w1]; [discriminate H|].
    unfold except_clause, abortTransaction, Console_print, QMessageBox_critical, modify, bind
      in H.
    discriminate H.
  - injection H as <- <-. split; [reflexivity|]. exists sel0, rest. auto.
Qed.

Lemma only_the_selection_raises_witness :
  let w := world_with two_edges ["Edge1"; "Edge3"] in
  w = w /\
  exists sel0 rest,
    Selection w = sel0 :: rest /\
    collect_edges sel0 (Selection w) [] = Raises (Exception "list index out of range").
Proof.
  apply (only_the_selection_raises (host := quiet_host)
           (desktop := quiet_desktop pick_standalone)
           (world_with two_edges ["Edge1"; "Edge3"]) (world_with two_edges ["Edge1"; "Edge3"])
           (Exception "list index out of range")).
  reflexivity.
Defined.
